(** * A limit order book, a market-making agent and their event-driven simulator

    Shallow embedding of the Python sources [lob/types.py], [lob/orders.py],
    [lob/book.py], [strategies/market_maker.py], [sim/arrivals.py],
    [sim/events.py] and [sim/engine.py].

    Conventions of the embedding.
    - A Python [float] is represented by the rational number it denotes, a
      canonical rational [Qc].  The arithmetic on floats is a parameter, the
      class [Arith]: the instance [exact] computes in the rationals, the
      instance [Binary64.binary64] rounds every operation to the nearest
      IEEE-754 double through Rocq's primitive floats (finite values only).
    - A Python [int] is a [Z].
    - An exception is a value of [exn]; an operation that may raise returns
      an [outcome].  Loops that are not structurally recursive take fuel, and
      [OutOfFuel] is an outcome of its own, never confused with a result.
    - The object a Python variable refers to is threaded explicitly: an
      operation that mutates the book or the taker order returns the new
      book and the new order. *)

From Stdlib Require Import ZArith QArith Qcanon Qround Lia Lqa.
From Stdlib Require Import Floats.PrimFloat Floats.SpecFloat Floats.FloatOps.
From stdpp Require Import gmap strings list sorting pretty.

Local Open Scope Z_scope.

(** ** Exceptions and outcomes *)

Inductive exn : Set := KeyError | ValueError | ZeroDivisionError.

Inductive outcome (A : Type) : Type :=
  | Return (a : A)
  | Raise (e : exn)
  | OutOfFuel.
Arguments Return {A} a.
Arguments Raise {A} e.
Arguments OutOfFuel {A}.

#[global] Instance exn_eq_dec : EqDecision exn.
Proof. solve_decision. Defined.
#[global] Instance outcome_eq_dec {A : Type} `{EqDecision A} : EqDecision (outcome A).
Proof. solve_decision. Defined.

#[global] Instance outcome_ret : MRet outcome := @Return.
#[global] Instance outcome_bind : MBind outcome := fun A B f m =>
  match m with
  | Return a => f a
  | Raise e => Raise e
  | OutOfFuel => OutOfFuel
  end.

(** ** Numbers *)

(** The decimal literal [n / d]. *)
Definition dec (n : Z) (d : positive) : Qc := Q2Qc (n # d).

(** Python's [round(x)] on a float: the nearest integer, ties to even. *)
Definition py_round (x : Qc) : Z :=
  let f := Qfloor x in
  let d := (x - Qc_of_Z f)%Qc in
  if bool_decide (d < dec 1 2)%Qc then f
  else if bool_decide (dec 1 2 < d)%Qc then f + 1
  else if Z.even f then f else f + 1.

(** Python's [int(x)] on a float: truncation toward zero. *)
Definition py_int (x : Qc) : Z :=
  if bool_decide (Q2Qc 0 <= x)%Qc then Qfloor x else Qceiling x.

Definition pow10 (n : nat) : Qc := Qc_of_Z (10 ^ Z.of_nat n).

(** Arithmetic on floats.  [fl] sends a real number to the float that
    represents it (used for literals, for [float(int)] and for the result of
    decimal rounding); the four operations take and return floats. *)
Class Arith : Type := {
  fl : Qc -> Qc;
  fadd : Qc -> Qc -> Qc;
  fsub : Qc -> Qc -> Qc;
  fmul : Qc -> Qc -> Qc;
  fdiv : Qc -> Qc -> Qc
}.

Declare Scope float_model_scope.
Delimit Scope float_model_scope with F.
Infix "+" := fadd : float_model_scope.
Infix "-" := fsub : float_model_scope.
Infix "*" := fmul : float_model_scope.
Infix "/" := fdiv : float_model_scope.

(** Exact rational arithmetic. *)
Definition exact : Arith :=
  {| fl := fun x => x; fadd := Qcplus; fsub := Qcminus; fmul := Qcmult; fdiv := Qcdiv |}.

Section Float.
Context {A : Arith}.

(** [float(n)] for a Python int. *)
Definition of_int (n : Z) : Qc := fl (Qc_of_Z n).

(** Python's [x / y] on floats. *)
Definition py_div (x y : Qc) : outcome Qc :=
  if bool_decide (y = Q2Qc 0) then Raise ZeroDivisionError else Return (x / y)%F.

(** Python's [round(x, ndigits)]: the decimal rounding of the exact value
    of [x] (ties to even), then the float nearest to that decimal. *)
Definition py_round_ndigits (x : Qc) (ndigits : nat) : Qc :=
  fl (Qc_of_Z (py_round (x * pow10 ndigits)%Qc) / pow10 ndigits)%Qc.
End Float.

(** IEEE-754 binary64 arithmetic, through primitive floats. *)
Module Binary64.

(** The double nearest to an integer (exact when it is representable). *)
Definition of_Z (z : Z) : float :=
  SF2Prim (binary_normalize 53 1024 z 0 false).

(** The double nearest to a rational whose numerator and denominator are
    representable (every double below 2^53 in magnitude is such a
    rational, and so is a decimal literal such as 0.01). *)
Definition to_float (q : Qc) : float :=
  PrimFloat.div (of_Z (Qnum q)) (of_Z (Zpos (Qden q))).

(** The rational a finite double denotes; infinities and NaN are outside
    the model and read as 0. *)
Definition of_float (f : float) : Qc :=
  match Prim2SF f with
  | S754_finite s m e =>
      let v := (Qc_of_Z (Zpos m) * Q2Qc (Qpower 2 e))%Qc in
      if s then (- v)%Qc else v
  | _ => Q2Qc 0
  end.

Definition lift2 (op : float -> float -> float) (x y : Qc) : Qc :=
  of_float (op (to_float x) (to_float y)).

Definition binary64 : Arith :=
  {| fl := fun x => of_float (to_float x);
     fadd := lift2 PrimFloat.add;
     fsub := lift2 PrimFloat.sub;
     fmul := lift2 PrimFloat.mul;
     fdiv := lift2 PrimFloat.div |}.

End Binary64.

(** ** lob/types.py *)

Inductive Side : Set := BID | ASK.

Definition opposite (s : Side) : Side :=
  match s with BID => ASK | ASK => BID end.

Inductive OrderType : Set := LIMIT | MARKET.

#[global] Instance Side_eq_dec : EqDecision Side.
Proof. solve_decision. Defined.
#[global] Instance OrderType_eq_dec : EqDecision OrderType.
Proof. solve_decision. Defined.

Record Order : Type := mkOrder {
  order_id : string;
  timestamp : Qc;
  side : Side;
  order_type : OrderType;
  qty : Z;
  price : option Qc;
  owner : string
}.

(** [Order.__post_init__]: the two checks of the constructor. *)
Definition Order_post_init (o : Order) : outcome Order :=
  if bool_decide (qty o <= 0) then Raise ValueError
  else if bool_decide (order_type o = LIMIT /\ price o = None) then Raise ValueError
  else Return o.

(** The assignment [order.qty = q]. *)
Definition set_qty (o : Order) (q : Z) : Order :=
  {| order_id := order_id o; timestamp := timestamp o; side := side o;
     order_type := order_type o; qty := q; price := price o; owner := owner o |}.

Record Trade : Type := mkTrade {
  trade_timestamp : Qc;
  trade_price : Qc;
  trade_qty : Z;
  taker_order_id : string;
  maker_order_id : string;
  taker_owner : string;
  maker_owner : string;
  taker_side : Side
}.

(** ** lob/orders.py *)

(** The factory is its counter: [next(self._counter)] returns the current
    value and advances it. *)
Record OrderFactory : Type := mkFactory {
  prefix : string;
  counter : Z
}.

Definition next_id (f : OrderFactory) : string * OrderFactory :=
  (prefix f +:+ "-" +:+ pretty (counter f),
   {| prefix := prefix f; counter := counter f + 1 |}).

Definition factory_limit (f : OrderFactory) (ts : Qc) (s : Side) (p : Qc) (q : Z)
    (ow : string) : outcome Order * OrderFactory :=
  let '(oid, f') := next_id f in
  (Order_post_init
     {| order_id := oid; timestamp := ts; side := s; order_type := LIMIT;
        qty := q; price := Some p; owner := ow |}, f').

Definition factory_market (f : OrderFactory) (ts : Qc) (s : Side) (q : Z)
    (ow : string) : outcome Order * OrderFactory :=
  let '(oid, f') := next_id f in
  (Order_post_init
     {| order_id := oid; timestamp := ts; side := s; order_type := MARKET;
        qty := q; price := None; owner := ow |}, f').

(** ** Python containers *)

(** A [dict] whose iteration order is observed: keys in insertion order. *)
Section pydict.
Context {K V : Type} `{EqDecision K}.

Fixpoint dict_get (d : list (K * V)) (k : K) : option V :=
  match d with
  | [] => None
  | (k', v) :: d' => if decide (k' = k) then Some v else dict_get d' k
  end.

(** [d[k] = v]: an existing key keeps its position. *)
Fixpoint dict_set (d : list (K * V)) (k : K) (v : V) : list (K * V) :=
  match d with
  | [] => [(k, v)]
  | (k', v') :: d' =>
      if decide (k' = k) then (k', v) :: d' else (k', v') :: dict_set d' k v
  end.

(** [d.pop(k, None)] *)
Definition dict_pop (d : list (K * V)) (k : K) : list (K * V) :=
  filter (fun kv => kv.1 <> k) d.
End pydict.

(** [bisect.bisect_left(a, x)] and [bisect.insort(a, x)], by their contract
    on an ascending list: the index of the first element that is not below
    [x], and the insertion of [x] before the first element above it.  (The
    library finds the index by bisection; on an ascending list the index is
    the same.) *)
Fixpoint bisect_left (a : list Qc) (x : Qc) : nat :=
  match a with
  | [] => O
  | y :: a' => if bool_decide (y < x)%Qc then S (bisect_left a' x) else O
  end.

Fixpoint insort (a : list Qc) (x : Qc) : list Qc :=
  match a with
  | [] => [x]
  | y :: a' => if bool_decide (x < y)%Qc then x :: y :: a' else y :: insort a' x
  end.

(** ** lob/book.py *)

(** The third component of an index entry is, in Python, a reference to the
    order object that also sits in its level's queue.  The embedding keeps
    each order once, in its queue; the index keeps the fields of the order
    that never change ([owner]), and [order_qty] reads the quantity through
    the queue. *)
Record LimitOrderBook : Type := mkBook {
  _bids : gmap Qc (list Order);
  _asks : gmap Qc (list Order);
  _bid_prices : list Qc;   (* ascending, best at the end *)
  _ask_prices : list Qc;   (* ascending, best at the front *)
  _order_index : list (string * (Side * Qc * string))
}.

Definition empty_book : LimitOrderBook :=
  {| _bids := ∅; _asks := ∅; _bid_prices := []; _ask_prices := []; _order_index := [] |}.

Definition best_bid (b : LimitOrderBook) : option Qc := last (_bid_prices b).

Definition best_ask (b : LimitOrderBook) : option Qc := head (_ask_prices b).

Section BookArith.
Context {A : Arith}.

Definition mid_price (b : LimitOrderBook) : option Qc :=
  match best_bid b, best_ask b with
  | Some bb, Some ba => Some ((bb + ba) / fl (Q2Qc 2))%F
  | _, _ => None
  end.

Definition spread (b : LimitOrderBook) : option Qc :=
  match best_bid b, best_ask b with
  | Some bb, Some ba => Some (ba - bb)%F
  | _, _ => None
  end.
End BookArith.

(** [_book_for_side]: the dict and the level list of one side, and the
    write-back of both. *)
Definition _book_for_side (b : LimitOrderBook) (s : Side)
    : gmap Qc (list Order) * list Qc :=
  match s with
  | BID => (_bids b, _bid_prices b)
  | ASK => (_asks b, _ask_prices b)
  end.

Definition set_book_for_side (b : LimitOrderBook) (s : Side)
    (book : gmap Qc (list Order)) (levels : list Qc) : LimitOrderBook :=
  match s with
  | BID => {| _bids := book; _asks := _asks b; _bid_prices := levels;
              _ask_prices := _ask_prices b; _order_index := _order_index b |}
  | ASK => {| _bids := _bids b; _asks := book; _bid_prices := _bid_prices b;
              _ask_prices := levels; _order_index := _order_index b |}
  end.

Definition set_order_index (b : LimitOrderBook)
    (index : list (string * (Side * Qc * string))) : LimitOrderBook :=
  {| _bids := _bids b; _asks := _asks b; _bid_prices := _bid_prices b;
     _ask_prices := _ask_prices b; _order_index := index |}.

Definition sum_qty (queue : list Order) : Z := foldr (fun o acc => qty o + acc) 0 queue.

Definition top_depth (b : LimitOrderBook) : outcome (Z * Z) :=
  bid_qty ← match best_bid b with
            | None => Return 0
            | Some p => match _bids b !! p with
                        | Some queue => Return (sum_qty queue)
                        | None => Raise KeyError
                        end
            end;
  ask_qty ← match best_ask b with
            | None => Return 0
            | Some p => match _asks b !! p with
                        | Some queue => Return (sum_qty queue)
                        | None => Raise KeyError
                        end
            end;
  Return (bid_qty, ask_qty).

Definition order_qty (b : LimitOrderBook) (oid : string) : option Z :=
  '(s, p, _) ← dict_get (_order_index b) oid;
  queue ← (_book_for_side b s).1 !! p;
  o ← list_find (fun o => order_id o = oid) queue;
  Some (qty o.2).

Definition open_orders (b : LimitOrderBook) (ow : option string) : list string :=
  match ow with
  | None => (_order_index b).*1
  | Some w => (filter (fun kv => kv.2.2 = w) (_order_index b)).*1
  end.

Definition _remove_price_level (b : LimitOrderBook) (s : Side) (p : Qc) : LimitOrderBook :=
  let '(book, levels) := _book_for_side b s in
  let idx := bisect_left levels p in
  set_book_for_side b s (delete p book)
    (if bool_decide (levels !! idx = Some p) then delete idx levels else levels).

Definition _add_resting (b : LimitOrderBook) (o : Order) : outcome LimitOrderBook :=
  match price o with
  | None => Raise ValueError
  | Some p =>
      let '(book, levels) := _book_for_side b (side o) in
      let '(book, levels) :=
        match book !! p with
        | Some _ => (book, levels)
        | None => (<[p := []]> book, insort levels p)
        end in
      let book := <[p := default [] (book !! p) ++ [o]]> book in
      Return (set_order_index (set_book_for_side b (side o) book levels)
                (dict_set (_order_index b) (order_id o) (side o, p, owner o)))
  end.

Definition _is_marketable (b : LimitOrderBook) (o : Order) : bool :=
  match order_type o with
  | MARKET => true
  | LIMIT =>
      match side o, best_ask b, best_bid b, price o with
      | BID, Some ba, _, Some p => bool_decide (ba <= p)%Qc
      | BID, _, _, _ => false
      | ASK, _, Some bb, Some p => bool_decide (p <= bb)%Qc
      | ASK, _, _, _ => false
      end
  end.

Definition mk_trade (taker maker : Order) (best_price : Qc) (fill_qty : Z) : Trade :=
  {| trade_timestamp := timestamp taker; trade_price := best_price;
     trade_qty := fill_qty; taker_order_id := order_id taker;
     maker_order_id := order_id maker; taker_owner := owner taker;
     maker_owner := owner maker; taker_side := side taker |}.

(** The inner loop of [_match], [while queue and taker.qty > 0].  One turn
    fill_walk [min(taker.qty, maker.qty)], so it leaves the maker or the taker
    at zero: when the maker is not at zero the taker is
    ([match_queue_taker_done]), the loop test fails and the loop ends with
    the maker still at the head of the queue. *)
Fixpoint match_queue (taker : Order) (best_price : Qc) (queue : list Order)
    (index : list (string * (Side * Qc * string)))
    : Order * list Order * list (string * (Side * Qc * string)) * list Trade :=
  match queue with
  | [] => (taker, [], index, [])
  | maker :: rest =>
      if bool_decide (0 < qty taker) then
        let fill_qty := Z.min (qty taker) (qty maker) in
        let maker' := set_qty maker (qty maker - fill_qty) in
        let taker' := set_qty taker (qty taker - fill_qty) in
        let trade := mk_trade taker maker best_price fill_qty in
        if bool_decide (qty maker' = 0) then
          let '(taker'', queue', index', trades) :=
            match_queue taker' best_price rest (dict_pop index (order_id maker)) in
          (taker'', queue', index', trade :: trades)
        else (taker', maker' :: rest, index, [trade])
      else (taker, queue, index, [])
  end.

(** The test that ends the outer loop for a limit taker. *)
Definition limit_reached (taker : Order) (best_price : Qc) : bool :=
  match order_type taker, price taker with
  | LIMIT, Some p =>
      match side taker with
      | BID => bool_decide (p < best_price)%Qc
      | ASK => bool_decide (best_price < p)%Qc
      end
  | _, _ => false
  end.

(** One turn of the outer loop of [_match], from [queue = maker_book[best_price]]
    to the removal of the level when its queue is left empty.  The queue and
    the makers are mutated in place: the book sees the new queue at once. *)
Definition match_level (b : LimitOrderBook) (taker : Order) (best_price : Qc)
    (queue : list Order) : LimitOrderBook * Order * list Trade :=
  let maker_side := opposite (side taker) in
  let '(maker_book, levels) := _book_for_side b maker_side in
  let '(taker', queue', index', trades) :=
    match_queue taker best_price queue (_order_index b) in
  let b1 := set_order_index
              (set_book_for_side b maker_side
                 (<[best_price := queue']> maker_book) levels) index' in
  (match queue' with
   | [] => _remove_price_level b1 maker_side best_price
   | _ => b1
   end, taker', trades).

(** The outer loop of [_match], [while taker.qty > 0]. *)
Fixpoint match_loop (fuel : nat) (b : LimitOrderBook) (taker : Order)
    : outcome (LimitOrderBook * Order * list Trade) :=
  if bool_decide (0 < qty taker) then
    match (match side taker with BID => best_ask b | ASK => best_bid b end) with
    | None => Return (b, taker, [])
    | Some best_price =>
        if limit_reached taker best_price then Return (b, taker, [])
        else
          match (_book_for_side b (opposite (side taker))).1 !! best_price with
          | None => Raise KeyError
          | Some queue =>
              let '(b2, taker', trades) := match_level b taker best_price queue in
              match fuel with
              | O => OutOfFuel
              | S fuel' =>
                  '(b3, taker3, trades3) ← match_loop fuel' b2 taker';
                  Return (b3, taker3, trades ++ trades3)
              end
          end
    end
  else Return (b, taker, []).

Definition _match (b : LimitOrderBook) (taker : Order)
    : outcome (LimitOrderBook * Order * list Trade) :=
  match_loop (S (length (_book_for_side b (opposite (side taker))).2)) b taker.

(** [add_order] returns the trades; the book and the order it was given are
    the ones it has mutated. *)
Definition add_order (b : LimitOrderBook) (o : Order)
    : outcome (list Trade * LimitOrderBook * Order) :=
  '(b1, o1, trades) ←
    (if bool_decide (order_type o = MARKET) || _is_marketable b o
     then _match b o else Return (b, o, []));
  if bool_decide (order_type o1 = LIMIT /\ 0 < qty o1) then
    b2 ← _add_resting b1 o1; Return (trades, b2, o1)
  else Return (trades, b1, o1).

(** The scan of [cancel]: delete the first order of the queue with this id. *)
Fixpoint remove_first (oid : string) (queue : list Order) : option (list Order) :=
  match queue with
  | [] => None
  | resting :: rest =>
      if bool_decide (order_id resting = oid) then Some rest
      else cons resting <$> remove_first oid rest
  end.

Definition cancel (b : LimitOrderBook) (oid : string) : bool * LimitOrderBook :=
  match dict_get (_order_index b) oid with
  | None => (false, b)
  | Some (s, p, _) =>
      let '(book, levels) := _book_for_side b s in
      match book !! p with
      | None => (false, set_order_index b (dict_pop (_order_index b) oid))
      | Some queue =>
          match remove_first oid queue with
          | None => (false, set_order_index b (dict_pop (_order_index b) oid))
          | Some queue' =>
              let b1 := set_order_index
                          (set_book_for_side b s (<[p := queue']> book) levels)
                          (dict_pop (_order_index b) oid) in
              (true, match queue' with
                     | [] => _remove_price_level b1 s p
                     | _ => b1
                     end)
          end
      end
  end.

(** * Vocabulary of the properties *)

(** The resting orders of one side, in the order matching visits them: best
    price first, and first come first within a level. *)
Definition side_book (b : LimitOrderBook) (s : Side) : gmap Qc (list Order) :=
  (_book_for_side b s).1.

Definition side_levels (b : LimitOrderBook) (s : Side) : list Qc :=
  (_book_for_side b s).2.

Definition queue_at (book : gmap Qc (list Order)) (p : Qc) : list Order :=
  default [] (book !! p).

Definition best_first (s : Side) (levels : list Qc) : list Qc :=
  match s with BID => reverse levels | ASK => levels end.

Definition resting (b : LimitOrderBook) (s : Side) : list Order :=
  best_first s (side_levels b s) ≫= queue_at (side_book b s).

Definition all_resting (b : LimitOrderBook) : list Order :=
  resting b BID ++ resting b ASK.

Definition best_price (b : LimitOrderBook) (s : Side) : option Qc :=
  match s with BID => best_bid b | ASK => best_ask b end.

(** What the constructor of [Order] guarantees. *)
Definition valid_order (o : Order) : Prop :=
  0 < qty o /\ (order_type o = LIMIT -> is_Some (price o)).

(** An order that rests at level [p] of side [s]. *)
Definition order_ok (s : Side) (p : Qc) (o : Order) : Prop :=
  side o = s /\ price o = Some p /\ order_type o = LIMIT /\ 0 < qty o.

(** One side of the book: the level list is strictly ascending, it lists
    the keys of the dict, and every queue is non-empty and holds orders of
    this side and this price with a positive quantity. *)
Record side_wf (s : Side) (book : gmap Qc (list Order)) (levels : list Qc) : Prop := {
  levels_sorted : StronglySorted Qclt levels;
  levels_keys : forall p, p ∈ levels <-> is_Some (book !! p);
  queues_ok : forall p q, book !! p = Some q -> q <> [] /\ Forall (order_ok s p) q
}.

Record book_wf (b : LimitOrderBook) : Prop := {
  wf_bids : side_wf BID (_bids b) (_bid_prices b);
  wf_asks : side_wf ASK (_asks b) (_ask_prices b);
  wf_uncrossed : forall pb pa,
    pb ∈ _bid_prices b -> pa ∈ _ask_prices b -> (pb < pa)%Qc
}.

(** The index entry of a resting order. *)
Definition index_entry (o : Order) : string * (Side * Qc * string) :=
  (order_id o, (side o, default (Q2Qc 0) (price o), owner o)).

(** The index lists the resting orders, and no id rests twice. *)
Record index_wf (b : LimitOrderBook) : Prop := {
  ids_nodup : NoDup (order_id <$> all_resting b);
  index_resting : forall oid e,
    dict_get (_order_index b) oid = Some e <->
    exists o, o ∈ all_resting b /\ index_entry o = (oid, e)
}.

(** The books the interface produces: from the empty book, by [add_order]
    of orders that passed the constructor and by [cancel]. *)
Inductive reachable : LimitOrderBook -> Prop :=
  | reach_empty : reachable empty_book
  | reach_add b o trades b' o' :
      reachable b -> valid_order o ->
      add_order b o = Return (trades, b', o') -> reachable b'
  | reach_cancel b oid r b' :
      reachable b -> cancel b oid = (r, b') -> reachable b'.

(** The same, when no order is added under an id that is resting. *)
Inductive reachable_fresh : LimitOrderBook -> Prop :=
  | fresh_empty : reachable_fresh empty_book
  | fresh_add b o trades b' o' :
      reachable_fresh b -> valid_order o ->
      order_id o ∉ open_orders b None ->
      add_order b o = Return (trades, b', o') -> reachable_fresh b'
  | fresh_cancel b oid r b' :
      reachable_fresh b -> cancel b oid = (r, b') -> reachable_fresh b'.

Definition total_qty (trades : list Trade) : Z :=
  foldr (fun t acc => trade_qty t + acc) 0 trades.

(** Matching, told on the priority list of the opposite side: the taker
    walks the list while it has quantity left and the price of the next
    maker is within its limit; a maker filled to zero leaves the list. *)
Fixpoint fill_walk (taker : Order) (ms : list Order) : list Trade * Order * list Order :=
  match ms with
  | [] => ([], taker, [])
  | m :: ms' =>
      match price m with
      | Some p =>
          if bool_decide (0 < qty taker) && negb (limit_reached taker p) then
            let f := Z.min (qty taker) (qty m) in
            if bool_decide (qty m - f = 0) then
              let '(ts, t, r) := fill_walk (set_qty taker (qty taker - f)) ms' in
              (mk_trade taker m p f :: ts, t, r)
            else ([mk_trade taker m p f], set_qty taker (qty taker - f),
                  set_qty m (qty m - f) :: ms')
          else ([], taker, ms)
      | None => ([], taker, ms)
      end
  end.

(** Trade [t] took the whole of maker [m]. *)
Definition full_fill (t : Trade) (m : Order) : Prop :=
  maker_order_id t = order_id m /\ trade_qty t = qty m /\
  price m = Some (trade_price t).

(** [p1] is at least as good a price as [p2] for a maker of side [s]. *)
Definition no_worse (s : Side) (p1 p2 : Qc) : Prop :=
  match s with BID => (p2 <= p1)%Qc | ASK => (p1 <= p2)%Qc end.

Definition priced_no_worse (s : Side) (m1 m2 : Order) : Prop :=
  exists p1 p2, price m1 = Some p1 /\ price m2 = Some p2 /\ no_worse s p1 p2.

(** * strategies/market_maker.py *)

Record MarketMakerConfig : Type := mkMMConfig {
  half_spread_ticks : Z;
  quote_qty : Z;
  inventory_skew : Qc
}.

(** An entry of the fill log; the engine writes the timestamp afterwards. *)
Record Fill : Type := mkFill {
  fill_timestamp : option Qc;
  fill_side : Side;
  fill_mm_side : Z;
  fill_price : Qc;
  fill_qty : Z
}.

Record MarketMaker : Type := mkMM {
  config : MarketMakerConfig;
  tick_size : Qc;
  inventory : Z;
  cash : Qc;
  initial_cash : Qc;
  avg_entry_price : Qc;
  realized_pnl : Qc;
  active_order_ids : gset string;
  fills : list Fill
}.

(** [MarketMaker(config, tick_size=tick)]: the other fields at their defaults. *)
Definition new_market_maker (cfg : MarketMakerConfig) (tick : Qc) : MarketMaker :=
  {| config := cfg; tick_size := tick; inventory := 0; cash := Q2Qc 0;
     initial_cash := Q2Qc 0; avg_entry_price := Q2Qc 0; realized_pnl := Q2Qc 0;
     active_order_ids := ∅; fills := [] |}.

Definition set_cash (mm : MarketMaker) (c : Qc) : MarketMaker :=
  {| config := config mm; tick_size := tick_size mm; inventory := inventory mm;
     cash := c; initial_cash := initial_cash mm;
     avg_entry_price := avg_entry_price mm; realized_pnl := realized_pnl mm;
     active_order_ids := active_order_ids mm; fills := fills mm |}.

Definition set_position (mm : MarketMaker) (inv : Z) (avg realized : Qc) : MarketMaker :=
  {| config := config mm; tick_size := tick_size mm; inventory := inv;
     cash := cash mm; initial_cash := initial_cash mm;
     avg_entry_price := avg; realized_pnl := realized;
     active_order_ids := active_order_ids mm; fills := fills mm |}.

Definition set_fills (mm : MarketMaker) (l : list Fill) : MarketMaker :=
  {| config := config mm; tick_size := tick_size mm; inventory := inventory mm;
     cash := cash mm; initial_cash := initial_cash mm;
     avg_entry_price := avg_entry_price mm; realized_pnl := realized_pnl mm;
     active_order_ids := active_order_ids mm; fills := l |}.

Definition set_active_order_ids (mm : MarketMaker) (ids : gset string) : MarketMaker :=
  {| config := config mm; tick_size := tick_size mm; inventory := inventory mm;
     cash := cash mm; initial_cash := initial_cash mm;
     avg_entry_price := avg_entry_price mm; realized_pnl := realized_pnl mm;
     active_order_ids := ids; fills := fills mm |}.

(** Python's [min(a, b)] and [max(a, b)]: the first argument wins a tie. *)
Definition py_min (a b : Qc) : Qc := if bool_decide (b < a)%Qc then b else a.
Definition py_max (a b : Qc) : Qc := if bool_decide (a < b)%Qc then b else a.

Section MarketMakerArith.
Context {A : Arith}.

Definition _round_to_tick (mm : MarketMaker) (value : Qc) : outcome Qc :=
  r ← py_div value (tick_size mm);
  Return (py_round_ndigits (of_int (py_round r) * tick_size mm)%F 10).

(** The prices of [make_quotes] after the clamp on the book, before the
    test for a collapsed pair. *)
Definition clamped_prices (mm : MarketMaker) (mid : Qc) (bb ba : option Qc)
    : outcome (Qc * Qc) :=
  let half_spread := (of_int (half_spread_ticks (config mm)) * tick_size mm)%F in
  let skew := (inventory_skew (config mm) * of_int (inventory mm))%F in
  bid_price ← _round_to_tick mm ((mid - half_spread) - skew)%F;
  ask_price ← _round_to_tick mm ((mid + half_spread) - skew)%F;
  bid_price ← match ba with
              | Some a => r ← _round_to_tick mm (a - tick_size mm)%F;
                          Return (py_min bid_price r)
              | None => Return bid_price
              end;
  ask_price ← match bb with
              | Some b => r ← _round_to_tick mm (b + tick_size mm)%F;
                          Return (py_max ask_price r)
              | None => Return ask_price
              end;
  Return (bid_price, ask_price).

(** The two prices of [make_quotes], before the orders are built. *)
Definition quote_prices (mm : MarketMaker) (mid : Qc) (bb ba : option Qc)
    : outcome (Qc * Qc) :=
  '(bid_price, ask_price) ← clamped_prices mm mid bb ba;
  if bool_decide (ask_price <= bid_price)%Qc then
    bid_price ← _round_to_tick mm (mid - tick_size mm)%F;
    ask_price ← _round_to_tick mm (mid + tick_size mm)%F;
    Return (bid_price, ask_price)
  else Return (bid_price, ask_price).

Definition make_quotes (mm : MarketMaker) (ts mid : Qc) (bb ba : option Qc)
    (factory : OrderFactory) : outcome (list Order * OrderFactory) :=
  '(bid_price, ask_price) ← quote_prices mm mid bb ba;
  let '(r1, factory) := factory_limit factory ts BID bid_price (quote_qty (config mm)) "MM" in
  bid_order ← r1;
  let '(r2, factory) := factory_limit factory ts ASK ask_price (quote_qty (config mm)) "MM" in
  ask_order ← r2;
  Return ([bid_order; ask_order], factory).

Definition unrealized_pnl (mm : MarketMaker) (mid : Qc) : Qc :=
  if bool_decide (inventory mm = 0) then fl (Q2Qc 0)
  else if bool_decide (0 < inventory mm) then
    ((mid - avg_entry_price mm) * of_int (inventory mm))%F
  else ((avg_entry_price mm - mid) * of_int (Z.abs (inventory mm)))%F.

Definition total_pnl (mm : MarketMaker) (mid : Qc) : Qc :=
  (realized_pnl mm + unrealized_pnl mm mid)%F.

Definition mark_to_market (mm : MarketMaker) (mid : Qc) : Qc :=
  ((cash mm + of_int (inventory mm) * mid) - initial_cash mm)%F.

Definition _update_position (mm : MarketMaker) (trade_sign q : Z) (p : Qc)
    : outcome MarketMaker :=
  if bool_decide (inventory mm = 0) then
    Return (set_position mm (trade_sign * q) p (realized_pnl mm))
  else if bool_decide (0 < inventory mm * trade_sign) then
    let current_abs := Z.abs (inventory mm) in
    let new_abs := current_abs + q in
    avg ← py_div ((avg_entry_price mm * of_int current_abs) + (p * of_int q))%F
                 (of_int new_abs);
    Return (set_position mm (inventory mm + trade_sign * q) avg (realized_pnl mm))
  else
    let close_qty := Z.min (Z.abs (inventory mm)) q in
    let realized :=
      if bool_decide (0 < inventory mm)
      then (realized_pnl mm + (p - avg_entry_price mm) * of_int close_qty)%F
      else (realized_pnl mm + (avg_entry_price mm - p) * of_int close_qty)%F in
    let inv := inventory mm + trade_sign * close_qty in
    let remaining := q - close_qty in
    let avg := if bool_decide (inv = 0) then fl (Q2Qc 0) else avg_entry_price mm in
    if bool_decide (0 < remaining)
    then Return (set_position mm (trade_sign * remaining) p realized)
    else Return (set_position mm inv avg realized).

Definition _apply_fill (mm : MarketMaker) (s : Side) (p : Qc) (q : Z)
    : outcome MarketMaker :=
  let trade_sign := match s with BID => 1 | ASK => -1 end in
  let cash_delta := match s with
                    | BID => ((- p)%Qc * of_int q)%F
                    | ASK => (p * of_int q)%F
                    end in
  let mm := set_cash mm (cash mm + cash_delta)%F in
  mm ← _update_position mm trade_sign q p;
  Return (set_fills mm (fills mm ++
            [{| fill_timestamp := None; fill_side := s; fill_mm_side := trade_sign;
                fill_price := p; fill_qty := q |}])).

Definition on_trade (mm : MarketMaker) (t : Trade) : outcome MarketMaker :=
  if bool_decide (taker_owner t = "MM") then
    _apply_fill mm (taker_side t) (trade_price t) (trade_qty t)
  else if bool_decide (maker_owner t = "MM") then
    _apply_fill mm (opposite (taker_side t)) (trade_price t) (trade_qty t)
  else Return mm.

(** A sequence of [on_trade] calls. *)
Fixpoint on_trades (mm : MarketMaker) (trades : list Trade) : outcome MarketMaker :=
  match trades with
  | [] => Return mm
  | t :: rest => mm ← on_trade mm t; on_trades mm rest
  end.

End MarketMakerArith.

(** The tick is a whole number of 1e-10, the precision of [_round_to_tick]. *)
Definition tick_on_grid (tick : Qc) : Prop :=
  exists n : Z, 0 < n /\ tick = (Qc_of_Z n / pow10 10)%Qc.

(** The price is a whole number of ticks. *)
Definition on_tick (tick p : Qc) : Prop :=
  exists k : Z, p = (Qc_of_Z k * tick)%Qc.

(** The books of the agent balance: what it has paid for the position it
    holds is its cash outflow net of the profit it has realized. *)
Definition reconciled (mm : MarketMaker) : Prop :=
  (cash mm - initial_cash mm + avg_entry_price mm * Qc_of_Z (inventory mm)
   = realized_pnl mm)%Qc.

(** [_round_to_tick] in exact arithmetic when the tick is on the 1e-10
    grid: the nearest whole number of ticks. *)
Definition round_tick (tick v : Qc) : Qc :=
  (Qc_of_Z (py_round (v / tick)) * tick)%Qc.

(** * sim/arrivals.py, sim/events.py, sim/engine.py *)

Record OrderFlowConfig : Type := mkFlowConfig {
  limit_rate : Qc;
  market_rate : Qc;
  cancel_rate : Qc;
  imbalance : Qc;
  limit_levels : Z;
  limit_qty_min : Z;
  limit_qty_max : Z;
  market_qty_min : Z;
  market_qty_max : Z;
  marketable_limit_prob : Qc;
  informed_market_bias : Qc;
  trend_flip_prob : Qc;
  p_informed : Qc;
  informed_qty_mult : Qc;
  signal_flip_prob : Qc;
  toxic_move_delay : Qc;
  toxic_jump_ticks : Z;
  toxic_impact_fraction : Qc;
  fundamental_rate : Qc;
  fundamental_jump_ticks : Z;
  slow_adapt_prob : Qc;
  slow_adapt_max_qty : Z
}.

(** The fields [tick_size] and [market_maker] of the Python class carry the
    prefix [cfg_] here: the names are taken by the agent and the simulator. *)
Record SimulatorConfig : Type := mkSimConfig {
  seed : Z;
  end_time : Qc;
  base_price : Qc;
  cfg_tick_size : Qc;
  mm_update_rate : Qc;
  mm_update_every_k_events : Z;
  environment_mode : string;
  adverse_horizon : Qc;
  initial_depth_levels : Z;
  initial_depth_qty : Z;
  flow : OrderFlowConfig;
  cfg_market_maker : MarketMakerConfig
}.

Inductive EventType : Set :=
  | LIMIT_ARRIVAL | MARKET_ARRIVAL | CANCEL_ARRIVAL
  | MM_QUOTE_UPDATE | TOXIC_MOVE | FUNDAMENTAL_MOVE.

(** [event_type.value] *)
Definition EventType_value (t : EventType) : string :=
  match t with
  | LIMIT_ARRIVAL => "LIMIT_ARRIVAL"
  | MARKET_ARRIVAL => "MARKET_ARRIVAL"
  | CANCEL_ARRIVAL => "CANCEL_ARRIVAL"
  | MM_QUOTE_UPDATE => "MM_QUOTE_UPDATE"
  | TOXIC_MOVE => "TOXIC_MOVE"
  | FUNDAMENTAL_MOVE => "FUNDAMENTAL_MOVE"
  end.

(** The payload of an event: a dict with the keys ["source"], ["signal"] and
    ["jump_ticks"], each present or not. *)
Record Payload : Type := mkPayload {
  source : option string;
  signal : option Z;
  jump_ticks : option Z
}.

Definition no_payload : Payload :=
  {| source := None; signal := None; jump_ticks := None |}.

Record Event : Type := mkEvent {
  ev_timestamp : Qc;
  ev_seq : Z;
  event_type : EventType;
  payload : Payload
}.

(** The order of [Event]: by [(timestamp, seq)]. *)
Definition Event_lt (e1 e2 : Event) : bool :=
  bool_decide (ev_timestamp e1 < ev_timestamp e2)%Qc
  || (bool_decide (ev_timestamp e1 = ev_timestamp e2) && bool_decide (ev_seq e1 < ev_seq e2)).

(** [heapq.heappush] and [heapq.heappop], by their contract: [heappop]
    returns the least event.  The heap is kept as the ascending list of its
    events; the engine numbers the events, so no two compare equal and the
    list is determined by the events it holds. *)
Fixpoint heappush (h : list Event) (e : Event) : list Event :=
  match h with
  | [] => [e]
  | e' :: h' => if Event_lt e e' then e :: e' :: h' else e' :: heappush h' e
  end.

Definition heappop (h : list Event) : option (Event * list Event) :=
  match h with
  | [] => None
  | e :: h' => Some (e, h')
  end.

(** One row of [snapshots]. *)
Record Snapshot : Type := mkSnapshot {
  snap_timestamp : Qc;
  snap_event_type : string;
  event_idx : Z;
  snap_best_bid : option Qc;
  snap_best_ask : option Qc;
  snap_mid_price : Qc;
  fundamental_price : Qc;
  fundamental_gap : Qc;
  snap_spread : option Qc;
  top_bid_depth : Z;
  top_ask_depth : Z;
  mm_inventory : Z;
  mm_cash : Qc;
  mm_realized_pnl : Qc;
  mm_unrealized_pnl : Qc;
  mm_pnl : Qc;
  mm_mtm_pnl : Qc;
  events_since_mm_refresh : Z
}.

(** What [run] returns.  The rows of ["trades"] are the trades field by
    field, and ["mm_fills"] is the agent's fill log. *)
Record RunResult : Type := mkRunResult {
  out_snapshots : list Snapshot;
  out_trades : list Trade;
  out_mm_fills : list Fill;
  out_config : SimulatorConfig
}.

(** [numpy.random.Generator], as far as the simulator uses it: every draw
    returns a value and the next state of the generator.  [integers low high]
    raises [ValueError] when the range is empty. *)
Class Generator (G : Type) : Type := {
  default_rng : Z -> G;
  random : G -> Qc * G;
  exponential : Qc -> G -> Qc * G;
  integers : Z -> Z -> G -> outcome (Z * G);
  choice : list string -> G -> string * G
}.

(** The simulator.  The flow model shares the generator of the simulator and
    reads its configuration from [flow (sim_config s)]; its two own fields,
    [_trend] and [_signal], are kept here. *)
Record EventDrivenSimulator (G : Type) : Type := mkSim {
  sim_config : SimulatorConfig;
  rng : G;
  book : LimitOrderBook;
  factory : OrderFactory;
  _trend : Z;
  _signal : Z;
  market_maker : MarketMaker;
  now : Qc;
  _seq : Z;
  _events : list Event;
  _event_count : Z;
  _last_mm_refresh_event : Z;
  trades : list Trade;
  snapshots : list Snapshot;
  _last_mid : Qc;
  _fundamental_price : Qc
}.
Arguments sim_config {G} _.
Arguments rng {G} _.
Arguments book {G} _.
Arguments factory {G} _.
Arguments _trend {G} _.
Arguments _signal {G} _.
Arguments market_maker {G} _.
Arguments now {G} _.
Arguments _seq {G} _.
Arguments _events {G} _.
Arguments _event_count {G} _.
Arguments _last_mm_refresh_event {G} _.
Arguments trades {G} _.
Arguments snapshots {G} _.
Arguments _last_mid {G} _.
Arguments _fundamental_price {G} _.
Arguments mkSim {G}.

Definition set_rng {G} (s : EventDrivenSimulator G) (x : G) : EventDrivenSimulator G :=
  {| sim_config := sim_config s; rng := x; book := book s; factory := factory s;
     _trend := _trend s; _signal := _signal s; market_maker := market_maker s;
     now := now s; _seq := _seq s; _events := _events s;
     _event_count := _event_count s;
     _last_mm_refresh_event := _last_mm_refresh_event s; trades := trades s;
     snapshots := snapshots s; _last_mid := _last_mid s;
     _fundamental_price := _fundamental_price s |}.

Definition set_book {G} (s : EventDrivenSimulator G) (x : LimitOrderBook) : EventDrivenSimulator G :=
  {| sim_config := sim_config s; rng := rng s; book := x; factory := factory s;
     _trend := _trend s; _signal := _signal s; market_maker := market_maker s;
     now := now s; _seq := _seq s; _events := _events s;
     _event_count := _event_count s;
     _last_mm_refresh_event := _last_mm_refresh_event s; trades := trades s;
     snapshots := snapshots s; _last_mid := _last_mid s;
     _fundamental_price := _fundamental_price s |}.

Definition set_factory {G} (s : EventDrivenSimulator G) (x : OrderFactory) : EventDrivenSimulator G :=
  {| sim_config := sim_config s; rng := rng s; book := book s; factory := x;
     _trend := _trend s; _signal := _signal s; market_maker := market_maker s;
     now := now s; _seq := _seq s; _events := _events s;
     _event_count := _event_count s;
     _last_mm_refresh_event := _last_mm_refresh_event s; trades := trades s;
     snapshots := snapshots s; _last_mid := _last_mid s;
     _fundamental_price := _fundamental_price s |}.

Definition set_trend {G} (s : EventDrivenSimulator G) (x : Z) : EventDrivenSimulator G :=
  {| sim_config := sim_config s; rng := rng s; book := book s; factory := factory s;
     _trend := x; _signal := _signal s; market_maker := market_maker s; now := now s;
     _seq := _seq s; _events := _events s; _event_count := _event_count s;
     _last_mm_refresh_event := _last_mm_refresh_event s; trades := trades s;
     snapshots := snapshots s; _last_mid := _last_mid s;
     _fundamental_price := _fundamental_price s |}.

Definition set_signal {G} (s : EventDrivenSimulator G) (x : Z) : EventDrivenSimulator G :=
  {| sim_config := sim_config s; rng := rng s; book := book s; factory := factory s;
     _trend := _trend s; _signal := x; market_maker := market_maker s; now := now s;
     _seq := _seq s; _events := _events s; _event_count := _event_count s;
     _last_mm_refresh_event := _last_mm_refresh_event s; trades := trades s;
     snapshots := snapshots s; _last_mid := _last_mid s;
     _fundamental_price := _fundamental_price s |}.

Definition set_market_maker {G} (s : EventDrivenSimulator G) (x : MarketMaker) : EventDrivenSimulator G :=
  {| sim_config := sim_config s; rng := rng s; book := book s; factory := factory s;
     _trend := _trend s; _signal := _signal s; market_maker := x; now := now s;
     _seq := _seq s; _events := _events s; _event_count := _event_count s;
     _last_mm_refresh_event := _last_mm_refresh_event s; trades := trades s;
     snapshots := snapshots s; _last_mid := _last_mid s;
     _fundamental_price := _fundamental_price s |}.

Definition set_now {G} (s : EventDrivenSimulator G) (x : Qc) : EventDrivenSimulator G :=
  {| sim_config := sim_config s; rng := rng s; book := book s; factory := factory s;
     _trend := _trend s; _signal := _signal s; market_maker := market_maker s;
     now := x; _seq := _seq s; _events := _events s; _event_count := _event_count s;
     _last_mm_refresh_event := _last_mm_refresh_event s; trades := trades s;
     snapshots := snapshots s; _last_mid := _last_mid s;
     _fundamental_price := _fundamental_price s |}.

Definition set_seq {G} (s : EventDrivenSimulator G) (x : Z) : EventDrivenSimulator G :=
  {| sim_config := sim_config s; rng := rng s; book := book s; factory := factory s;
     _trend := _trend s; _signal := _signal s; market_maker := market_maker s;
     now := now s; _seq := x; _events := _events s; _event_count := _event_count s;
     _last_mm_refresh_event := _last_mm_refresh_event s; trades := trades s;
     snapshots := snapshots s; _last_mid := _last_mid s;
     _fundamental_price := _fundamental_price s |}.

Definition set_events {G} (s : EventDrivenSimulator G) (x : list Event) : EventDrivenSimulator G :=
  {| sim_config := sim_config s; rng := rng s; book := book s; factory := factory s;
     _trend := _trend s; _signal := _signal s; market_maker := market_maker s;
     now := now s; _seq := _seq s; _events := x; _event_count := _event_count s;
     _last_mm_refresh_event := _last_mm_refresh_event s; trades := trades s;
     snapshots := snapshots s; _last_mid := _last_mid s;
     _fundamental_price := _fundamental_price s |}.

Definition set_event_count {G} (s : EventDrivenSimulator G) (x : Z) : EventDrivenSimulator G :=
  {| sim_config := sim_config s; rng := rng s; book := book s; factory := factory s;
     _trend := _trend s; _signal := _signal s; market_maker := market_maker s;
     now := now s; _seq := _seq s; _events := _events s; _event_count := x;
     _last_mm_refresh_event := _last_mm_refresh_event s; trades := trades s;
     snapshots := snapshots s; _last_mid := _last_mid s;
     _fundamental_price := _fundamental_price s |}.

Definition set_last_mm_refresh_event {G} (s : EventDrivenSimulator G) (x : Z) : EventDrivenSimulator G :=
  {| sim_config := sim_config s; rng := rng s; book := book s; factory := factory s;
     _trend := _trend s; _signal := _signal s; market_maker := market_maker s;
     now := now s; _seq := _seq s; _events := _events s;
     _event_count := _event_count s; _last_mm_refresh_event := x; trades := trades s;
     snapshots := snapshots s; _last_mid := _last_mid s;
     _fundamental_price := _fundamental_price s |}.

Definition set_trades {G} (s : EventDrivenSimulator G) (x : list Trade) : EventDrivenSimulator G :=
  {| sim_config := sim_config s; rng := rng s; book := book s; factory := factory s;
     _trend := _trend s; _signal := _signal s; market_maker := market_maker s;
     now := now s; _seq := _seq s; _events := _events s;
     _event_count := _event_count s;
     _last_mm_refresh_event := _last_mm_refresh_event s; trades := x;
     snapshots := snapshots s; _last_mid := _last_mid s;
     _fundamental_price := _fundamental_price s |}.

Definition set_snapshots {G} (s : EventDrivenSimulator G) (x : list Snapshot) : EventDrivenSimulator G :=
  {| sim_config := sim_config s; rng := rng s; book := book s; factory := factory s;
     _trend := _trend s; _signal := _signal s; market_maker := market_maker s;
     now := now s; _seq := _seq s; _events := _events s;
     _event_count := _event_count s;
     _last_mm_refresh_event := _last_mm_refresh_event s; trades := trades s;
     snapshots := x; _last_mid := _last_mid s;
     _fundamental_price := _fundamental_price s |}.

Definition set_last_mid {G} (s : EventDrivenSimulator G) (x : Qc) : EventDrivenSimulator G :=
  {| sim_config := sim_config s; rng := rng s; book := book s; factory := factory s;
     _trend := _trend s; _signal := _signal s; market_maker := market_maker s;
     now := now s; _seq := _seq s; _events := _events s;
     _event_count := _event_count s;
     _last_mm_refresh_event := _last_mm_refresh_event s; trades := trades s;
     snapshots := snapshots s; _last_mid := x;
     _fundamental_price := _fundamental_price s |}.

Definition set_fundamental_price {G} (s : EventDrivenSimulator G) (x : Qc) : EventDrivenSimulator G :=
  {| sim_config := sim_config s; rng := rng s; book := book s; factory := factory s;
     _trend := _trend s; _signal := _signal s; market_maker := market_maker s;
     now := now s; _seq := _seq s; _events := _events s;
     _event_count := _event_count s;
     _last_mm_refresh_event := _last_mm_refresh_event s; trades := trades s;
     snapshots := snapshots s; _last_mid := _last_mid s; _fundamental_price := x |}.

(** A concrete generator for running the simulator: the state is the list
    of the numbers still to be drawn, each in [0, 1); a draw takes the first
    one (0 when the list is exhausted) and scales it to the range asked for. *)
Definition script_next (g : list Qc) : Qc * list Qc :=
  match g with
  | [] => (Q2Qc 0, [])
  | u :: g' => (u, g')
  end.

Definition script_default_rng (script : Z -> list Qc) (seed : Z) : list Qc := script seed.

Definition script_exponential (scale : Qc) (g : list Qc) : Qc * list Qc :=
  let '(u, g') := script_next g in ((scale * u)%Qc, g').

Definition script_integers (low high : Z) (g : list Qc) : outcome (Z * list Qc) :=
  if bool_decide (high <= low) then Raise ValueError
  else let '(u, g') := script_next g in
       Return (low + Qfloor (u * Qc_of_Z (high - low))%Qc, g').

Definition script_choice (l : list string) (g : list Qc) : string * list Qc :=
  let '(u, g') := script_next g in
  (default EmptyString (l !! Z.to_nat (Qfloor (u * Qc_of_Z (Z.of_nat (length l)))%Qc)), g').

Definition script_generator (script : Z -> list Qc) : Generator (list Qc) :=
  {| default_rng := script_default_rng script;
     random := script_next;
     exponential := script_exponential;
     integers := script_integers;
     choice := script_choice |}.

(** ** The state and error monad of the simulator's methods *)

Definition M (G A : Type) : Type :=
  EventDrivenSimulator G -> outcome (A * EventDrivenSimulator G).

#[global] Instance M_ret {G} : MRet (M G) := fun A a s => Return (a, s).
#[global] Instance M_bind {G} : MBind (M G) := fun A B f m s =>
  match m s with
  | Return (a, s') => f a s'
  | Raise e => Raise e
  | OutOfFuel => OutOfFuel
  end.

(** Reading a field, assigning to a field, a call that returns or raises,
    and a draw from the generator. *)
Definition gets {G A} (f : EventDrivenSimulator G -> A) : M G A :=
  fun s => Return (f s, s).

Definition modify {G} (f : EventDrivenSimulator G -> EventDrivenSimulator G) : M G unit :=
  fun s => Return (tt, f s).

Definition lift {G A} (o : outcome A) : M G A :=
  fun s => match o with
           | Return a => Return (a, s)
           | Raise e => Raise e
           | OutOfFuel => OutOfFuel
           end.

Definition draw {G A} (f : G -> A * G) : M G A :=
  fun s => let '(a, g) := f (rng s) in Return (a, set_rng s g).

Definition draw_or_raise {G A} (f : G -> outcome (A * G)) : M G A :=
  fun s => match f (rng s) with
           | Return (a, g) => Return (a, set_rng s g)
           | Raise e => Raise e
           | OutOfFuel => OutOfFuel
           end.

Definition out_of_fuel {G A} : M G A := fun _ => OutOfFuel.

(** [for x in l: body(x)] *)
Fixpoint for_each {G X} (l : list X) (body : X -> M G unit) : M G unit :=
  match l with
  | [] => mret tt
  | x :: l' => body x ;; for_each l' body
  end.

(** [numpy.clip(x, lo, hi)], and Python's [abs] and [a or b] on floats. *)
Definition np_clip (x lo hi : Qc) : Qc := py_min (py_max x lo) hi.

Definition py_abs (x : Qc) : Qc := if bool_decide (x < Q2Qc 0)%Qc then (- x)%Qc else x.

Definition py_or (m : option Qc) (d : Qc) : Qc :=
  match m with
  | Some x => if bool_decide (x = Q2Qc 0) then d else x
  | None => d
  end.

Section Engine.
Context {A : Arith} {G : Type} {gen : Generator G}.

(** The order in which [list(s)] enumerates a set of strings.  It depends
    on the hashes of the strings, which Python salts anew in every process. *)
Variable set_iter : gset string -> list string.

(** *** sim/arrivals.py: [OrderFlowModel] *)

Definition next_time (current_time rate : Qc) : M G (option Qc) :=
  if bool_decide (rate <= Q2Qc 0)%Qc then mret None
  else x ← draw (exponential (fl (Q2Qc 1) / rate)%F);
       mret (Some (current_time + x)%F).

Definition flip_trend : M G unit :=
  modify (fun s => set_trend s (_trend s * -1)).

Definition sample_side (is_market : bool) : M G Side :=
  cfg ← gets (fun s => flow (sim_config s));
  let imb := py_max (fl (Q2Qc (-1))) (py_min (fl (Q2Qc 1)) (imbalance cfg)) in
  let p_buy := (fl (dec 1 2) + fl (dec 1 2) * imb)%F in
  p_buy ← (if is_market && bool_decide (Q2Qc 0 < informed_market_bias cfg)%Qc then
             u ← draw random;
             (if bool_decide (u < trend_flip_prob cfg)%Qc then flip_trend else mret tt) ;;
             t ← gets _trend;
             mret (p_buy + informed_market_bias cfg * of_int t)%F
           else mret p_buy);
  let p_buy := np_clip p_buy (fl (dec 1 100)) (fl (dec 99 100)) in
  u ← draw random;
  mret (if bool_decide (u < p_buy)%Qc then BID else ASK).

Definition _sample_qty (low high : Z) : M G Z :=
  draw_or_raise (integers low (high + 1)).

(** The static method of the flow model, the same formula as the agent's. *)
Definition flow_round_to_tick (value tick : Qc) : outcome Qc :=
  r ← py_div value tick;
  Return (py_round_ndigits (of_int (py_round r) * tick)%F 10).

Definition sample_limit (mid tick : Qc) : M G (Side * Qc * Z) :=
  cfg ← gets (fun s => flow (sim_config s));
  s ← sample_side false;
  q ← _sample_qty (limit_qty_min cfg) (limit_qty_max cfg);
  passive_level ← draw_or_raise (integers 1 (limit_levels cfg + 1));
  u ← draw random;
  let p :=
    match s with
    | BID => if bool_decide (u < marketable_limit_prob cfg)%Qc then (mid + tick)%F
             else (mid - of_int passive_level * tick)%F
    | ASK => if bool_decide (u < marketable_limit_prob cfg)%Qc then (mid - tick)%F
             else (mid + of_int passive_level * tick)%F
    end in
  p ← lift (flow_round_to_tick p tick);
  mret (s, p, q).

Definition sample_market : M G (Side * Z) :=
  cfg ← gets (fun s => flow (sim_config s));
  s ← sample_side true;
  q ← _sample_qty (market_qty_min cfg) (market_qty_max cfg);
  mret (s, q).

Definition should_send_informed : M G bool :=
  cfg ← gets (fun s => flow (sim_config s));
  let p := np_clip (p_informed cfg) (fl (Q2Qc 0)) (fl (Q2Qc 1)) in
  u ← draw random;
  mret (bool_decide (u < p)%Qc).

Definition sample_signal : M G Z :=
  cfg ← gets (fun s => flow (sim_config s));
  u ← draw random;
  (if bool_decide (u < signal_flip_prob cfg)%Qc
   then modify (fun s => set_signal s (_signal s * -1)) else mret tt) ;;
  gets _signal.

Definition sample_informed_market : M G (Side * Z * Z) :=
  cfg ← gets (fun s => flow (sim_config s));
  sg ← sample_signal;
  let s := if bool_decide (0 < sg) then BID else ASK in
  base_qty ← _sample_qty (market_qty_min cfg) (market_qty_max cfg);
  let q := Z.max 1 (py_round (of_int base_qty * informed_qty_mult cfg)%F) in
  mret (s, q, sg).

Definition sample_exogenous_signal : M G Z :=
  u ← draw random;
  mret (if bool_decide (u < fl (dec 1 2))%Qc then 1 else -1).

(** *** sim/engine.py: [EventDrivenSimulator] *)

(** [_schedule]: a time that is not finite ([None]) schedules nothing. *)
Definition _schedule (t : EventType) (ts : option Qc) (pl : Payload) : M G unit :=
  match ts with
  | None => mret tt
  | Some ts =>
      modify (fun s =>
        set_seq
          (set_events s
             (heappush (_events s)
                {| ev_timestamp := ts; ev_seq := _seq s; event_type := t; payload := pl |}))
          (_seq s + 1))
  end.

(** [self.market_maker.fills[-1]["timestamp"] = ts] *)
Definition set_fill_timestamp (ts : Qc) (f : Fill) : Fill :=
  {| fill_timestamp := Some ts; fill_side := fill_side f; fill_mm_side := fill_mm_side f;
     fill_price := fill_price f; fill_qty := fill_qty f |}.

Definition stamp_last_fill (mm : MarketMaker) (ts : Qc) : MarketMaker :=
  set_fills mm (alter (set_fill_timestamp ts) (pred (length (fills mm))) (fills mm)).

(** The body of the loop of [_process_trades]. *)
Definition process_trade (t : Trade) : M G unit :=
  mm ← gets market_maker;
  mm' ← lift (on_trade mm t);
  modify (fun s =>
    set_market_maker s
      (if bool_decide (length (fills mm) < length (fills mm'))%nat
       then stamp_last_fill mm' (trade_timestamp t) else mm')).

Definition _process_trades (ts : list Trade) : M G unit :=
  match ts with
  | [] => mret tt
  | _ => modify (fun s => set_trades s (trades s ++ ts)) ;; for_each ts process_trade
  end.

(** [self._process_trades(self.book.add_order(order))]; the result is the
    order as [add_order] has left it. *)
Definition submit (o : Order) : M G Order :=
  b ← gets book;
  '(ts, b', o') ← lift (add_order b o);
  modify (fun s => set_book s b') ;;
  _process_trades ts ;;
  mret o'.

(** [self.factory.limit(...)] and [self.factory.market(...)]: the counter
    advances before the constructor of the order can raise. *)
Definition new_limit (ts : Qc) (s : Side) (p : Qc) (q : Z) (ow : string) : M G Order :=
  f ← gets factory;
  let '(r, f') := factory_limit f ts s p q ow in
  modify (fun s => set_factory s f') ;; lift r.

Definition new_market (ts : Qc) (s : Side) (q : Z) (ow : string) : M G Order :=
  f ← gets factory;
  let '(r, f') := factory_market f ts s q ow in
  modify (fun s => set_factory s f') ;; lift r.

(** The body of the loop of [_seed_book]. *)
Definition seed_level (level : Z) : M G unit :=
  cfg ← gets sim_config;
  let bid_price := py_round_ndigits (base_price cfg - of_int level * cfg_tick_size cfg)%F 10 in
  let ask_price := py_round_ndigits (base_price cfg + of_int level * cfg_tick_size cfg)%F 10 in
  bid_order ← new_limit (fl (Q2Qc 0)) BID bid_price (initial_depth_qty cfg) "FLOW";
  ask_order ← new_limit (fl (Q2Qc 0)) ASK ask_price (initial_depth_qty cfg) "FLOW";
  submit bid_order ;;
  submit ask_order ;;
  mret tt.

(** [range(1, n + 1)] *)
Definition range1 (n : Z) : list Z := Z.of_nat <$> seq 1 (Z.to_nat n).

Definition _seed_book : M G unit :=
  cfg ← gets sim_config;
  for_each (range1 (initial_depth_levels cfg)) seed_level.

Definition _schedule_next_exogenous_fundamental_move : M G unit :=
  cfg ← gets sim_config;
  ts ← gets now;
  t ← next_time ts (fundamental_rate (flow cfg));
  match t with
  | None => mret tt
  | Some _ =>
      sg ← sample_exogenous_signal;
      _schedule FUNDAMENTAL_MOVE t
        {| source := Some "exogenous"; signal := Some sg;
           jump_ticks := Some (Z.max 1 (fundamental_jump_ticks (flow cfg))) |}
  end.

Definition _schedule_initial_events : M G unit :=
  cfg ← gets sim_config;
  t ← next_time (fl (Q2Qc 0)) (limit_rate (flow cfg));
  _schedule LIMIT_ARRIVAL t no_payload ;;
  t ← next_time (fl (Q2Qc 0)) (market_rate (flow cfg));
  _schedule MARKET_ARRIVAL t no_payload ;;
  t ← next_time (fl (Q2Qc 0)) (cancel_rate (flow cfg));
  _schedule CANCEL_ARRIVAL t no_payload ;;
  (if bool_decide (mm_update_every_k_events cfg <= 0) then
     t ← next_time (fl (Q2Qc 0)) (mm_update_rate cfg);
     _schedule MM_QUOTE_UPDATE t no_payload
   else mret tt) ;;
  _schedule_next_exogenous_fundamental_move.

(** [self.book.mid_price() or self._last_mid] *)
Definition current_mid : M G Qc :=
  b ← gets book;
  lm ← gets _last_mid;
  mret (py_or (mid_price b) lm).

Definition _handle_limit_arrival : M G unit :=
  cfg ← gets sim_config;
  mid ← current_mid;
  '(s, p, q) ← sample_limit mid (cfg_tick_size cfg);
  ts ← gets now;
  order ← new_limit ts s p q "FLOW";
  submit order ;; mret tt.

Definition _handle_market_arrival : M G unit :=
  cfg ← gets sim_config;
  informed ← should_send_informed;
  '(s, q, ow) ←
    (if informed : bool then
       '(s, q, sg) ← sample_informed_market;
       let delay := py_max (fl (Q2Qc 0)) (toxic_move_delay (flow cfg)) in
       ts ← gets now;
       _schedule FUNDAMENTAL_MOVE (Some (ts + delay)%F)
         {| source := Some "informed"; signal := Some sg;
            jump_ticks := Some (Z.max 1 (toxic_jump_ticks (flow cfg))) |} ;;
       mret (s, q, "INFORMED")
     else
       '(s, q) ← sample_market;
       mret (s, q, "FLOW"));
  ts ← gets now;
  order ← new_market ts s q ow;
  submit order ;; mret tt.

Definition _handle_cancel_arrival : M G unit :=
  b ← gets book;
  match open_orders b (Some "FLOW") with
  | [] => mret tt
  | candidates =>
      cancel_id ← draw (choice candidates);
      modify (fun s => set_book s (cancel (book s) cancel_id).2)
  end.

(** The body of the second loop of [_handle_mm_quote_update]. *)
Definition place_quote (quote : Order) : M G unit :=
  quote' ← submit quote;
  if bool_decide (0 < qty quote') then
    modify (fun s =>
      set_market_maker s
        (set_active_order_ids (market_maker s)
           ({[ order_id quote' ]} ∪ active_order_ids (market_maker s))))
  else mret tt.

Definition _handle_mm_quote_update : M G unit :=
  mm ← gets market_maker;
  for_each (set_iter (active_order_ids mm))
    (fun oid => modify (fun s => set_book s (cancel (book s) oid).2)) ;;
  modify (fun s => set_market_maker s (set_active_order_ids (market_maker s) ∅)) ;;
  mid ← current_mid;
  mm ← gets market_maker;
  ts ← gets now;
  b ← gets book;
  f ← gets factory;
  '(quotes, f') ← lift (make_quotes mm ts mid (best_bid b) (best_ask b) f);
  modify (fun s => set_factory s f') ;;
  for_each quotes place_quote ;;
  modify (fun s => set_last_mm_refresh_event s (_event_count s)).

(** The two loops of [_qty_to_force_jump]: the quantity of the levels, from
    the best one, whose price passes the test. *)
Fixpoint depth_while (test : Qc -> bool) (levels : gmap Qc (list Order))
    (prices : list Qc) (acc : Z) : outcome Z :=
  match prices with
  | [] => Return acc
  | p :: rest =>
      if test p then
        match levels !! p with
        | Some queue => depth_while test levels rest (acc + sum_qty queue)
        | None => Raise KeyError
        end
      else Return acc
  end.

Definition _qty_to_force_jump (sg jt : Z) : M G Z :=
  cfg ← gets sim_config;
  b ← gets book;
  let tick := cfg_tick_size cfg in
  if bool_decide (0 < sg) then
    match best_ask b with
    | None => mret 0
    | Some ba =>
        let target := py_round_ndigits (ba + of_int jt * tick)%F 10 in
        lift (depth_while (fun p => bool_decide (p < target)%Qc) (_asks b) (_ask_prices b) 0)
    end
  else
    match best_bid b with
    | None => mret 0
    | Some bb =>
        let target := py_round_ndigits (bb - of_int jt * tick)%F 10 in
        lift (depth_while (fun p => bool_decide (target < p)%Qc) (_bids b)
                (reverse (_bid_prices b)) 0)
    end.

Definition _apply_immediate_fundamental_impact (sg jt : Z) (src : string) : M G unit :=
  cfg ← gets sim_config;
  base_qty ← _qty_to_force_jump sg jt;
  if bool_decide (base_qty <= 0) then mret tt
  else
    let impact := np_clip (toxic_impact_fraction (flow cfg)) (fl (Q2Qc 0)) (fl (Q2Qc 1)) in
    if bool_decide (impact <= Q2Qc 0)%Qc then mret tt
    else
      let q := Z.max 1 (py_round (of_int base_qty * impact)%F) in
      let q := Z.min base_qty q in
      let s := if bool_decide (0 < sg) then BID else ASK in
      let ow := if bool_decide (src = "informed") then "LATENT_MOVE"
                else "FUNDAMENTAL_IMPACT" in
      ts ← gets now;
      order ← new_market ts s q ow;
      submit order ;; mret tt.

(** The default of [payload.get("signal", ...)] is computed before the
    lookup: the generator is drawn from whether the key is there or not. *)
Definition _handle_fundamental_move (pl : Payload) : M G unit :=
  cfg ← gets sim_config;
  d ← sample_exogenous_signal;
  let sg := default d (signal pl) in
  let sg := if bool_decide (0 <= sg) then 1 else -1 in
  let jt := Z.max 1 (default (fundamental_jump_ticks (flow cfg)) (jump_ticks pl)) in
  let src := default "unknown" (source pl) in
  modify (fun s =>
    set_fundamental_price s
      (py_round_ndigits (_fundamental_price s + of_int (sg * jt) * cfg_tick_size cfg)%F 10)) ;;
  if bool_decide (environment_mode cfg = "v1_control")
  then _apply_immediate_fundamental_impact sg jt src
  else mret tt.

Definition _apply_slow_fundamental_adaptation : M G bool :=
  cfg ← gets sim_config;
  mid ← current_mid;
  fp ← gets _fundamental_price;
  let gap := (fp - mid)%F in
  if bool_decide (py_abs gap < cfg_tick_size cfg)%Qc then mret false
  else
    u ← draw random;
    if bool_decide (np_clip (slow_adapt_prob (flow cfg)) (fl (Q2Qc 0)) (fl (Q2Qc 1)) <= u)%Qc
    then mret false
    else
      let sg := if bool_decide (Q2Qc 0 < gap)%Qc then 1 else -1 in
      let s := if bool_decide (0 < sg) then BID else ASK in
      one_tick_qty ← _qty_to_force_jump sg 1;
      if bool_decide (one_tick_qty <= 0) then mret false
      else
        r ← lift (py_div (py_abs gap) (cfg_tick_size cfg));
        let gap_ticks := Z.max 1 (py_int r) in
        let qty_cap := Z.max 1 (slow_adapt_max_qty (flow cfg)) * Z.min 5 gap_ticks in
        let q := Z.max 1 (Z.min one_tick_qty qty_cap) in
        ts ← gets now;
        order ← new_market ts s q "FUND_ADAPT";
        submit order ;; mret true.

Definition _snapshot (event : string) : M G unit :=
  b ← gets book;
  (match mid_price b with
   | Some m => modify (fun s => set_last_mid s m)
   | None => mret tt
   end) ;;
  mid ← gets _last_mid;
  '(bid_depth, ask_depth) ← lift (top_depth b);
  modify (fun s =>
    let mm := market_maker s in
    set_snapshots s
      (snapshots s ++
       [ {| snap_timestamp := now s; snap_event_type := event;
           event_idx := _event_count s;
           snap_best_bid := best_bid b; snap_best_ask := best_ask b;
           snap_mid_price := mid;
           fundamental_price := _fundamental_price s;
           fundamental_gap := (_fundamental_price s - mid)%F;
           snap_spread := spread b;
           top_bid_depth := bid_depth; top_ask_depth := ask_depth;
           mm_inventory := inventory mm; mm_cash := cash mm;
           mm_realized_pnl := realized_pnl mm;
           mm_unrealized_pnl := unrealized_pnl mm mid;
           mm_pnl := total_pnl mm mid;
           mm_mtm_pnl := mark_to_market mm mid;
           events_since_mm_refresh := _event_count s - _last_mm_refresh_event s |} ])).

(** The branch of the loop of [run] for the type of the event; the result
    tells whether the agent's quotes were refreshed. *)
Definition dispatch (event : Event) : M G bool :=
  cfg ← gets sim_config;
  ts ← gets now;
  match event_type event with
  | LIMIT_ARRIVAL =>
      _handle_limit_arrival ;;
      t ← next_time ts (limit_rate (flow cfg));
      _schedule LIMIT_ARRIVAL t no_payload ;; mret false
  | MARKET_ARRIVAL =>
      _handle_market_arrival ;;
      t ← next_time ts (market_rate (flow cfg));
      _schedule MARKET_ARRIVAL t no_payload ;; mret false
  | CANCEL_ARRIVAL =>
      _handle_cancel_arrival ;;
      t ← next_time ts (cancel_rate (flow cfg));
      _schedule CANCEL_ARRIVAL t no_payload ;; mret false
  | FUNDAMENTAL_MOVE =>
      _handle_fundamental_move (payload event) ;;
      (if bool_decide (source (payload event) = Some "exogenous")
       then _schedule_next_exogenous_fundamental_move else mret tt) ;;
      mret false
  | TOXIC_MOVE =>
      _handle_fundamental_move (payload event) ;; mret false
  | MM_QUOTE_UPDATE =>
      if bool_decide (mm_update_every_k_events cfg <= 0) then
        _handle_mm_quote_update ;;
        t ← next_time ts (mm_update_rate cfg);
        _schedule MM_QUOTE_UPDATE t no_payload ;; mret true
      else mret false
  end.

(** The body of the loop of [run], from [self.now = event.timestamp]. *)
Definition handle_event (event : Event) : M G unit :=
  cfg ← gets sim_config;
  modify (fun s => set_event_count (set_now s (ev_timestamp event)) (_event_count s + 1)) ;;
  mm_refreshed ← dispatch event;
  mm_refreshed ←
    (if bool_decide (0 < mm_update_every_k_events cfg) then
       let k := Z.max 1 (mm_update_every_k_events cfg) in
       n ← gets _event_count;
       if bool_decide (n mod k = 0) then _handle_mm_quote_update ;; mret true
       else mret mm_refreshed
     else mret mm_refreshed);
  adapt_applied ←
    (if bool_decide (environment_mode cfg = "v2_slow_adapt")
     then _apply_slow_fundamental_adaptation else mret false);
  let name := EventType_value (event_type event) in
  let name := if mm_refreshed : bool then name +:+ "|MM_REFRESH" else name in
  let name := if adapt_applied : bool then name +:+ "|FUND_ADAPT" else name in
  _snapshot name.

(** One turn of [while self._events]: [None] when the loop ends, by an
    empty heap or by [break]. *)
Definition loop_turn : M G (option unit) :=
  cfg ← gets sim_config;
  h ← gets _events;
  match heappop h with
  | None => mret None
  | Some (event, h') =>
      modify (fun s => set_events s h') ;;
      if bool_decide (end_time cfg < ev_timestamp event)%Qc then mret None
      else handle_event event ;; mret (Some tt)
  end.

Fixpoint run_loop (fuel : nat) : M G unit :=
  r ← loop_turn;
  match r with
  | None => mret tt
  | Some _ =>
      match fuel with
      | O => out_of_fuel
      | S fuel' => run_loop fuel'
      end
  end.

(** [run], up to the loop. *)
Definition start : M G unit :=
  _seed_book ;;
  _handle_mm_quote_update ;;
  _schedule_initial_events ;;
  _snapshot "INIT".

End Engine.

(** [EventDrivenSimulator(config)]: the constructor of the flow model draws
    twice from the generator. *)
Definition new_simulator {G} {gen : Generator G} (cfg : SimulatorConfig) : EventDrivenSimulator G :=
  let d1 := random (default_rng (seed cfg)) in
  let d2 := random d1.2 in
  {| sim_config := cfg; rng := d2.2; book := empty_book;
     factory := {| prefix := "ORD"; counter := 1 |};
     _trend := if bool_decide (d1.1 < dec 1 2)%Qc then 1 else -1;
     _signal := if bool_decide (d2.1 < dec 1 2)%Qc then 1 else -1;
     market_maker := new_market_maker (cfg_market_maker cfg) (cfg_tick_size cfg);
     now := Q2Qc 0; _seq := 0; _events := []; _event_count := 0;
     _last_mm_refresh_event := 0; trades := []; snapshots := [];
     _last_mid := base_price cfg; _fundamental_price := base_price cfg |}.

Definition result {G} (s : EventDrivenSimulator G) : RunResult :=
  {| out_snapshots := snapshots s; out_trades := trades s;
     out_mm_fills := fills (market_maker s); out_config := sim_config s |}.

Definition run_from {A : Arith} {G} {gen : Generator G} (set_iter : gset string -> list string)
    (fuel : nat) : M G unit :=
  start set_iter ;; run_loop set_iter fuel.

(** [EventDrivenSimulator(config).run()], with fuel for the loop: [fuel]
    events can be handled. *)
Definition run {A : Arith} {G} {gen : Generator G} (set_iter : gset string -> list string)
    (cfg : SimulatorConfig) (fuel : nat) : outcome RunResult :=
  '(_, s) ← run_from set_iter fuel (new_simulator cfg);
  Return (result s).

(** The states of the simulator between two events: at every test of the
    loop of [run]. *)
Inductive between_events {A : Arith} {G} {gen : Generator G}
    (set_iter : gset string -> list string) (cfg : SimulatorConfig)
    : EventDrivenSimulator G -> Prop :=
  | after_start s :
      start set_iter (new_simulator cfg) = Return (tt, s) ->
      between_events set_iter cfg s
  | after_event s s' :
      between_events set_iter cfg s ->
      loop_turn set_iter s = Return (Some tt, s') ->
      between_events set_iter cfg s'.

(** The defaults of the configuration classes; a decimal literal is the
    float nearest to it. *)
Definition default_flow {A : Arith} : OrderFlowConfig :=
  {| limit_rate := fl (Q2Qc 25); market_rate := fl (Q2Qc 12); cancel_rate := fl (Q2Qc 8);
     imbalance := fl (Q2Qc 0); limit_levels := 4; limit_qty_min := 1; limit_qty_max := 6;
     market_qty_min := 1; market_qty_max := 4; marketable_limit_prob := fl (dec 1 10);
     informed_market_bias := fl (Q2Qc 0); trend_flip_prob := fl (dec 2 100);
     p_informed := fl (Q2Qc 0); informed_qty_mult := fl (dec 18 10);
     signal_flip_prob := fl (dec 2 100); toxic_move_delay := fl (dec 5 100);
     toxic_jump_ticks := 1; toxic_impact_fraction := fl (Q2Qc 1);
     fundamental_rate := fl (Q2Qc 0); fundamental_jump_ticks := 1;
     slow_adapt_prob := fl (dec 35 100); slow_adapt_max_qty := 4 |}.

Definition default_market_maker {A : Arith} : MarketMakerConfig :=
  {| half_spread_ticks := 1; quote_qty := 3; inventory_skew := fl (dec 2 1000) |}.

Definition default_config {A : Arith} : SimulatorConfig :=
  {| seed := 7; end_time := fl (Q2Qc 300); base_price := fl (Q2Qc 100);
     cfg_tick_size := fl (dec 1 100); mm_update_rate := fl (Q2Qc 4);
     mm_update_every_k_events := 1; environment_mode := "v1_control";
     adverse_horizon := fl (Q2Qc 1); initial_depth_levels := 3; initial_depth_qty := 20;
     flow := default_flow; cfg_market_maker := default_market_maker |}.

(** The default configuration with other values for three of its fields. *)
Definition configure {A : Arith} (horizon : Qc) (k depth_qty : Z) : SimulatorConfig :=
  {| seed := seed default_config; end_time := horizon;
     base_price := base_price default_config;
     cfg_tick_size := cfg_tick_size default_config;
     mm_update_rate := mm_update_rate default_config;
     mm_update_every_k_events := k;
     environment_mode := environment_mode default_config;
     adverse_horizon := adverse_horizon default_config;
     initial_depth_levels := initial_depth_levels default_config;
     initial_depth_qty := depth_qty;
     flow := flow default_config;
     cfg_market_maker := cfg_market_maker default_config |}.

(** * Vocabulary of the properties of the simulator *)

(** A method that returns from a state where [P] holds returns a value and a
    state related by [Q]. *)
Definition hoare {G X} (P : EventDrivenSimulator G -> Prop) (m : M G X)
    (Q : X -> EventDrivenSimulator G -> Prop) : Prop :=
  forall s x s', P s -> m s = Return (x, s') -> Q x s'.

(** What the properties of the book and of the agent's quotes read of the
    simulator: the book, the factory and the agent's set of ids. *)
Definition view {G} (s : EventDrivenSimulator G)
    : LimitOrderBook * OrderFactory * gset string :=
  (book s, factory s, active_order_ids (market_maker s)).

(** A method that leaves these three as they are. *)
Definition framed {G X} (m : M G X) : Prop :=
  forall s x s', m s = Return (x, s') -> view s' = view s.

(** Two methods that do the same from every state where [I] holds. *)
Definition agree {G X} (I : EventDrivenSimulator G -> Prop) (m1 m2 : M G X) : Prop :=
  forall s, I s -> m1 s = m2 s.

(** The id the factory gives to its [n]-th order. *)
Definition idn (f : OrderFactory) (n : Z) : string :=
  prefix f +:+ "-" +:+ pretty n.

(** The book is well formed, its index lists the resting orders, and every
    id in it has been issued by the factory. *)
Record book_inv (b : LimitOrderBook) (f : OrderFactory) : Prop := {
  inv_wf : book_wf b;
  inv_index : index_wf b;
  inv_issued : forall k, k ∈ open_orders b None -> exists n, n < counter f /\ k = idn f n
}.

(** The agent's set holds at most [n] ids, among them the id of every
    resting order of the agent. *)
Definition own_inv (n : nat) (b : LimitOrderBook) (ids : gset string) : Prop :=
  (size ids <= n)%nat /\
  forall o, o ∈ all_resting b -> owner o = "MM" -> order_id o ∈ ids.

Definition inv {G} (n : nat) (s : EventDrivenSimulator G) : Prop :=
  book_inv (book s) (factory s) /\
  own_inv n (book s) (active_order_ids (market_maker s)).

(** The invariant of the simulator between events. *)
Definition sim_inv {G} (s : EventDrivenSimulator G) : Prop := inv 2 s.

(** The factory after one more order. *)
Definition bump (f : OrderFactory) : OrderFactory :=
  {| prefix := prefix f; counter := counter f + 1 |}.

(** An order fresh from the factory, not yet given to the book: it passed
    the constructor and carries the [n]-th id, which is not in the index. *)
Definition pending (b : LimitOrderBook) (f : OrderFactory) (n : Z) (o : Order) : Prop :=
  valid_order o /\ order_id o = idn f n /\ n < counter f /\
  order_id o ∉ open_orders b None.

(** The first loop of [_handle_mm_quote_update] on the book. *)
Definition cancel_all (b : LimitOrderBook) (l : list string) : LimitOrderBook :=
  foldl (fun b k => (cancel b k).2) b l.

(** An enumeration of the sets of strings: every element once. *)
Definition enumeration (set_iter : gset string -> list string) : Prop :=
  forall X, set_iter X ≡ₚ elements X.

(** ** Concrete runs *)

(** A generator that draws 0.11, 0.48, 0.85, ... (steps of 0.37 modulo 1),
    sixty numbers, whatever the seed. *)
Definition stepping_draws (_ : Z) : list Qc :=
  (fun n : Z => dec ((n * 37 + 11) mod 100) 100) <$> (Z.of_nat <$> seq 0 60).

Definition stepping : Generator (list Qc) := script_generator stepping_draws.

(** The default configuration with a horizon of 0.1 and a seeded depth of
    one unit per level. *)
Definition short_config : SimulatorConfig := @configure exact (dec 1 10) 1 1.

(** A generator whose first draws schedule a market arrival as the first
    event and make it a buy order of four units. *)
Definition buy_four_draws (_ : Z) : list Qc :=
  [dec 1 2; dec 1 2; dec 9 10; dec 1 10; dec 9 10; dec 1 2; dec 1 4; dec 9 10; dec 1 2].

Definition buy_four : Generator (list Qc) := script_generator buy_four_draws.

(** The default configuration with a refresh of the quotes every second
    event and a seeded depth of one unit per level. *)
Definition every_second_config : SimulatorConfig := @configure exact (Q2Qc 1) 2 1.

(** The state a method leaves when it returns (the state [d] otherwise). *)
Definition state_of {G X} (r : outcome (X * EventDrivenSimulator G))
    (d : EventDrivenSimulator G) : EventDrivenSimulator G :=
  match r with Return (_, s) => s | _ => d end.

(** The simulator of the default configuration after [_seed_book], in exact
    arithmetic and in binary64. *)
Definition seeded_exact {G} {gen : Generator G} : EventDrivenSimulator G :=
  Eval vm_compute in
    state_of (_seed_book (A := exact) (new_simulator (default_config (A := exact))))
      (new_simulator (default_config (A := exact))).

Definition seeded_binary64 {G} {gen : Generator G} : EventDrivenSimulator G :=
  Eval vm_compute in
    state_of (_seed_book (A := Binary64.binary64)
                (new_simulator (default_config (A := Binary64.binary64))))
      (new_simulator (default_config (A := Binary64.binary64))).

(** The run of [every_second_config] with the draws of [buy_four]: the
    state before the first event and the state after it. *)
Definition buy_four_start : EventDrivenSimulator (list Qc) :=
  Eval vm_compute in
    state_of (start (A := exact) (gen := buy_four) elements
                (new_simulator (gen := buy_four) every_second_config))
      (new_simulator (gen := buy_four) every_second_config).

Definition buy_four_first : EventDrivenSimulator (list Qc) :=
  Eval vm_compute in
    state_of (loop_turn (A := exact) (gen := buy_four) elements buy_four_start)
      buy_four_start.

(** What the run of [short_config] with the draws of [stepping] returns. *)
Definition short_result : RunResult :=
  Eval vm_compute in
    match run (A := exact) (gen := stepping) elements short_config 20 with
    | Return r => r
    | _ => {| out_snapshots := []; out_trades := []; out_mm_fills := [];
              out_config := short_config |}
    end.

(** ** Concrete agents, fills and books *)

(** An agent of the default configuration, long ten units. *)
Definition mm_long : MarketMaker :=
  {| config := {| half_spread_ticks := 1; quote_qty := 3; inventory_skew := dec 2 1000 |};
     tick_size := dec 1 100; inventory := 10; cash := Q2Qc 0; initial_cash := Q2Qc 0;
     avg_entry_price := Q2Qc 0; realized_pnl := Q2Qc 0; active_order_ids := ∅;
     fills := [] |}.



(** The agent is the maker of a sale to it of 5 at 100, then the taker of
    a sale by it of 8 at 101. *)
Definition two_fills : list Trade :=
  [ {| trade_timestamp := Q2Qc 1; trade_price := Q2Qc 100; trade_qty := 5;
       taker_order_id := "ORD-9"; maker_order_id := "ORD-7";
       taker_owner := "FLOW"; maker_owner := "MM"; taker_side := ASK |};
    {| trade_timestamp := Q2Qc 2; trade_price := Q2Qc 101; trade_qty := 8;
       taker_order_id := "ORD-11"; maker_order_id := "ORD-3";
       taker_owner := "MM"; maker_owner := "FLOW"; taker_side := ASK |} ].

Definition limit_order (oid : string) (s : Side) (p : Qc) (q : Z) : Order :=
  {| order_id := oid; timestamp := Q2Qc 0; side := s; order_type := LIMIT;
     qty := q; price := Some p; owner := "FLOW" |}.

Definition market_order (oid : string) (s : Side) (q : Z) : Order :=
  {| order_id := oid; timestamp := Q2Qc 0; side := s; order_type := MARKET;
     qty := q; price := None; owner := "FLOW" |}.

Definition book_after (r : outcome (list Trade * LimitOrderBook * Order))
    : LimitOrderBook :=
  match r with Return (_, b, _) => b | _ => empty_book end.

(** Two asks at 100.03, of 20 then of 5, and a bid of 20 at 99.97. *)
Definition book1 : LimitOrderBook :=
  Eval vm_compute in
    book_after (add_order empty_book (limit_order "ORD-1" ASK (dec 10003 100) 20)).
Definition book2 : LimitOrderBook :=
  Eval vm_compute in
    book_after (add_order book1 (limit_order "ORD-2" ASK (dec 10003 100) 5)).
Definition book3 : LimitOrderBook :=
  Eval vm_compute in
    book_after (add_order book2 (limit_order "ORD-3" BID (dec 9997 100) 20)).

(** ** Vocabulary of the further properties *)

(** The side of the agent in a trade, as a sign: +1 when it buys, -1 when
    it sells, 0 when it is no party to the trade.  As [on_trade] does, the
    taker is looked at first. *)
Definition mm_sign (t : Trade) : Z :=
  if bool_decide (taker_owner t = "MM") then
    match taker_side t with BID => 1 | ASK => -1 end
  else if bool_decide (maker_owner t = "MM") then
    match taker_side t with BID => -1 | ASK => 1 end
  else 0.

(** The quantity the agent has bought net of what it has sold, and what it
    has paid net of what it has received. *)
Definition net_position (trades : list Trade) : Z :=
  foldr (fun t acc => mm_sign t * trade_qty t + acc) 0 trades.

Definition net_notional (trades : list Trade) : Qc :=
  foldr (fun t acc => (Qc_of_Z (mm_sign t * trade_qty t) * trade_price t + acc)%Qc)
    (Q2Qc 0) trades.

(** The agent is a party to the trade. *)
Definition involves_mm (t : Trade) : Prop :=
  taker_owner t = "MM" \/ maker_owner t = "MM".

(** The entry of the fill log for a trade of the agent, once the engine has
    stamped it. *)
Definition fill_of_trade (t : Trade) : Fill :=
  let s := if bool_decide (taker_owner t = "MM") then taker_side t
           else opposite (taker_side t) in
  {| fill_timestamp := Some (trade_timestamp t); fill_side := s;
     fill_mm_side := match s with BID => 1 | ASK => -1 end;
     fill_price := trade_price t; fill_qty := trade_qty t |}.

(** The ids of the next [n] orders of a factory. *)
Fixpoint issued (f : OrderFactory) (n : nat) : list string :=
  match n with
  | O => []
  | S n' => (next_id f).1 :: issued (next_id f).2 n'
  end.

(** The fill log is the list of the agent's trades in the trade log, each
    with the timestamp of its trade. *)
Definition fills_logged {G} (s : EventDrivenSimulator G) : Prop :=
  fills (market_maker s) = fill_of_trade <$> filter involves_mm (trades s).

(** The snapshots are numbered from 0. *)
Definition numbered (sn : list Snapshot) : Prop :=
  event_idx <$> sn = Z.of_nat <$> seq 0 (length sn).

(** The counter of a snapshot since the last refresh of the quotes: with a
    refresh every [k] events, the number of the event modulo [k]. *)
Definition refresh_counted (k : Z) (sn : Snapshot) : Prop :=
  0 <= events_since_mm_refresh sn /\
  (0 < k -> events_since_mm_refresh sn = event_idx sn mod k).

(** The snapshots of a simulator of configuration [cfg], [d] of them beyond
    the number of events: one between two events, none while an event is
    handled.  The property reads the configuration, the number of events and
    the snapshots. *)
Definition counted_at (cfg : SimulatorConfig) (d : Z)
    (c : SimulatorConfig) (n : Z) (sn : list Snapshot) : Prop :=
  c = cfg /\ numbered sn /\
  Z.of_nat (length sn) = n + d /\
  0 < n + d /\
  (forall first, head sn = Some first -> snap_event_type first = "INIT") /\
  Forall (refresh_counted (mm_update_every_k_events cfg)) sn.

Definition counted {G} (cfg : SimulatorConfig) (d : Z) (s : EventDrivenSimulator G) : Prop :=
  counted_at cfg d (sim_config s) (_event_count s) (snapshots s).

(** The simulator before the first snapshot. *)
Definition uncounted_at (cfg c : SimulatorConfig) (n : Z) (sn : list Snapshot) : Prop :=
  c = cfg /\ n = 0 /\ sn = [].

(** The event of the last refresh, once the refresh of an event is done and
    before it. *)
Definition refresh_settled {G} (k : Z) (s : EventDrivenSimulator G) : Prop :=
  _last_mm_refresh_event s <= _event_count s /\
  (0 < k -> _event_count s - _last_mm_refresh_event s = _event_count s mod k).

Definition refresh_due {G} (k : Z) (s : EventDrivenSimulator G) : Prop :=
  _last_mm_refresh_event s <= _event_count s /\
  (0 < k ->
   _event_count s - _last_mm_refresh_event s = (_event_count s - 1) mod k + 1).

(** A snapshot of a sound book: the best prices are not crossed, and the
    depth at the top of a side is zero exactly when the side is empty. *)
Definition snapshot_sound (sn : Snapshot) : Prop :=
  (forall pb pa, snap_best_bid sn = Some pb -> snap_best_ask sn = Some pa -> (pb < pa)%Qc) /\
  (snap_best_bid sn = None -> top_bid_depth sn = 0) /\
  (is_Some (snap_best_bid sn) -> 0 < top_bid_depth sn) /\
  (snap_best_ask sn = None -> top_ask_depth sn = 0) /\
  (is_Some (snap_best_ask sn) -> 0 < top_ask_depth sn) /\
  (is_Some (snap_spread sn) <-> is_Some (snap_best_bid sn) /\ is_Some (snap_best_ask sn)).

Definition snapshots_sound {G} (s : EventDrivenSimulator G) : Prop :=
  Forall snapshot_sound (snapshots s).

(** The default configuration with a horizon of 0.1, a refresh of the quotes
    every third event and a seeded depth of one unit per level, and what its
    run with the draws of [stepping] returns. *)
Definition every_third_config : SimulatorConfig := @configure exact (dec 1 10) 3 1.

Definition every_third_result : RunResult :=
  Eval vm_compute in
    match run (A := exact) (gen := stepping) elements every_third_config 20 with
    | Return r => r
    | _ => {| out_snapshots := []; out_trades := []; out_mm_fills := [];
              out_config := every_third_config |}
    end.

(** The agent's inventory and cash are those of the trade log, and the last
    snapshot has recorded them. *)
Definition ledger {G} (s : EventDrivenSimulator G) : Prop :=
  inventory (market_maker s) = net_position (trades s) /\
  cash (market_maker s) = (- net_notional (trades s))%Qc.

Definition recorded {G} (s : EventDrivenSimulator G) : Prop :=
  forall sn, last (snapshots s) = Some sn ->
    mm_inventory sn = inventory (market_maker s) /\ mm_cash sn = cash (market_maker s).

(** A method that does not raise [KeyError] from the states of [P]. *)
Definition no_key_error {G X} (P : EventDrivenSimulator G -> Prop) (m : M G X) : Prop :=
  forall s, P s -> m s <> Raise KeyError.

(** The book of the simulator is well formed. *)
Definition wf_state {G} (s : EventDrivenSimulator G) : Prop := book_wf (book s).

(** Every trade of the trade log has a positive quantity. *)
Definition trades_positive {G} (s : EventDrivenSimulator G) : Prop :=
  Forall (fun t => 0 < trade_qty t) (trades s).

(** Time goes forward.  At time [t0] the events still to come are in the
    order of their times, none before [t0]; the snapshots taken are in the
    order of their times, none after [t0]; and no snapshot but those of
    time 0 was taken after the horizon of the configuration. *)
Definition within (cfg : SimulatorConfig) (t : Qc) : Prop :=
  t = Q2Qc 0 \/ (t <= end_time cfg)%Qc.

Definition time_ordered {G} (t0 : Qc) (s : EventDrivenSimulator G) : Prop :=
  now s = t0 /\ within (sim_config s) t0 /\
  StronglySorted (fun e1 e2 => (ev_timestamp e1 <= ev_timestamp e2)%Qc) (_events s) /\
  Forall (fun e => (t0 <= ev_timestamp e)%Qc) (_events s) /\
  StronglySorted (fun a b => (snap_timestamp a <= snap_timestamp b)%Qc) (snapshots s) /\
  Forall (fun sn => (snap_timestamp sn <= t0)%Qc) (snapshots s) /\
  Forall (fun sn => within (sim_config s) (snap_timestamp sn)) (snapshots s).

Definition in_time {G} (s : EventDrivenSimulator G) : Prop := time_ordered (now s) s.

(** A generator that draws 0.11, 0.48, 0.85, ... (steps of 0.37 modulo 1)
    without end: its state is the number of draws made. *)
Definition nth_draw (n : nat) : Qc := dec ((Z.of_nat n * 37 + 11) mod 100) 100.

Definition endless : Generator nat :=
  {| default_rng := fun _ => 0%nat;
     random := fun n => (nth_draw n, S n);
     exponential := fun scale n => ((scale * nth_draw n)%Qc, S n);
     integers := fun low high n =>
       if bool_decide (high <= low) then Raise ValueError
       else Return (low + Qfloor (nth_draw n * Qc_of_Z (high - low))%Qc, S n);
     choice := fun l n =>
       (default EmptyString
          (l !! Z.to_nat (Qfloor (nth_draw n * Qc_of_Z (Z.of_nat (length l)))%Qc)),
        S n) |}.

(** What the run of [short_config] with the draws of [endless] returns. *)
Definition endless_result : RunResult :=
  Eval vm_compute in
    match run (A := exact) (gen := endless) elements short_config 20 with
    | Return r => r
    | _ => {| out_snapshots := []; out_trades := []; out_mm_fills := [];
              out_config := short_config |}
    end.

(** A decidable proposition, settled by evaluation. *)
Ltac by_compute := apply (bool_decide_unpack _); vm_compute; exact I.

(** * Properties of the order book *)

(** Order facts on canonical rationals, through the linear solver on [Q]. *)
Lemma Qc_eq_Qeq (x y : Qc) : x = y <-> (this x == this y)%Q.
Proof. split; [intros ->; reflexivity | apply Qc_is_canon]. Qed.

Ltac qc_order :=
  repeat match goal with
    | H : @eq Qc _ _ |- _ => apply Qc_eq_Qeq in H
    | H : ~ @eq Qc _ _ |- _ => rewrite Qc_eq_Qeq in H
    | |- @eq Qc _ _ => apply Qc_is_canon
    | |- ~ @eq Qc _ _ => rewrite Qc_eq_Qeq
    end;
  unfold Qclt, Qcle in *; lra.

Section dict_facts.
Context {K V : Type} `{EqDecision K}.
Implicit Types (d : list (K * V)) (k : K) (v : V).

Lemma dict_get_set d k k' v :
  dict_get (dict_set d k v) k' = if decide (k = k') then Some v else dict_get d k'.
Proof.
  induction d as [|[k0 v0] d IH]; simpl.
  - repeat case_decide; congruence.
  - destruct (decide (k0 = k)) as [->|Hne]; simpl.
    + repeat case_decide; congruence.
    + rewrite IH. repeat case_decide; congruence.
Qed.

Lemma dict_get_pop d k k' :
  dict_get (dict_pop d k) k' = if decide (k = k') then None else dict_get d k'.
Proof.
  unfold dict_pop. induction d as [|[k0 v0] d IH]; simpl.
  - by case_decide.
  - rewrite filter_cons. simpl. destruct (decide (k0 <> k)) as [Hne|Heq]; simpl.
    + rewrite IH. repeat case_decide; congruence.
    + apply dec_stable in Heq. subst k0. rewrite IH.
      repeat case_decide; congruence.
Qed.

Lemma dict_get_Some_elem d k v : dict_get d k = Some v -> (k, v) ∈ d.
Proof.
  induction d as [|[k0 v0] d IH]; simpl; [done|].
  case_decide; intros Hg.
  - inversion Hg; subst. left.
  - right. auto.
Qed.

Lemma dict_get_None d k : dict_get d k = None <-> k ∉ d.*1.
Proof.
  induction d as [|[k0 v0] d IH]; simpl.
  - split; [intros _; apply not_elem_of_nil | done].
  - rewrite not_elem_of_cons. case_decide; split; try done.
    + intros [? _]. congruence.
    + intros. split; [congruence | by apply IH].
    + intros [_ ?]. by apply IH.
Qed.

Lemma dict_get_is_Some d k : is_Some (dict_get d k) <-> k ∈ d.*1.
Proof.
  rewrite <- not_eq_None_Some, dict_get_None.
  split; [apply dec_stable | auto].
Qed.

Lemma dict_set_keys_fresh d k v : k ∉ d.*1 -> dict_set d k v = d ++ [(k, v)].
Proof.
  induction d as [|[k0 v0] d IH]; simpl; [done|].
  rewrite not_elem_of_cons. intros [Hne Hnin].
  case_decide; [congruence|]. by rewrite IH.
Qed.

Lemma dict_pop_keys d k : (dict_pop d k).*1 = filter (fun x => x <> k) d.*1.
Proof.
  unfold dict_pop. induction d as [|[k0 v0] d IH]; [done|].
  rewrite filter_cons. simpl. rewrite filter_cons.
  destruct (decide (k0 <> k)); simpl; [f_equal|]; apply IH.
Qed.

Lemma dict_pop_absent d k : k ∉ d.*1 -> dict_pop d k = d.
Proof.
  unfold dict_pop. induction d as [|[k0 v0] d IH]; [done|].
  rewrite fmap_cons, not_elem_of_cons, filter_cons. simpl. intros [Hne Hnin].
  case_decide; [by rewrite IH | congruence].
Qed.

Lemma dict_pop_comm d k k' : dict_pop (dict_pop d k) k' = dict_pop (dict_pop d k') k.
Proof.
  unfold dict_pop. induction d as [|[k0 v0] d IH]; [done|].
  rewrite !filter_cons. simpl.
  destruct (decide (k0 <> k)), (decide (k0 <> k')); rewrite ?filter_cons; simpl;
    repeat case_decide; try done; by rewrite IH.
Qed.
End dict_facts.

(** ** Ascending level lists *)

Lemma StronglySorted_filter {X} (R : relation X) (P : X -> Prop)
    `{forall x, Decision (P x)} (l : list X) :
  StronglySorted R l -> StronglySorted R (filter P l).
Proof.
  induction 1 as [|x l Hs IH Hall]; [constructor|].
  rewrite filter_cons. case_decide; [|done].
  constructor; [done|].
  apply Forall_forall. intros y Hy. apply list_elem_of_filter in Hy as [_ Hy].
  rewrite Forall_forall in Hall. auto.
Qed.

Lemma filter_id_Forall {X} (P : X -> Prop) `{forall x, Decision (P x)} (l : list X) :
  Forall P l -> filter P l = l.
Proof.
  induction 1 as [|x l Hx Hl IH]; [done|].
  by rewrite filter_cons_True, IH.
Qed.

(** [_remove_price_level] on the level list: the level, if present, goes. *)
Lemma remove_level_filter (l : list Qc) (p : Qc) :
  StronglySorted Qclt l ->
  (if bool_decide (l !! bisect_left l p = Some p)
   then delete (bisect_left l p) l else l) = filter (fun x => x <> p) l.
Proof.
  induction 1 as [|y l Hs IH Hall]; [by case_bool_decide|].
  simpl. rewrite filter_cons. destruct (decide (y < p)%Qc) as [Hlt|Hlt].
  - rewrite !(bool_decide_eq_true_2 _ Hlt). simpl.
    rewrite decide_True by (intros ->; qc_order).
    rewrite <- IH. by case_bool_decide.
  - rewrite !(bool_decide_eq_false_2 _ Hlt). simpl. clear IH.
    destruct (decide (y = p)) as [->|Hne].
    + rewrite bool_decide_eq_true_2 by done. rewrite decide_False by auto.
      symmetry. apply filter_id_Forall.
      eapply Forall_impl; [exact Hall|]. simpl. intros x Hx ->. qc_order.
    + rewrite bool_decide_eq_false_2 by congruence.
      rewrite decide_True by done. f_equal.
      symmetry. apply filter_id_Forall.
      eapply Forall_impl; [exact Hall|]. simpl. intros x Hx ->. qc_order.
Qed.

Lemma insort_elem (l : list Qc) (p x : Qc) : x ∈ insort l p <-> x = p \/ x ∈ l.
Proof.
  induction l as [|y l IH]; simpl.
  - rewrite list_elem_of_singleton, elem_of_nil. tauto.
  - case_bool_decide; rewrite !elem_of_cons; [tauto|]. rewrite IH. tauto.
Qed.

Lemma insort_sorted (l : list Qc) (p : Qc) :
  StronglySorted Qclt l -> p ∉ l -> StronglySorted Qclt (insort l p).
Proof.
  induction 1 as [|y l Hs IH Hall]; intros Hnin; simpl.
  - repeat constructor.
  - apply not_elem_of_cons in Hnin as [Hne Hnin].
    case_bool_decide as Hlt.
    + constructor; [by constructor|].
      constructor; [done|].
      eapply Forall_impl; [exact Hall|]. simpl. intros x Hx. qc_order.
    + constructor; [auto|].
      apply Forall_forall. intros x Hx. apply insort_elem in Hx as [->|Hx].
      * qc_order.
      * rewrite Forall_forall in Hall. auto.
Qed.

Lemma sorted_head_min (l : list Qc) (p x : Qc) :
  StronglySorted Qclt l -> head l = Some p -> x ∈ l -> (p <= x)%Qc.
Proof.
  destruct 1 as [|y l Hs Hall]; [done|]. simpl. intros [= ->].
  rewrite elem_of_cons. intros [->|Hx]; [qc_order|].
  rewrite Forall_forall in Hall. apply Hall in Hx. qc_order.
Qed.

Lemma sorted_last_max (l : list Qc) (p x : Qc) :
  StronglySorted Qclt l -> last l = Some p -> x ∈ l -> (x <= p)%Qc.
Proof.
  intros Hs Hl. apply last_Some in Hl as [l' ->].
  apply StronglySorted_app in Hs as (Hlt & _ & _).
  rewrite elem_of_app, list_elem_of_singleton. intros [Hx| ->]; [|qc_order].
  assert (x < p)%Qc by (apply Hlt; [done | left]). qc_order.
Qed.

Lemma sorted_NoDup (l : list Qc) : StronglySorted Qclt l -> NoDup l.
Proof.
  induction 1 as [|y l Hs IH Hall]; constructor; [|done].
  intros Hy. rewrite Forall_forall in Hall. apply Hall in Hy. qc_order.
Qed.

(** ** One side of the book *)

Lemma best_price_head (b : LimitOrderBook) (s : Side) :
  best_price b s = head (best_first s (side_levels b s)).
Proof. destruct s; simpl; [by rewrite head_reverse | done]. Qed.

Lemma side_wf_empty (s : Side) : side_wf s ∅ [].
Proof.
  split; [constructor | | ].
  - intros p. rewrite elem_of_nil, lookup_empty. split; [done | by intros []].
  - intros p q. by rewrite lookup_empty.
Qed.

Lemma best_first_elem (s : Side) (levels : list Qc) (p : Qc) :
  p ∈ best_first s levels <-> p ∈ levels.
Proof. destruct s; simpl; [apply elem_of_reverse | done]. Qed.

(** The best level heads the priority order, and the others follow. *)
Lemma best_first_split (s : Side) (levels : list Qc) (p : Qc) :
  StronglySorted Qclt levels ->
  head (best_first s levels) = Some p ->
  best_first s levels = p :: best_first s (filter (fun x => x <> p) levels).
Proof.
  intros Hs Hh. destruct s; simpl in *.
  - rewrite head_reverse in Hh. apply last_Some in Hh as [l' ->].
    rewrite reverse_snoc, filter_app, filter_cons_False, filter_nil, app_nil_r
      by (intros Hne; by apply Hne).
    f_equal. f_equal. symmetry. apply filter_id_Forall.
    apply StronglySorted_app in Hs as (Hlt & _ & _).
    apply Forall_forall. intros x Hx ->.
    assert (p < p)%Qc by (apply Hlt; [done | left]). qc_order.
  - destruct levels as [|y l]; [done|]. simpl in Hh. injection Hh as ->.
    rewrite filter_cons_False by (intros Hne; by apply Hne).
    f_equal. symmetry. apply filter_id_Forall.
    apply StronglySorted_inv in Hs as [_ Hall].
    eapply Forall_impl; [exact Hall|]. simpl. intros x Hx ->. qc_order.
Qed.

Lemma best_is_extreme (s : Side) (levels : list Qc) (p x : Qc) :
  StronglySorted Qclt levels ->
  head (best_first s levels) = Some p -> x ∈ levels ->
  match s with BID => (x <= p)%Qc | ASK => (p <= x)%Qc end.
Proof.
  intros Hs Hh Hx. destruct s; simpl in Hh.
  - rewrite head_reverse in Hh. eauto using sorted_last_max.
  - eauto using sorted_head_min.
Qed.

Lemma side_wf_remove (s : Side) book levels (p : Qc) :
  side_wf s book levels ->
  side_wf s (delete p book) (filter (fun x => x <> p) levels).
Proof.
  intros [Hs Hk Hq]. split.
  - by apply StronglySorted_filter.
  - intros x. rewrite list_elem_of_filter, Hk.
    destruct (decide (x = p)) as [->|Hne].
    + rewrite lookup_delete_eq. split; [by intros [] | by intros []].
    + rewrite lookup_delete_ne by done. tauto.
  - intros x q. destruct (decide (x = p)) as [->|Hne].
    + by rewrite lookup_delete_eq.
    + rewrite lookup_delete_ne by done. apply Hq.
Qed.

Lemma side_wf_update (s : Side) book levels (p : Qc) (q' : list Order) :
  side_wf s book levels -> is_Some (book !! p) ->
  q' <> [] -> Forall (order_ok s p) q' ->
  side_wf s (<[p := q']> book) levels.
Proof.
  intros [Hs Hk Hq] Hp Hne Hall. split; [done | |].
  - intros x. rewrite Hk. destruct (decide (x = p)) as [->|Hxp].
    + rewrite lookup_insert_eq. split; eauto.
    + by rewrite lookup_insert_ne.
  - intros x q. destruct (decide (x = p)) as [->|Hxp].
    + rewrite lookup_insert_eq. by intros [= <-].
    + rewrite lookup_insert_ne by done. apply Hq.
Qed.

Lemma side_wf_insert (s : Side) book levels (p : Qc) (o : Order) :
  side_wf s book levels -> book !! p = None -> order_ok s p o ->
  side_wf s (<[p := [o]]> book) (insort levels p).
Proof.
  intros [Hs Hk Hq] Hp Ho. split.
  - apply insort_sorted; [done|]. rewrite Hk, Hp. by intros [].
  - intros x. rewrite insort_elem, Hk. destruct (decide (x = p)) as [->|Hxp].
    + rewrite lookup_insert_eq. split; eauto.
    + rewrite lookup_insert_ne by done. split; [|by right]. by intros [|].
  - intros x q. destruct (decide (x = p)) as [->|Hxp].
    + rewrite lookup_insert_eq. intros [= <-]. split; [done|]. by constructor.
    + rewrite lookup_insert_ne by done. apply Hq.
Qed.

(** The queues of the levels that are not [p] do not see a change at [p]. *)
Lemma bind_queue_at_other (book book' : gmap Qc (list Order)) (l : list Qc) :
  (forall x, x ∈ l -> book' !! x = book !! x) ->
  l ≫= queue_at book' = l ≫= queue_at book.
Proof.
  induction l as [|y l IH]; intros Hsame; [done|].
  rewrite !bind_cons. f_equal.
  - unfold queue_at. rewrite Hsame; [done | left].
  - apply IH. intros x Hx. apply Hsame. by right.
Qed.

Lemma resting_split (s : Side) book book' levels (p : Qc) :
  StronglySorted Qclt levels ->
  head (best_first s levels) = Some p ->
  (forall x, x <> p -> book' !! x = book !! x) ->
  best_first s levels ≫= queue_at book' =
  queue_at book' p ++
    (best_first s (filter (fun x => x <> p) levels) ≫= queue_at (delete p book)).
Proof.
  intros Hs Hh Hsame. rewrite (best_first_split s levels p Hs Hh) at 1.
  rewrite bind_cons. f_equal. apply bind_queue_at_other.
  intros x Hx. apply best_first_elem, list_elem_of_filter in Hx as [Hne _].
  rewrite Hsame by done. by rewrite lookup_delete_ne.
Qed.

Lemma resting_elem (s : Side) book levels (o : Order) :
  side_wf s book levels ->
  o ∈ best_first s levels ≫= queue_at book <->
  exists p q, book !! p = Some q /\ o ∈ q.
Proof.
  intros [Hs Hk Hq]. rewrite list_elem_of_bind. split.
  - intros (p & Ho & Hp). apply best_first_elem, Hk in Hp as [q Hp].
    unfold queue_at in Ho. rewrite Hp in Ho. eauto.
  - intros (p & q & Hp & Ho). exists p. split.
    + unfold queue_at. by rewrite Hp.
    + apply best_first_elem, Hk. eauto.
Qed.

(** ** The inner loop of matching *)

Lemma fills_done (taker : Order) (ms : list Order) :
  ~ 0 < qty taker -> fill_walk taker ms = ([], taker, ms).
Proof.
  intros Hq. destruct ms as [|m ms]; [done|]. simpl.
  destruct (price m); [|done]. by rewrite bool_decide_eq_false_2.
Qed.

Lemma set_qty_id (o : Order) : set_qty o (qty o) = o.
Proof. by destruct o. Qed.

(** The loop leaves the queue non-empty only when the taker is done. *)
Lemma match_queue_taker_done taker p q idx t' q' idx' trs :
  match_queue taker p q idx = (t', q', idx', trs) ->
  q' <> [] -> ~ 0 < qty t'.
Proof.
  revert taker idx t' q' idx' trs.
  induction q as [|maker rest IH]; intros taker idx t' q' idx' trs; simpl.
  - intros [= <- <- <- <-]. done.
  - destruct (decide (0 < qty taker)) as [Hpos|Hpos].
    + rewrite (bool_decide_eq_true_2 _ Hpos).
      destruct (decide (qty maker - Z.min (qty taker) (qty maker) = 0)) as [Hz|Hz].
      * rewrite (bool_decide_eq_true_2 _ Hz).
        destruct (match_queue _ p rest _) as [[[t1 q1] idx1] trs1] eqn:E.
        intros [= <- <- <- <-]. eauto.
      * rewrite (bool_decide_eq_false_2 _ Hz).
        intros [= <- <- <- <-] _. simpl. lia.
    + rewrite (bool_decide_eq_false_2 _ Hpos). intros [= <- <- <- <-]. done.
Qed.

(** The taker keeps its fields, and its quantity only decreases. *)
Lemma match_queue_taker taker p q idx t' q' idx' trs :
  match_queue taker p q idx = (t', q', idx', trs) ->
  Forall (fun m => 0 < qty m) q ->
  exists n, t' = set_qty taker n /\ (0 < qty taker -> 0 <= n <= qty taker) /\
            (~ 0 < qty taker -> n = qty taker).
Proof.
  revert taker idx t' q' idx' trs.
  induction q as [|maker rest IH]; intros taker idx t' q' idx' trs; simpl.
  - intros [= <- <- <- <-] _. exists (qty taker).
    rewrite set_qty_id. split; [done|]. split; [lia|done].
  - intros Hm Hall. apply Forall_cons in Hall as [Hmk Hall].
    destruct (decide (0 < qty taker)) as [Hpos|Hpos].
    + rewrite (bool_decide_eq_true_2 _ Hpos) in Hm.
      destruct (decide (qty maker - Z.min (qty taker) (qty maker) = 0)) as [Hz|Hz].
      * rewrite (bool_decide_eq_true_2 _ Hz) in Hm.
        destruct (match_queue _ p rest _) as [[[t1 q1] idx1] trs1] eqn:E.
        injection Hm as <- <- <- <-.
        destruct (IH _ _ _ _ _ _ E Hall) as (n & -> & Hn1 & Hn2). simpl in *.
        exists n. split; [done|]. split; [|lia]. intros _.
        destruct (decide (0 < qty taker - Z.min (qty taker) (qty maker))); lia.
      * rewrite (bool_decide_eq_false_2 _ Hz) in Hm.
        injection Hm as <- <- <- <-. eexists. split; [done|]. lia.
    + rewrite (bool_decide_eq_false_2 _ Hpos) in Hm.
      injection Hm as <- <- <- <-. exists (qty taker).
      rewrite set_qty_id. split; [done|]. split; [lia|done].
Qed.

(** The queue that is left holds orders of the same level. *)
Lemma match_queue_ok s taker p q idx t' q' idx' trs :
  match_queue taker p q idx = (t', q', idx', trs) ->
  Forall (order_ok s p) q -> Forall (order_ok s p) q'.
Proof.
  revert taker idx t' q' idx' trs.
  induction q as [|maker rest IH]; intros taker idx t' q' idx' trs; simpl.
  - intros [= <- <- <- <-] _. constructor.
  - intros Hm Hall. pose proof Hall as Hall'.
    apply Forall_cons in Hall as [(Hs & Hp & Ht & Hmk) Hall].
    destruct (decide (0 < qty taker)) as [Hpos|Hpos].
    + rewrite (bool_decide_eq_true_2 _ Hpos) in Hm.
      destruct (decide (qty maker - Z.min (qty taker) (qty maker) = 0)) as [Hz|Hz].
      * rewrite (bool_decide_eq_true_2 _ Hz) in Hm.
        destruct (match_queue _ p rest _) as [[[t1 q1] idx1] trs1] eqn:E.
        injection Hm as <- <- <- <-. eauto.
      * rewrite (bool_decide_eq_false_2 _ Hz) in Hm.
        injection Hm as <- <- <- <-. constructor; [|done].
        repeat split; simpl; [done..|lia].
    + rewrite (bool_decide_eq_false_2 _ Hpos) in Hm.
      injection Hm as <- <- <- <-. done.
Qed.

(** The inner loop is [fill_walk] on the queue of the level. *)
Lemma match_queue_fills taker p q idx t' q' idx' trs tail :
  match_queue taker p q idx = (t', q', idx', trs) ->
  Forall (fun m => price m = Some p) q ->
  limit_reached taker p = false ->
  fill_walk taker (q ++ tail) =
  match q' with
  | [] => let '(ts, t, r) := fill_walk t' tail in (trs ++ ts, t, r)
  | _ => (trs, t', q' ++ tail)
  end.
Proof.
  revert taker idx t' q' idx' trs.
  induction q as [|maker rest IH]; intros taker idx t' q' idx' trs; simpl.
  - intros [= <- <- <- <-] _ _. by destruct (fill_walk taker tail) as [[ts t] r].
  - intros Hm Hall Hlim. apply Forall_cons in Hall as [Hp Hall]. rewrite Hp, Hlim.
    destruct (decide (0 < qty taker)) as [Hpos|Hpos].
    + rewrite (bool_decide_eq_true_2 _ Hpos) in Hm |- *. simpl.
      destruct (decide (qty maker - Z.min (qty taker) (qty maker) = 0)) as [Hz|Hz].
      * rewrite (bool_decide_eq_true_2 _ Hz) in Hm |- *.
        destruct (match_queue _ p rest _) as [[[t1 q1] idx1] trs1] eqn:E.
        injection Hm as <- <- <- <-.
        rewrite (IH _ _ _ _ _ _ E Hall) by done.
        destruct q1; [|done]. by destruct (fill_walk t1 tail) as [[ts t] r].
      * rewrite (bool_decide_eq_false_2 _ Hz) in Hm |- *.
        by injection Hm as <- <- <- <-.
    + rewrite (bool_decide_eq_false_2 _ Hpos) in Hm |- *. simpl.
      by injection Hm as <- <- <- <-.
Qed.

(** The index follows the queue: the entries of the makers filled to zero
    are popped, the others stay. *)
Lemma match_queue_index taker p q idx t' q' idx' trs (others : list Order) :
  match_queue taker p q idx = (t', q', idx', trs) ->
  NoDup (order_id <$> q ++ others) ->
  (forall oid e, dict_get idx oid = Some e <->
                 exists o, o ∈ q ++ others /\ index_entry o = (oid, e)) ->
  NoDup (order_id <$> q' ++ others) /\
  (forall oid e, dict_get idx' oid = Some e <->
                 exists o, o ∈ q' ++ others /\ index_entry o = (oid, e)) /\
  (forall oid e, dict_get idx' oid = Some e -> dict_get idx oid = Some e).
Proof.
  revert taker idx t' q' idx' trs.
  induction q as [|maker rest IH]; intros taker idx t' q' idx' trs;
    cbn [match_queue app].
  - intros [= <- <- <- <-] Hnd Hidx. done.
  - intros Hm Hnd Hidx.
    destruct (decide (0 < qty taker)) as [Hpos|Hpos].
    + rewrite (bool_decide_eq_true_2 _ Hpos) in Hm.
      destruct (decide (qty maker - Z.min (qty taker) (qty maker) = 0)) as [Hz|Hz].
      * rewrite (bool_decide_eq_true_2 _ Hz) in Hm.
        destruct (match_queue _ p rest _) as [[[t1 q1] idx1] trs1] eqn:E.
        injection Hm as <- <- <- <-.
        rewrite fmap_cons in Hnd. apply NoDup_cons in Hnd as [Hfresh Hnd].
        destruct (IH _ _ _ _ _ _ E Hnd) as (Hnd' & Hidx' & Hsub).
        { intros oid e. rewrite dict_get_pop. case_decide as Hid.
          - subst oid. split; [done|]. intros (o & Ho & He).
            exfalso. apply Hfresh. apply list_elem_of_fmap. exists o.
            split; [|done]. by injection He.
          - rewrite Hidx. split; intros (o & Ho & He); exists o; (split; [|done]).
            + apply elem_of_cons in Ho as [->|Ho]; [|done].
              by injection He.
            + by right. }
        split; [done|]. split; [done|].
        intros oid e Hg. apply Hsub in Hg. rewrite dict_get_pop in Hg.
        by case_decide.
      * rewrite (bool_decide_eq_false_2 _ Hz) in Hm.
        injection Hm as <- <- <- <-. split; [done|]. split; [|done].
        intros oid e. rewrite Hidx. simpl.
        split; intros (o & Ho & He); apply elem_of_cons in Ho as [->|Ho].
        -- eexists. split; [left|]. done.
        -- exists o. split; [by right | done].
        -- eexists. split; [left|]. done.
        -- exists o. split; [by right | done].
    + rewrite (bool_decide_eq_false_2 _ Hpos) in Hm.
      injection Hm as <- <- <- <-. done.
Qed.

(** ** Reading and writing one side of the book *)

Lemma opposite_ne (s : Side) : opposite s <> s.
Proof. by destruct s. Qed.

Lemma opposite_involutive (s : Side) : opposite (opposite s) = s.
Proof. by destruct s. Qed.

Lemma book_for_side_set_same b s bk lv idx :
  _book_for_side (set_order_index (set_book_for_side b s bk lv) idx) s = (bk, lv).
Proof. by destruct s. Qed.

Lemma book_for_side_set_other b s s' bk lv idx :
  s' <> s ->
  _book_for_side (set_order_index (set_book_for_side b s bk lv) idx) s' =
  _book_for_side b s'.
Proof. by destruct s, s'. Qed.

Lemma order_index_set b s bk lv idx :
  _order_index (set_order_index (set_book_for_side b s bk lv) idx) = idx.
Proof. by destruct s. Qed.

Lemma set_book_for_side_twice b s bk lv idx bk' lv' :
  set_book_for_side (set_order_index (set_book_for_side b s bk lv) idx) s bk' lv' =
  set_order_index (set_book_for_side b s bk' lv') idx.
Proof. by destruct s. Qed.

Lemma set_side_id b s :
  set_order_index (set_book_for_side b s (side_book b s) (side_levels b s))
    (_order_index b) = b.
Proof. by destruct b, s. Qed.

Lemma book_wf_side b s : book_wf b -> side_wf s (side_book b s) (side_levels b s).
Proof. intros [Hb Ha _]. by destruct s. Qed.

Lemma book_wf_empty : book_wf empty_book.
Proof.
  split; [apply side_wf_empty.. |]. intros pb pa Hpb. by apply elem_of_nil in Hpb.
Qed.

(** A side may be replaced by a well-formed side with no new level. *)
Lemma book_wf_shrink_side b s bk lv idx :
  book_wf b -> side_wf s bk lv ->
  (forall x, x ∈ lv -> x ∈ side_levels b s) ->
  book_wf (set_order_index (set_book_for_side b s bk lv) idx).
Proof.
  intros [Hb Ha Hx] Hs Hsub. destruct s; split; simpl in *; auto.
Qed.

Lemma remove_price_level_eq b s p :
  StronglySorted Qclt (side_levels b s) ->
  _remove_price_level b s p =
  set_book_for_side b s (delete p (side_book b s))
    (filter (fun x => x <> p) (side_levels b s)).
Proof.
  intros Hs. unfold _remove_price_level, side_book, side_levels in *.
  destruct (_book_for_side b s) as [book levels]. simpl in *.
  by rewrite remove_level_filter.
Qed.

Lemma all_resting_split b s :
  all_resting b ≡ₚ resting b s ++ resting b (opposite s).
Proof. destruct s; [done | apply Permutation_app_comm]. Qed.

Lemma resting_ext b b' s :
  _book_for_side b' s = _book_for_side b s -> resting b' s = resting b s.
Proof. unfold resting, side_book, side_levels. by intros ->. Qed.

(** ** One level of matching *)

Lemma match_level_eq b taker p q :
  StronglySorted Qclt (side_levels b (opposite (side taker))) ->
  match_level b taker p q =
  let s := opposite (side taker) in
  let '(t', q', idx', trs) := match_queue taker p q (_order_index b) in
  (set_order_index
     (set_book_for_side b s
        (match q' with [] => delete p (side_book b s) | _ => <[p := q']> (side_book b s) end)
        (match q' with [] => filter (fun x => x <> p) (side_levels b s)
                     | _ => side_levels b s end)) idx', t', trs).
Proof.
  intros Hs. unfold match_level, side_book, side_levels in *.
  destruct (_book_for_side b (opposite (side taker))) as [book levels] eqn:Eb.
  simpl in *.
  destruct (match_queue taker p q (_order_index b)) as [[[t' q'] idx'] trs].
  f_equal. f_equal. destruct q' as [|m q']; [|done].
  rewrite remove_price_level_eq.
  - unfold side_book, side_levels.
    rewrite book_for_side_set_same, set_book_for_side_twice. simpl.
    by rewrite delete_insert_eq.
  - unfold side_levels. by rewrite book_for_side_set_same.
Qed.

Lemma match_level_spec b taker p q b2 t' trs :
  let s := opposite (side taker) in
  book_wf b -> best_price b s = Some p -> side_book b s !! p = Some q ->
  limit_reached taker p = false ->
  match_level b taker p q = (b2, t', trs) ->
  book_wf b2 /\
  _book_for_side b2 (side taker) = _book_for_side b (side taker) /\
  (exists n, t' = set_qty taker n) /\
  (forall x, x ∈ side_levels b2 s -> x ∈ side_levels b s) /\
  ((length (side_levels b2 s) < length (side_levels b s))%nat \/ ~ 0 < qty t') /\
  fill_walk taker (resting b s) =
    (let '(ts, t, r) := fill_walk t' (resting b2 s) in (trs ++ ts, t, r)) /\
  (index_wf b ->
   index_wf b2 /\
   forall oid e, dict_get (_order_index b2) oid = Some e ->
                 dict_get (_order_index b) oid = Some e).
Proof.
  intros s Hwf Hbest Hq Hlim Hm.
  pose proof (book_wf_side b s Hwf) as Hside.
  pose proof Hside as [Hsorted Hkeys Hqs].
  destruct (Hqs p q Hq) as [Hne Hok].
  rewrite best_price_head in Hbest.
  rewrite match_level_eq in Hm by done. fold s in Hm. simpl in Hm.
  destruct (match_queue taker p q (_order_index b)) as [[[t1 q'] idx'] trs1] eqn:E.
  injection Hm as <- <- <-.
  pose proof (match_queue_ok s _ _ _ _ _ _ _ _ E Hok) as Hok'.
  assert (Hprices : Forall (fun m => price m = Some p) q).
  { eapply Forall_impl; [exact Hok|]. by intros m (_ & ? & _). }
  assert (Hqtys : Forall (fun m => 0 < qty m) q).
  { eapply Forall_impl; [exact Hok|]. by intros m (_ & _ & _ & ?). }
  set (tail := best_first s (filter (fun x => x <> p) (side_levels b s))
                 ≫= queue_at (delete p (side_book b s))).
  assert (Hrest : resting b s = q ++ tail).
  { unfold resting. rewrite (resting_split s (side_book b s) (side_book b s) _ p)
      by done. unfold queue_at at 1. by rewrite Hq. }
  set (b2 := set_order_index (set_book_for_side b s _ _) idx').
  assert (Hrest2 : resting b2 s = q' ++ tail).
  { unfold resting, side_book, side_levels, b2.
    rewrite book_for_side_set_same. simpl. destruct q' as [|m q'']; [done|].
    rewrite (resting_split s (side_book b s) _ _ p); [|done|done|].
    - unfold queue_at at 1. by rewrite lookup_insert_eq.
    - intros x Hx. by rewrite lookup_insert_ne. }
  assert (Hown : _book_for_side b2 (side taker) = _book_for_side b (side taker)).
  { unfold b2. apply book_for_side_set_other. subst s. by destruct (side taker). }
  assert (Hsub : forall x, x ∈ side_levels b2 s -> x ∈ side_levels b s).
  { unfold side_levels at 1, b2. rewrite book_for_side_set_same. simpl.
    destruct q'; [|done]. intros x Hx. by apply list_elem_of_filter in Hx as [_ ?]. }
  split; [|split; [done|split; [|split; [done|split; [|split]]]]].
  - apply book_wf_shrink_side; [done| |].
    + destruct q' as [|m q''].
      * by apply side_wf_remove.
      * apply side_wf_update; [done | by rewrite Hq | done | done].
    + intros x Hx. apply Hsub. unfold side_levels, b2.
      by rewrite book_for_side_set_same.
  - destruct (match_queue_taker _ _ _ _ _ _ _ _ E Hqtys) as (n & -> & _). eauto.
  - destruct q' as [|m q''].
    + left. unfold side_levels at 1, b2. rewrite book_for_side_set_same. simpl.
      assert (Hp : p ∈ side_levels b s) by (apply Hkeys; by rewrite Hq).
      apply list_elem_of_lookup in Hp as [i Hi].
      pose proof (length_filter_lt (fun x => x <> p) (side_levels b s) p) as Hlt.
      apply Hlt; [by apply list_elem_of_lookup_2 in Hi | tauto].
    + right. by eapply match_queue_taker_done.
  - rewrite Hrest, Hrest2.
    rewrite (match_queue_fills _ _ _ _ _ _ _ _ tail E Hprices Hlim).
    destruct q' as [|m q'']; [done|].
    rewrite fills_done by (by eapply match_queue_taker_done).
    by rewrite app_nil_r.
  - intros [Hnd Hidx].
    set (others := tail ++ resting b (side taker)).
    assert (Hperm : all_resting b ≡ₚ q ++ others).
    { rewrite (all_resting_split b s), Hrest. subst s others.
      by rewrite opposite_involutive, <- app_assoc. }
    assert (Hperm2 : all_resting b2 ≡ₚ q' ++ others).
    { rewrite (all_resting_split b2 s), Hrest2. subst s others.
      rewrite opposite_involutive, <- app_assoc.
      by rewrite (resting_ext b b2 (side taker)). }
    destruct (match_queue_index _ _ _ _ _ _ _ _ others E) as (Hnd' & Hidx' & Hsub').
    + by rewrite <- Hperm.
    + intros oid e. rewrite Hidx. by setoid_rewrite Hperm.
    + split; [split|].
      * by rewrite Hperm2.
      * intros oid e. unfold b2 at 1. rewrite order_index_set, Hidx'.
        by setoid_rewrite Hperm2.
      * unfold b2. by rewrite order_index_set.
Qed.

(** ** The outer loop of matching *)

Lemma match_loop_unfold fuel b taker :
  match_loop fuel b taker =
  if bool_decide (0 < qty taker) then
    match best_price b (opposite (side taker)) with
    | None => Return (b, taker, [])
    | Some best_price =>
        if limit_reached taker best_price then Return (b, taker, [])
        else
          match side_book b (opposite (side taker)) !! best_price with
          | None => Raise KeyError
          | Some queue =>
              let '(b2, taker', trades) := match_level b taker best_price queue in
              match fuel with
              | O => OutOfFuel
              | S fuel' =>
                  '(b3, taker3, trades3) ← match_loop fuel' b2 taker';
                  Return (b3, taker3, trades ++ trades3)
              end
          end
    end
  else Return (b, taker, []).
Proof.
  destruct fuel; simpl; unfold best_price, side_book;
    destruct (side taker); reflexivity.
Qed.

Lemma resting_nil_no_best b s :
  best_price b s = None -> resting b s = [].
Proof.
  rewrite best_price_head. intros Hh. apply head_None in Hh.
  unfold resting. by rewrite Hh.
Qed.

Lemma resting_best b s p :
  book_wf b -> best_price b s = Some p ->
  exists q tail, side_book b s !! p = Some q /\ q <> [] /\
                 Forall (order_ok s p) q /\ resting b s = q ++ tail.
Proof.
  intros Hwf Hbest. pose proof (book_wf_side b s Hwf) as [Hsorted Hkeys Hqs].
  rewrite best_price_head in Hbest.
  assert (is_Some (side_book b s !! p)) as [q Hq].
  { apply Hkeys, (best_first_elem s). by apply head_Some_elem_of. }
  destruct (Hqs p q Hq) as [Hne Hok].
  exists q. eexists. split; [done|]. split; [done|]. split; [done|].
  unfold resting. rewrite (resting_split s (side_book b s) (side_book b s) _ p)
    by done. unfold queue_at at 1. by rewrite Hq.
Qed.

Lemma fills_limit_reached taker m ms p :
  price m = Some p -> limit_reached taker p = true ->
  fill_walk taker (m :: ms) = ([], taker, m :: ms).
Proof. intros Hp Hlim. simpl. by rewrite Hp, Hlim, andb_false_r. Qed.

Local Ltac same_book b :=
  exists b; simpl; do 5 (split; [done|]); intros ?; split; [done | auto].

(** Matching is [fill_walk] on the priority list of the opposite side; it keeps
    the book well formed and leaves the taker's own side alone. *)
Lemma match_loop_spec fuel b taker :
  let s := opposite (side taker) in
  book_wf b -> (length (side_levels b s) < fuel)%nat ->
  exists b',
    match_loop fuel b taker =
      Return (b', (fill_walk taker (resting b s)).1.2, (fill_walk taker (resting b s)).1.1) /\
    book_wf b' /\
    _book_for_side b' (side taker) = _book_for_side b (side taker) /\
    resting b' s = (fill_walk taker (resting b s)).2 /\
    (forall x, x ∈ side_levels b' s -> x ∈ side_levels b s) /\
    (index_wf b ->
     index_wf b' /\
     forall oid e, dict_get (_order_index b') oid = Some e ->
                   dict_get (_order_index b) oid = Some e).
Proof.
  revert b taker. induction fuel as [|fuel IH]; intros b taker s Hwf Hlen; [lia|].
  rewrite match_loop_unfold. fold s.
  destruct (decide (0 < qty taker)) as [Hpos|Hpos];
    [rewrite (bool_decide_eq_true_2 _ Hpos)
    |rewrite (bool_decide_eq_false_2 _ Hpos), fills_done by done;
     same_book b].
  destruct (best_price b s) as [p|] eqn:Hbest;
    [|exists b; rewrite !(resting_nil_no_best b s Hbest); simpl;
      do 5 (split; [done|]); intros ?; split; [done | auto]].
  destruct (resting_best b s p Hwf Hbest) as (q & tail & Hq & Hne & Hok & Hrest).
  destruct q as [|m q]; [done|].
  assert (Hpm : price m = Some p).
  { apply Forall_cons in Hok as [(_ & ? & _) _]. done. }
  destruct (limit_reached taker p) eqn:Hlim.
  { exists b. rewrite Hrest. cbn [app].
    rewrite (fills_limit_reached taker m (q ++ tail) p Hpm Hlim). simpl.
    do 5 (split; [done|]). intros ?; split; [done | auto]. }
  rewrite Hq.
  destruct (match_level b taker p (m :: q)) as [[b2 t'] trs] eqn:Hm.
  destruct (match_level_spec b taker p (m :: q) b2 t' trs Hwf Hbest Hq Hlim Hm)
    as (Hwf2 & Hown2 & [n ->] & Hsub2 & Hmeasure & Hfills & Hidx2).
  fold s in Hsub2, Hmeasure, Hfills. rewrite Hfills.
  assert (Hside : opposite (side (set_qty taker n)) = s) by done.
  destruct Hmeasure as [Hshort|Hdone].
  - destruct (IH b2 (set_qty taker n)) as (b' & -> & Hwf' & Hown' & Hrest' & Hsub' & Hidx');
      [done | rewrite Hside; lia |].
    rewrite Hside in *. simpl in Hown'.
    destruct (fill_walk (set_qty taker n) (resting b2 s)) as [[ts t] r]. simpl in *.
    exists b'. split; [done|]. split; [done|]. split; [congruence|].
    split; [done|]. split; [auto|].
    intros Hi. destruct (Hidx2 Hi) as [Hi2 Hs2]. destruct (Hidx' Hi2) as [Hi' Hs'].
    split; [done|]. auto.
  - rewrite match_loop_unfold, (bool_decide_eq_false_2 _ Hdone).
    rewrite fills_done by done. simpl. rewrite app_nil_r.
    exists b2. do 5 (split; [done|]). done.
Qed.

(** ** Resting an order *)

Lemma insort_Permutation (l : list Qc) (p : Qc) : insort l p ≡ₚ p :: l.
Proof.
  induction l as [|y l IH]; simpl; [done|].
  case_bool_decide; [done|]. rewrite IH. apply Permutation_swap.
Qed.

Lemma best_first_Permutation (s : Side) (l : list Qc) : best_first s l ≡ₚ l.
Proof. destruct s; simpl; [apply reverse_Permutation | done]. Qed.

Lemma best_first_NoDup (s : Side) (l : list Qc) :
  StronglySorted Qclt l -> NoDup (best_first s l).
Proof. intros Hs. rewrite best_first_Permutation. by apply sorted_NoDup. Qed.

(** Appending [o] to the queue of a level that exists. *)
Lemma bind_append_perm (book : gmap Qc (list Order)) (l : list Qc) (p : Qc)
    (q : list Order) (o : Order) :
  NoDup l -> p ∈ l -> book !! p = Some q ->
  l ≫= queue_at (<[p := q ++ [o]]> book) ≡ₚ o :: (l ≫= queue_at book).
Proof.
  intros Hnd Hp Hq. induction l as [|x l IH]; [by apply elem_of_nil in Hp|].
  apply NoDup_cons in Hnd as [Hx Hnd]. rewrite !bind_cons.
  destruct (decide (x = p)) as [->|Hne].
  - rewrite (bind_queue_at_other book (<[p := q ++ [o]]> book) l).
    + unfold queue_at at 1 3. rewrite lookup_insert_eq, Hq. simpl.
      rewrite <- app_assoc. simpl. by rewrite <- Permutation_middle.
    + intros y Hy. rewrite lookup_insert_ne; [done|]. by intros ->.
  - apply elem_of_cons in Hp as [->|Hp]; [done|].
    rewrite IH by done. unfold queue_at at 1 3. rewrite lookup_insert_ne by done.
    by rewrite <- Permutation_middle.
Qed.

Lemma add_resting_spec b o p :
  book_wf b -> price o = Some p -> order_type o = LIMIT -> 0 < qty o ->
  (forall x, x ∈ side_levels b (opposite (side o)) ->
     match side o with BID => (p < x)%Qc | ASK => (x < p)%Qc end) ->
  exists b',
    _add_resting b o = Return b' /\
    book_wf b' /\
    _book_for_side b' (opposite (side o)) = _book_for_side b (opposite (side o)) /\
    (forall x, queue_at (side_book b' (side o)) x =
               if decide (x = p) then queue_at (side_book b (side o)) p ++ [o]
               else queue_at (side_book b (side o)) x) /\
    resting b' (side o) ≡ₚ o :: resting b (side o) /\
    _order_index b' = dict_set (_order_index b) (order_id o) (side o, p, owner o).
Proof.
  intros Hwf Hp Ht Hq Hcross. unfold _add_resting. rewrite Hp.
  pose proof (book_wf_side b (side o) Hwf) as Hside.
  pose proof Hside as [Hsorted Hkeys Hqs].
  unfold side_book, side_levels in *.
  destruct (_book_for_side b (side o)) as [book levels] eqn:Eb. simpl in *.
  assert (Hok : order_ok (side o) p o) by done.
  set (bl := match book !! p with
             | Some _ => (book, levels)
             | None => (<[p := []]> book, insort levels p)
             end).
  assert (Hbl : side_wf (side o) (<[p := default [] (bl.1 !! p) ++ [o]]> bl.1) bl.2
                /\ (forall x, x ∈ bl.2 -> x = p \/ x ∈ levels)
                /\ (forall x, queue_at (<[p := default [] (bl.1 !! p) ++ [o]]> bl.1) x =
                      if decide (x = p) then queue_at book p ++ [o] else queue_at book x)
                /\ best_first (side o) bl.2
                     ≫= queue_at (<[p := default [] (bl.1 !! p) ++ [o]]> bl.1)
                   ≡ₚ o :: (best_first (side o) levels ≫= queue_at book)).
  { subst bl. destruct (book !! p) as [q|] eqn:Eq; simpl.
    - rewrite Eq. simpl. destruct (Hqs p q Eq) as [Hne Hall].
      split; [|split; [|split]].
      + apply side_wf_update; [done | by rewrite Eq | by destruct q |].
        apply Forall_app. split; [done | by constructor].
      + auto.
      + intros x. unfold queue_at. case_decide as Hx.
        * subst x. by rewrite lookup_insert_eq, Eq.
        * by rewrite lookup_insert_ne.
      + apply bind_append_perm; [by apply best_first_NoDup| |done].
        apply best_first_elem, Hkeys. by rewrite Eq.
    - rewrite lookup_insert_eq, insert_insert_eq. simpl.
      split; [|split; [|split]].
      + by apply side_wf_insert.
      + intros x Hx. by apply insort_elem in Hx.
      + intros x. unfold queue_at. case_decide as Hx.
        * subst x. by rewrite lookup_insert_eq, Eq.
        * by rewrite lookup_insert_ne.
      + rewrite best_first_Permutation, insort_Permutation, bind_cons.
        unfold queue_at at 1. rewrite lookup_insert_eq. simpl.
        apply Permutation_skip. rewrite best_first_Permutation.
        rewrite (bind_queue_at_other book); [done|].
        intros x Hx. rewrite lookup_insert_ne; [done|]. intros ->.
        apply Hkeys in Hx. rewrite Eq in Hx. by destruct Hx. }
  clearbody bl. destruct bl as [book1 levels1]. simpl in Hbl.
  destruct Hbl as (Hwf1 & Hlv & Hqa & Hperm).
  eexists. split; [reflexivity|].
  split; [|split; [|split; [|split]]].
  - destruct Hwf as [Hb Ha Hx].
    destruct (side o) eqn:Es; simpl in *; injection Eb as <- <-.
    + split; simpl; [done..|]. intros pb pa Hpb Hpa.
      destruct (Hlv pb Hpb) as [->|Hin]; auto.
    + split; simpl; [done..|]. intros pb pa Hpb Hpa.
      destruct (Hlv pa Hpa) as [->|Hin]; auto.
  - apply book_for_side_set_other, opposite_ne.
  - by rewrite book_for_side_set_same.
  - unfold resting, side_book, side_levels.
    by rewrite book_for_side_set_same, Eb.
  - by rewrite order_index_set.
Qed.

(** ** Cancelling an order *)

Lemma remove_first_None oid q :
  remove_first oid q = None <-> oid ∉ order_id <$> q.
Proof.
  induction q as [|o q IH]; cbn [remove_first].
  - split; [intros _; apply not_elem_of_nil | done].
  - rewrite fmap_cons, not_elem_of_cons. case_bool_decide as Hid.
    + split; [done | intros [? _]; congruence].
    + destruct (remove_first oid q); simpl.
      * split; [done|]. intros [_ Hn]. by apply IH in Hn.
      * split; [|done]. intros _. split; [congruence | by apply IH].
Qed.

Lemma remove_first_Some oid q q' :
  remove_first oid q = Some q' ->
  exists l1 o l2, q = l1 ++ o :: l2 /\ q' = l1 ++ l2 /\ order_id o = oid.
Proof.
  revert q'. induction q as [|o q IH]; intros q'; simpl; [done|].
  case_bool_decide as Hid.
  - intros [= <-]. by exists [], o, q.
  - destruct (remove_first oid q) as [q1|]; [|done]. simpl. intros [= <-].
    destruct (IH q1 eq_refl) as (l1 & o' & l2 & -> & -> & Ho).
    by exists (o :: l1), o', l2.
Qed.

Lemma remove_first_filter oid q q' :
  NoDup (order_id <$> q) -> remove_first oid q = Some q' ->
  q' = filter (fun o => order_id o <> oid) q.
Proof.
  revert q'. induction q as [|o q IH]; intros q'; cbn [remove_first]; [done|].
  rewrite fmap_cons, NoDup_cons. intros [Hfresh Hnd]. case_bool_decide as Hid.
  - intros [= <-]. rewrite filter_cons_False by auto.
    symmetry. apply filter_id_Forall, Forall_forall. intros x Hx Hxid.
    apply Hfresh. rewrite Hid, <- Hxid. by apply list_elem_of_fmap_2.
  - destruct (remove_first oid q) as [q1|]; [|done]. simpl. intros [= <-].
    rewrite filter_cons_True by done. f_equal. by apply IH.
Qed.

Lemma remove_first_Forall (P : Order -> Prop) oid q q' :
  remove_first oid q = Some q' -> Forall P q -> Forall P q'.
Proof.
  intros Hr Hall. apply remove_first_Some in Hr as (l1 & o & l2 & -> & -> & _).
  apply Forall_app in Hall as [H1 H2]. apply Forall_cons in H2 as [_ H2].
  apply Forall_app. done.
Qed.

(** [cancel] keeps the book well formed, whatever the index says. *)
Lemma cancel_book_wf b oid : book_wf b -> book_wf (cancel b oid).2.
Proof.
  intros Hwf. unfold cancel.
  destruct (dict_get (_order_index b) oid) as [[[s p] ow]|]; [|done].
  pose proof (book_wf_side b s Hwf) as Hside.
  pose proof Hside as [Hsorted Hkeys Hqs].
  unfold side_book, side_levels in *.
  destruct (_book_for_side b s) as [book levels] eqn:Eb. simpl in *.
  assert (Hidx : forall idx, book_wf (set_order_index b idx)).
  { intros idx. by destruct Hwf. }
  destruct (book !! p) as [q|] eqn:Eq; [|apply Hidx].
  destruct (remove_first oid q) as [q'|] eqn:Er; [|apply Hidx]. simpl.
  destruct (Hqs p q Eq) as [Hne Hall].
  pose proof (remove_first_Forall _ _ _ _ Er Hall) as Hall'.
  destruct q' as [|m q'].
  - rewrite remove_price_level_eq
      by (unfold side_levels; by rewrite book_for_side_set_same).
    unfold side_book, side_levels.
    rewrite book_for_side_set_same, set_book_for_side_twice. simpl.
    rewrite delete_insert_eq. apply book_wf_shrink_side; [done| |].
    + by apply side_wf_remove.
    + unfold side_levels. rewrite Eb. simpl. intros x Hx.
      by apply list_elem_of_filter in Hx as [_ ?].
  - apply book_wf_shrink_side; [done| |].
    + apply side_wf_update; [done | by rewrite Eq | done | done].
    + unfold side_levels. by rewrite Eb.
Qed.

Lemma filter_bind {X Y} (P : Y -> Prop) `{forall y, Decision (P y)}
    (g : X -> list Y) (l : list X) :
  filter P (l ≫= g) = l ≫= (fun x => filter P (g x)).
Proof.
  induction l as [|x l IH]; [done|]. by rewrite !bind_cons, filter_app, IH.
Qed.

(** The priority list of a side after one queue has lost the orders that
    fail [P], the level going with its last order. *)
Lemma bind_filter_level (P : Order -> Prop) `{forall o, Decision (P o)}
    (book book' : gmap Qc (list Order)) (p : Qc) (q' : list Order) (L : list Qc) :
  (forall x, x ∈ L -> x <> p ->
     queue_at book' x = queue_at book x /\ Forall P (queue_at book x)) ->
  filter P (queue_at book p) = q' ->
  (q' <> [] -> queue_at book' p = q') ->
  (match q' with [] => filter (fun x => x <> p) L | _ => L end) ≫= queue_at book' =
  filter P (L ≫= queue_at book).
Proof.
  intros Hother Hq Hq'. rewrite filter_bind.
  induction L as [|x L IH]; [by destruct q'|].
  specialize (IH ltac:(intros y Hy; apply Hother; by right)).
  rewrite bind_cons. destruct (decide (x = p)) as [->|Hne].
  - rewrite Hq. destruct q' as [|m q'].
    + by rewrite filter_cons_False by auto.
    + rewrite bind_cons, Hq' by done. by f_equal.
  - destruct (Hother x) as [Hsame Hall]; [left | done |].
    rewrite (filter_id_Forall P _ Hall), <- Hsame.
    destruct q' as [|m q'].
    + rewrite filter_cons_True by done. rewrite bind_cons. by f_equal.
    + rewrite bind_cons. by f_equal.
Qed.

(** ** The index *)

Lemma NoDup_fmap_eq {X Y} (f : X -> Y) (l : list X) (x y : X) :
  NoDup (f <$> l) -> x ∈ l -> y ∈ l -> f x = f y -> x = y.
Proof.
  induction l as [|z l IH]; [by intros _ Hx; apply elem_of_nil in Hx|].
  rewrite fmap_cons, NoDup_cons, !elem_of_cons.
  intros [Hz Hnd] [->|Hx] [->|Hy] Hf; auto.
  - exfalso. apply Hz. rewrite Hf. by apply list_elem_of_fmap_2.
  - exfalso. apply Hz. rewrite <- Hf. by apply list_elem_of_fmap_2.
Qed.

Lemma NoDup_fmap_filter {X Y} (f : X -> Y) (P : X -> Prop)
    `{forall x, Decision (P x)} (l : list X) :
  NoDup (f <$> l) -> NoDup (f <$> filter P l).
Proof.
  intros Hnd. eapply sublist_NoDup; [exact Hnd|].
  apply fmap_sublist, sublist_filter.
Qed.

Lemma sublist_bind_elem {X Y} (g : X -> list Y) (l : list X) (x : X) :
  x ∈ l -> g x `sublist_of` l ≫= g.
Proof.
  induction l as [|y l IH]; [by intros Hx; apply elem_of_nil in Hx|].
  rewrite bind_cons. intros [->|Hx]%elem_of_cons.
  - by apply sublist_inserts_r.
  - by apply sublist_inserts_l, IH.
Qed.

Lemma queue_sublist_all_resting b s p q :
  book_wf b -> side_book b s !! p = Some q -> q `sublist_of` all_resting b.
Proof.
  intros Hwf Hq. pose proof (book_wf_side b s Hwf) as [_ Hkeys _].
  trans (resting b s).
  - unfold resting.
    replace q with (queue_at (side_book b s) p) by (unfold queue_at; by rewrite Hq).
    apply sublist_bind_elem, best_first_elem, Hkeys. by rewrite Hq.
  - unfold all_resting. destruct s.
    + by apply sublist_inserts_r.
    + by apply sublist_inserts_l.
Qed.

Lemma index_wf_empty : index_wf empty_book.
Proof.
  split; [constructor|]. intros oid e. simpl. split; [done|].
  intros (o & Ho & _). by apply elem_of_nil in Ho.
Qed.

Lemma index_wf_keys b oid :
  index_wf b -> oid ∈ open_orders b None <-> oid ∈ order_id <$> all_resting b.
Proof.
  intros [_ Hidx]. simpl. rewrite <- dict_get_is_Some. split.
  - intros [e He]. apply Hidx in He as (o & Ho & [= <- _]).
    by apply list_elem_of_fmap_2.
  - intros (o & -> & Ho)%list_elem_of_fmap.
    exists (index_entry o).2. apply Hidx. exists o. by split.
Qed.

Lemma index_wf_add b b' o p :
  index_wf b -> price o = Some p ->
  order_id o ∉ open_orders b None ->
  all_resting b' ≡ₚ o :: all_resting b ->
  _order_index b' = dict_set (_order_index b) (order_id o) (side o, p, owner o) ->
  index_wf b'.
Proof.
  intros Hi Hp Hfresh Hperm Hidx'. pose proof Hi as [Hnd Hidx]. split.
  - rewrite Hperm, fmap_cons. apply NoDup_cons. split; [|done].
    by rewrite <- index_wf_keys.
  - intros oid e. rewrite Hidx', dict_get_set. setoid_rewrite Hperm.
    case_decide as Hid.
    + subst oid. split.
      * intros [= <-]. exists o. split; [left|].
        unfold index_entry. by rewrite Hp.
      * intros (o' & Ho' & He). apply elem_of_cons in Ho' as [->|Ho'].
        -- unfold index_entry in He. rewrite Hp in He. simpl in He. congruence.
        -- exfalso. apply Hfresh, index_wf_keys; [done|].
           injection He as <- _. by apply list_elem_of_fmap_2.
    + rewrite Hidx. split; intros (o' & Ho' & He); exists o'.
      * split; [by right | done].
      * split; [|done]. apply elem_of_cons in Ho' as [->|Ho']; [|done].
        injection He as He _. done.
Qed.

Lemma index_wf_remove b b' oid :
  index_wf b ->
  all_resting b' = filter (fun o => order_id o <> oid) (all_resting b) ->
  _order_index b' = dict_pop (_order_index b) oid ->
  index_wf b'.
Proof.
  intros [Hnd Hidx] Hrest Hidx'. split.
  - rewrite Hrest. by apply NoDup_fmap_filter.
  - intros k e. rewrite Hidx', Hrest, dict_get_pop. case_decide as Hk.
    + subst k. split; [done|]. intros (o & Ho & He).
      apply list_elem_of_filter in Ho as [Hne _]. by injection He.
    + rewrite Hidx. split; intros (o & Ho & He); exists o; (split; [|done]).
      * apply list_elem_of_filter. split; [|done]. injection He as He _. congruence.
      * by apply list_elem_of_filter in Ho as [_ ?].
Qed.

(** Where a resting order sits. *)
Lemma resting_order_ok b s o :
  book_wf b -> o ∈ resting b s ->
  exists p q, side_book b s !! p = Some q /\ o ∈ q /\ order_ok s p o.
Proof.
  intros Hwf Ho. pose proof (book_wf_side b s Hwf) as Hside.
  apply (resting_elem s _ _ o Hside) in Ho as (p & q & Hq & Ho).
  exists p, q. split; [done|]. split; [done|].
  destruct Hside as [_ _ Hqs]. destruct (Hqs p q Hq) as [_ Hall].
  rewrite Forall_forall in Hall. auto.
Qed.

Lemma all_resting_elem b o :
  o ∈ all_resting b <-> o ∈ resting b (side o) \/ o ∈ resting b (opposite (side o)).
Proof.
  unfold all_resting. rewrite elem_of_app. destruct (side o); simpl; tauto.
Qed.

Lemma all_resting_side b o :
  book_wf b -> o ∈ all_resting b -> o ∈ resting b (side o).
Proof.
  intros Hwf [Ho|Ho]%all_resting_elem; [done|].
  apply resting_order_ok in Ho as (p & q & _ & _ & Hs & _); [|done].
  by destruct (side o).
Qed.

Lemma cancel_eq b oid s p ow q q' :
  StronglySorted Qclt (side_levels b s) ->
  dict_get (_order_index b) oid = Some (s, p, ow) ->
  side_book b s !! p = Some q ->
  remove_first oid q = Some q' ->
  cancel b oid =
  (true,
   set_order_index
     (set_book_for_side b s
        (match q' with [] => delete p (side_book b s) | _ => <[p := q']> (side_book b s) end)
        (match q' with [] => filter (fun x => x <> p) (side_levels b s)
                     | _ => side_levels b s end))
     (dict_pop (_order_index b) oid)).
Proof.
  intros Hs Hg Hq Hr. unfold cancel, side_book, side_levels in *. rewrite Hg.
  destruct (_book_for_side b s) as [book levels] eqn:Eb. simpl in *.
  rewrite Hq, Hr. f_equal. destruct q' as [|m q']; [|done].
  rewrite remove_price_level_eq
    by (unfold side_levels; by rewrite book_for_side_set_same).
  unfold side_book, side_levels.
  rewrite book_for_side_set_same, set_book_for_side_twice. simpl.
  by rewrite delete_insert_eq.
Qed.

Lemma best_first_filter (P : Qc -> Prop) `{forall x, Decision (P x)} s l :
  best_first s (filter P l) = filter P (best_first s l).
Proof. destruct s; simpl; [by rewrite filter_reverse | done]. Qed.

Lemma cancel_spec b oid :
  book_wf b -> index_wf b ->
  if decide (oid ∈ order_id <$> all_resting b) then
    exists b', cancel b oid = (true, b') /\ book_wf b' /\ index_wf b' /\
      (forall s, resting b' s = filter (fun o => order_id o <> oid) (resting b s)) /\
      _order_index b' = dict_pop (_order_index b) oid
  else cancel b oid = (false, b).
Proof.
  intros Hwf Hi. pose proof Hi as [Hnd Hidx].
  case_decide as Hin.
  2:{ unfold cancel. destruct (dict_get (_order_index b) oid) as [e|] eqn:Eg; [|done].
      exfalso. apply Hin, index_wf_keys; [done|]. simpl.
      apply dict_get_is_Some. by rewrite Eg. }
  apply list_elem_of_fmap in Hin as (o & -> & Ho).
  pose proof (cancel_book_wf b (order_id o) Hwf) as Hwf'.
  assert (Hg : dict_get (_order_index b) (order_id o) = Some (index_entry o).2).
  { apply Hidx. exists o. by split. }
  pose proof (all_resting_side b o Hwf Ho) as Hos.
  destruct (resting_order_ok b (side o) o Hwf Hos) as (p & q & Hq & Hoq & Hok).
  pose proof Hok as (_ & Hp & _).
  unfold index_entry in Hg. rewrite Hp in Hg. simpl in Hg.
  pose proof (book_wf_side b (side o) Hwf) as Hside.
  pose proof Hside as [Hsorted Hkeys Hqs].
  assert (Hndq : forall x, x ∈ all_resting b -> order_id x = order_id o -> x = o).
  { intros x Hx Hid. by apply (NoDup_fmap_eq order_id (all_resting b)). }
  destruct (remove_first (order_id o) q) as [q'|] eqn:Er.
  2:{ apply remove_first_None in Er. exfalso. apply Er. by apply list_elem_of_fmap_2. }
  assert (Hq' : q' = filter (fun x => order_id x <> order_id o) q).
  { apply remove_first_filter; [|done].
    apply (sublist_NoDup _ (order_id <$> all_resting b)); [done|].
    apply fmap_sublist. by apply (queue_sublist_all_resting b (side o) p). }
  rewrite (cancel_eq b _ _ _ _ _ _ Hsorted Hg Hq Er) in Hwf' |- *. simpl in Hwf'.
  set (b' := set_order_index _ _) in *.
  exists b'. split; [done|]. split; [done|].
  assert (Hrest : forall s,
    resting b' s = filter (fun o0 => order_id o0 <> order_id o) (resting b s)).
  { intros s. destruct (decide (s = side o)) as [->|Hs].
    - unfold resting at 1, side_book at 1, side_levels at 1, b'.
      rewrite book_for_side_set_same. simpl.
      replace (best_first (side o) match q' with
                 | [] => filter (fun x => x <> p) (side_levels b (side o))
                 | _ :: _ => side_levels b (side o) end)
        with (match q' with
              | [] => filter (fun x => x <> p) (best_first (side o) (side_levels b (side o)))
              | _ => best_first (side o) (side_levels b (side o)) end)
        by (destruct q'; [by rewrite best_first_filter | done]).
      unfold resting.
      apply bind_filter_level.
      + intros x Hx Hne. split.
        * unfold queue_at. destruct q'; [by rewrite lookup_delete_ne|
            by rewrite lookup_insert_ne].
        * apply Forall_forall. intros y Hy Hid.
          unfold queue_at in Hy.
          destruct (side_book b (side o) !! x) as [qx|] eqn:Eqx;
            [|by apply elem_of_nil in Hy]. simpl in Hy.
          assert (y = o) as ->.
          { apply Hndq; [|done].
            eapply elem_of_sublist; [exact Hy|].
            by apply (queue_sublist_all_resting b (side o) x). }
          destruct (Hqs x qx Eqx) as [_ Hall]. rewrite Forall_forall in Hall.
          destruct (Hall o Hy) as (_ & Hpx & _). congruence.
      + unfold queue_at. by rewrite Hq.
      + intros Hne. unfold queue_at. destruct q'; [done|].
        by rewrite lookup_insert_eq.
    - rewrite (resting_ext b b' s)
        by (unfold b'; by apply book_for_side_set_other).
      symmetry. apply filter_id_Forall, Forall_forall. intros y Hy Hid.
      assert (y = o) as ->.
      { apply Hndq; [|done]. unfold all_resting. rewrite elem_of_app.
        destruct s; auto. }
      apply resting_order_ok in Hy as (_ & _ & _ & _ & Hsy & _); done. }
  split; [|split; [done|]].
  - apply (index_wf_remove b b' (order_id o) Hi).
    + unfold all_resting. by rewrite filter_app, !Hrest.
    + unfold b'. by rewrite order_index_set.
  - unfold b'. by rewrite order_index_set.
Qed.

(** ** [fill_walk] *)

Lemma fills_taker taker ms :
  exists n, (fill_walk taker ms).1.2 = set_qty taker n.
Proof.
  revert taker. induction ms as [|m ms IH]; intros taker; simpl.
  - exists (qty taker). by rewrite set_qty_id.
  - destruct (price m) as [p|]; [|exists (qty taker); by rewrite set_qty_id].
    destruct (bool_decide (0 < qty taker) && negb (limit_reached taker p));
      [|exists (qty taker); by rewrite set_qty_id].
    case_bool_decide; [|by eexists].
    destruct (IH (set_qty taker (qty taker - Z.min (qty taker) (qty m)))) as [n Hn].
    destruct (fill_walk _ ms) as [[ts t] r]. simpl in *. subst t. by exists n.
Qed.

(** When the walk stops with quantity left, the list is empty or the next
    maker is beyond the limit. *)
Lemma fills_exit taker ms :
  Forall (fun m => is_Some (price m)) ms ->
  0 < qty (fill_walk taker ms).1.2 ->
  match (fill_walk taker ms).2 with
  | [] => True
  | m :: _ => exists p, price m = Some p /\ limit_reached taker p = true
  end.
Proof.
  revert taker. induction ms as [|m ms IH]; intros taker Hall; simpl; [done|].
  apply Forall_cons in Hall as [[p Hp] Hall]. rewrite Hp.
  destruct (decide (0 < qty taker)) as [Hpos|Hpos].
  - rewrite (bool_decide_eq_true_2 _ Hpos). simpl.
    destruct (limit_reached taker p) eqn:Hlim; simpl.
    + intros _. rewrite Hp. eauto.
    + case_bool_decide as Hz.
      * specialize (IH (set_qty taker (qty taker - Z.min (qty taker) (qty m))) Hall).
        destruct (fill_walk _ ms) as [[ts t] r]. simpl in *. done.
      * simpl. lia.
  - rewrite (bool_decide_eq_false_2 _ Hpos). simpl. lia.
Qed.

(** ** [add_order] *)

Lemma resting_prices b s :
  book_wf b -> Forall (fun m => is_Some (price m)) (resting b s).
Proof.
  intros Hwf. apply Forall_forall. intros m Hm.
  apply resting_order_ok in Hm as (p & q & _ & _ & _ & Hp & _); [|done].
  by rewrite Hp.
Qed.

Lemma resting_head_best b s m :
  book_wf b -> head (resting b s) = Some m ->
  exists p, best_price b s = Some p /\ price m = Some p.
Proof.
  intros Hwf Hh. destruct (best_price b s) as [p|] eqn:Hbest.
  - destruct (resting_best b s p Hwf Hbest) as (q & tail & Hq & Hne & Hok & Hrest).
    rewrite Hrest in Hh. destruct q as [|m' q]; [done|]. simpl in Hh.
    injection Hh as ->. apply Forall_cons in Hok as [(_ & ? & _) _]. eauto.
  - by rewrite (resting_nil_no_best b s Hbest) in Hh.
Qed.

(** An order that stops matching with quantity left does not cross. *)
Lemma not_crossing b t p :
  let s := opposite (side t) in
  book_wf b -> price t = Some p -> order_type t = LIMIT ->
  match resting b s with
  | [] => True
  | m :: _ => exists pm, price m = Some pm /\ limit_reached t pm = true
  end ->
  forall x, x ∈ side_levels b s ->
    match side t with BID => (p < x)%Qc | ASK => (x < p)%Qc end.
Proof.
  intros s Hwf Hp Ht Hexit x Hx.
  pose proof (book_wf_side b s Hwf) as [Hsorted Hkeys Hqs].
  destruct (resting b s) as [|m ms] eqn:Hr.
  - exfalso. destruct (best_price b s) as [pb|] eqn:Hbest.
    + destruct (resting_best b s pb Hwf Hbest) as (q & tail & _ & Hne & _ & Hrest).
      rewrite Hr in Hrest. by destruct q.
    + rewrite best_price_head in Hbest. apply head_None in Hbest.
      apply (best_first_elem s) in Hx. rewrite Hbest in Hx.
      by apply elem_of_nil in Hx.
  - destruct Hexit as (pm & Hpm & Hlim).
    destruct (resting_head_best b s m Hwf) as (pb & Hbest & Hpb);
      [by rewrite Hr|].
    assert (pm = pb) as -> by congruence.
    rewrite best_price_head in Hbest.
    pose proof (best_is_extreme s _ pb x Hsorted Hbest Hx) as Hext.
    unfold limit_reached in Hlim. rewrite Ht, Hp in Hlim. subst s.
    destruct (side t); simpl in *; case_bool_decide; try done; qc_order.
Qed.

(** The first half of [add_order]: matching when the order is marketable. *)
Lemma add_order_match b o :
  let s := opposite (side o) in
  book_wf b -> valid_order o ->
  exists b1,
    (if bool_decide (order_type o = MARKET) || _is_marketable b o
     then _match b o else Return (b, o, [])) =
      Return (b1, (fill_walk o (resting b s)).1.2, (fill_walk o (resting b s)).1.1) /\
    book_wf b1 /\
    _book_for_side b1 (side o) = _book_for_side b (side o) /\
    resting b1 s = (fill_walk o (resting b s)).2 /\
    (index_wf b ->
     index_wf b1 /\
     forall oid e, dict_get (_order_index b1) oid = Some e ->
                   dict_get (_order_index b) oid = Some e).
Proof.
  intros s Hwf [Hq Hlimit].
  destruct (bool_decide (order_type o = MARKET) || _is_marketable b o) eqn:Hm.
  - destruct (match_loop_spec (S (length (side_levels b s))) b o Hwf)
      as (b1 & Hr & Hwf1 & Hown & Hrest & _ & Hidx); [fold s; lia|].
    exists b1. done.
  - apply orb_false_iff in Hm as [Hty Hmk].
    apply bool_decide_eq_false in Hty.
    assert (Hl : order_type o = LIMIT) by (by destruct (order_type o)).
    destruct (Hlimit Hl) as [p Hp].
    assert (Hf : fill_walk o (resting b s) = ([], o, resting b s)).
    { destruct (resting b s) as [|m ms] eqn:Hr; [done|].
      destruct (resting_head_best b s m Hwf) as (pb & Hbest & Hpb);
        [by rewrite Hr|].
      apply (fills_limit_reached _ _ _ pb); [done|].
      unfold _is_marketable in Hmk. unfold limit_reached.
      rewrite Hl, Hp in *. subst s.
      destruct (side o); simpl in *; rewrite Hbest in Hmk.
      - destruct (best_bid b); apply bool_decide_eq_false in Hmk;
          apply bool_decide_eq_true; qc_order.
      - apply bool_decide_eq_false in Hmk. apply bool_decide_eq_true. qc_order. }
    exists b. rewrite Hf. simpl. do 4 (split; [done|]). intros ?. split; [done|auto].
Qed.

(** [add_order]: its trades and the order it hands back are those of
    [fill_walk] on the priority list of the opposite side; what is left of a
    limit order joins the end of the queue of its price. *)
Lemma add_order_spec b o :
  let s := opposite (side o) in
  let F := fill_walk o (resting b s) in
  book_wf b -> valid_order o ->
  exists b',
    add_order b o = Return (F.1.1, b', F.1.2) /\
    book_wf b' /\
    resting b' s = F.2 /\
    (if bool_decide (order_type o = LIMIT /\ 0 < qty F.1.2) then
       resting b' (side o) ≡ₚ F.1.2 :: resting b (side o) /\
       (forall x, queue_at (side_book b' (side o)) x =
                  if decide (price o = Some x)
                  then queue_at (side_book b (side o)) x ++ [F.1.2]
                  else queue_at (side_book b (side o)) x)
     else _book_for_side b' (side o) = _book_for_side b (side o)) /\
    (index_wf b -> order_id o ∉ open_orders b None ->
     index_wf b' /\
     forall oid e, dict_get (_order_index b') oid = Some e ->
       dict_get (_order_index b) oid = Some e \/
       (oid = order_id o /\ order_type o = LIMIT /\ 0 < qty F.1.2)).
Proof.
  intros s F Hwf Hvalid.
  destruct (add_order_match b o Hwf Hvalid) as (b1 & Hm & Hwf1 & Hown & Hrest & Hidx).
  fold s in Hm, Hrest. fold F in Hm, Hrest.
  unfold add_order. rewrite Hm. simpl.
  destruct (fills_taker o (resting b s)) as [n Hn]. fold F in Hn.
  pose proof (fills_exit o (resting b s) (resting_prices b s Hwf)) as Hexit.
  fold F in Hexit.
  destruct F as [[ts o'] r]. simpl in *. subst o'. simpl.
  destruct (decide (order_type o = LIMIT /\ 0 < n)) as [[Hl Hpos]|Hno].
  - rewrite !bool_decide_eq_true_2 by done.
    destruct Hvalid as [_ Hlimit]. destruct (Hlimit Hl) as [p Hp].
    destruct (add_resting_spec b1 (set_qty o n) p Hwf1 Hp Hl Hpos)
      as (b2 & -> & Hwf2 & Hopp & Hqa & Hperm & Hidx2).
    { apply (not_crossing b1 (set_qty o n) p Hwf1 Hp Hl). simpl. fold s.
      rewrite Hrest. by apply Hexit. }
    simpl in *. fold s in Hopp. exists b2. split; [done|]. split; [done|].
    split; [by rewrite (resting_ext b1 b2 s), Hrest|]. split; [split|].
    + by rewrite Hperm, (resting_ext b b1 (side o)).
    + intros x. rewrite Hqa. unfold side_book. rewrite Hown. rewrite Hp.
      repeat case_decide; subst; try done; congruence.
    + intros Hi Hfresh. destruct (Hidx Hi) as [Hi1 Hsub].
      assert (Hfresh1 : order_id o ∉ open_orders b1 None).
      { simpl in *. rewrite <- dict_get_is_Some in *. intros [e He].
        apply Hfresh. exists e. auto. }
      split.
      * apply (index_wf_add b1 b2 (set_qty o n) p Hi1 Hp Hfresh1); [|done].
        unfold all_resting. destruct (side o) eqn:Es; simpl in *.
        -- by rewrite Hperm, (resting_ext b1 b2 ASK).
        -- rewrite Hperm, (resting_ext b1 b2 BID) by done.
           by rewrite Permutation_middle.
      * intros oid e. rewrite Hidx2, dict_get_set. simpl.
        destruct (decide (order_id o = oid)) as [<-|Hne].
        -- intros _. right. done.
        -- intros He. left. auto.
  - rewrite !bool_decide_eq_false_2 by done. simpl.
    exists b1. do 4 (split; [done|]).
    intros Hi Hfresh. destruct (Hidx Hi) as [Hi1 Hsub]. split; [done|]. auto.
Qed.

(** ** The books the interface produces are well formed *)

Lemma reachable_wf b : reachable b -> book_wf b.
Proof.
  induction 1 as [|b o trades b' o' _ IH Hvalid Hadd|b oid r b' _ IH Hc].
  - apply book_wf_empty.
  - destruct (add_order_spec b o IH Hvalid) as (b2 & Hadd2 & Hwf2 & _).
    rewrite Hadd in Hadd2. by injection Hadd2 as _ -> _.
  - pose proof (cancel_book_wf b oid IH) as Hwf. by rewrite Hc in Hwf.
Qed.

Lemma reachable_fresh_wf b : reachable_fresh b -> book_wf b /\ index_wf b.
Proof.
  induction 1 as [|b o trades b' o' _ [IH IHi] Hvalid Hfresh Hadd
                  |b oid r b' _ [IH IHi] Hc].
  - split; [apply book_wf_empty | apply index_wf_empty].
  - destruct (add_order_spec b o IH Hvalid) as (b2 & Hadd2 & Hwf2 & _ & _ & Hidx).
    rewrite Hadd in Hadd2. injection Hadd2 as _ -> _.
    split; [done|]. by apply Hidx.
  - pose proof (cancel_spec b oid IH IHi) as Hspec. case_decide.
    + destruct Hspec as (b2 & Hc2 & Hwf2 & Hi2 & _). rewrite Hc in Hc2.
      by injection Hc2 as _ ->.
    + rewrite Hc in Hspec. by injection Hspec as _ ->.
Qed.

Lemma reachable_fresh_reachable b : reachable_fresh b -> reachable b.
Proof.
  induction 1; [constructor | by eapply reach_add | by eapply reach_cancel].
Qed.

(** ** What the trades of [fill_walk] look like *)

Lemma fills_trades_inv taker ms l1 t l2 :
  Forall (fun m => 0 < qty m) ms ->
  (fill_walk taker ms).1.1 = l1 ++ t :: l2 ->
  exists ms1 m ms2,
    ms = ms1 ++ m :: ms2 /\
    Forall2 full_fill l1 ms1 /\
    maker_order_id t = order_id m /\
    price m = Some (trade_price t) /\
    limit_reached taker (trade_price t) = false /\
    1 <= trade_qty t /\
    trade_qty t = Z.min (qty taker - total_qty l1) (qty m) /\
    (l2 <> [] -> trade_qty t = qty m) /\
    taker_order_id t = order_id taker /\
    taker_side t = side taker /\
    taker_owner t = owner taker /\
    maker_owner t = owner m.
Proof.
  revert taker l1. induction ms as [|m0 ms IH]; intros taker l1 Hall; simpl.
  - by destruct l1.
  - apply Forall_cons in Hall as [Hm0 Hall].
    destruct (price m0) as [p|] eqn:Hp; [|by destruct l1].
    destruct (decide (0 < qty taker)) as [Hpos|Hpos];
      [rewrite (bool_decide_eq_true_2 _ Hpos)
      |rewrite (bool_decide_eq_false_2 _ Hpos); by destruct l1].
    destruct (limit_reached taker p) eqn:Hlim; simpl; [by destruct l1|].
    destruct (decide (qty m0 - Z.min (qty taker) (qty m0) = 0)) as [Hz|Hz].
    + rewrite (bool_decide_eq_true_2 _ Hz).
      specialize (IH (set_qty taker (qty taker - Z.min (qty taker) (qty m0)))).
      destruct (fill_walk _ ms) as [[ts t'] r]. simpl in *.
      destruct l1 as [|t0 l1]; simpl.
      * intros [= <- <-]. exists [], m0, ms. simpl.
        split; [done|]. split; [constructor|].
        repeat split; try done; try lia.
      * intros [= <- ->].
        destruct (IH l1 Hall eq_refl) as (ms1 & m & ms2 & -> & HF & Hid & Hpm & Hl
          & Hq1 & Hq2 & Hq3 & Hrest).
        exists (m0 :: ms1), m, ms2. split; [done|]. split.
        { constructor; [|done]. repeat split; simpl; [lia | done]. }
        simpl in *. repeat split; try tauto; try done; try lia.
    + rewrite (bool_decide_eq_false_2 _ Hz). simpl.
      destruct l1 as [|t0 l1]; simpl; [|by destruct l1].
      intros [= <- <-]. exists [], m0, ms. simpl.
      split; [done|]. split; [constructor|].
      repeat split; try done; try lia.
Qed.

(** A market order takes all there is, up to its quantity. *)
Lemma fills_market taker ms :
  order_type taker = MARKET ->
  Forall (fun m => 0 < qty m /\ is_Some (price m)) ms -> 0 <= qty taker ->
  total_qty (fill_walk taker ms).1.1 = Z.min (qty taker) (sum_qty ms) /\
  qty (fill_walk taker ms).1.2 = qty taker - total_qty (fill_walk taker ms).1.1 /\
  (sum_qty ms < qty taker -> (fill_walk taker ms).2 = []) /\
  0 <= sum_qty ms.
Proof.
  intros Hty. revert taker Hty.
  induction ms as [|m ms IH]; intros taker Hty Hall Hq; simpl.
  - repeat split; lia.
  - apply Forall_cons in Hall as [[Hm [p Hp]] Hall]. rewrite Hp.
    assert (Hlim : limit_reached taker p = false).
    { unfold limit_reached. by rewrite Hty. }
    rewrite Hlim. simpl.
    specialize (IH (set_qty taker (qty taker - Z.min (qty taker) (qty m))) Hty Hall).
    simpl in IH.
    destruct (decide (0 < qty taker)) as [Hpos|Hpos].
    + rewrite (bool_decide_eq_true_2 _ Hpos).
      destruct (IH ltac:(lia)) as (IH1 & IH2 & IH3 & IH4).
      case_bool_decide as Hz.
      * destruct (fill_walk _ ms) as [[ts t'] r]. simpl in *.
        repeat split; try lia. intros Hlt. apply IH3. lia.
      * simpl. repeat split; try lia.
    + rewrite (bool_decide_eq_false_2 _ Hpos). simpl.
      destruct (IH ltac:(lia)) as (_ & _ & _ & IH4).
      repeat split; try lia.
Qed.

(** ** The priority list is ordered by price *)

Lemma best_first_sorted s levels :
  StronglySorted Qclt levels ->
  StronglySorted (fun p1 p2 => no_worse s p1 p2 /\ p1 <> p2) (best_first s levels).
Proof.
  intros Hs. destruct s; simpl.
  - induction Hs as [|x l Hs IH Hall]; [constructor|].
    rewrite reverse_cons. apply StronglySorted_app. split; [|split; [done|]].
    + intros x1 x2 Hx1 ->%list_elem_of_singleton. rewrite elem_of_reverse in Hx1.
      rewrite Forall_forall in Hall. apply Hall in Hx1.
      split; [|intros ->]; qc_order.
    + repeat constructor.
  - induction Hs as [|x l Hs IH Hall]; constructor; [done|].
    eapply Forall_impl; [exact Hall|]. simpl.
    intros y Hxy. split; [|intros ->]; qc_order.
Qed.

Lemma resting_sorted b s :
  book_wf b -> StronglySorted (priced_no_worse s) (resting b s).
Proof.
  intros Hwf. pose proof (book_wf_side b s Hwf) as [Hsorted Hkeys Hqs].
  assert (Hq : forall x o, o ∈ queue_at (side_book b s) x -> price o = Some x).
  { intros x o Ho. unfold queue_at in Ho.
    destruct (side_book b s !! x) as [q|] eqn:Eq; [|by apply elem_of_nil in Ho].
    destruct (Hqs x q Eq) as [_ Hall]. rewrite Forall_forall in Hall.
    by destruct (Hall o Ho) as (_ & ? & _). }
  unfold resting. pose proof (best_first_sorted s _ Hsorted) as HL.
  induction HL as [|x L HL IH Hall]; [constructor|].
  rewrite bind_cons. apply StronglySorted_app. split; [|split; [|done]].
  - intros o1 o2 Ho1 Ho2. apply list_elem_of_bind in Ho2 as (y & Ho2 & Hy).
    rewrite Forall_forall in Hall. destruct (Hall y Hy) as [Hle _].
    exists x, y. auto.
  - assert (Hsame : Forall (fun o => price o = Some x) (queue_at (side_book b s) x)).
    { apply Forall_forall. auto. }
    induction Hsame as [|o q Ho Hsame IHq]; constructor; [done|].
    eapply Forall_impl; [exact Hsame|]. simpl. intros o2 Ho2.
    exists x, x. split; [done|]. split; [done|]. destruct s; simpl; qc_order.
Qed.

(** ** Auxiliary facts on lists *)

Lemma NoDup_split_unique {X} (l1 l2 k1 k2 : list X) (x : X) :
  NoDup (l1 ++ x :: l2) -> l1 ++ x :: l2 = k1 ++ x :: k2 -> l1 = k1 /\ l2 = k2.
Proof.
  revert k1. induction l1 as [|y l1 IH]; intros k1 Hnd Heq.
  - destruct k1 as [|z k1]; simpl in *.
    + by injection Heq as ->.
    + injection Heq as <- ->. apply NoDup_cons in Hnd as [Hx _].
      exfalso. apply Hx. apply elem_of_app. right. left.
  - simpl in Hnd. apply NoDup_cons in Hnd as [Hy Hnd].
    destruct k1 as [|z k1]; simpl in *.
    + injection Heq as -> _. exfalso. apply Hy. apply elem_of_app. right. left.
    + injection Heq as <- Heq. destruct (IH k1 Hnd Heq) as [-> ->]. done.
Qed.

Lemma filter_remove_unique {X Y} `{EqDecision Y} (f : X -> Y) (l : list X) (x : X) :
  NoDup (f <$> l) -> x ∈ l ->
  exists l1 l2, l = l1 ++ x :: l2 /\ filter (fun y => f y <> f x) l = l1 ++ l2.
Proof.
  intros Hnd Hx. apply list_elem_of_split in Hx as (l1 & l2 & ->).
  exists l1, l2. split; [done|].
  rewrite fmap_app, fmap_cons in Hnd.
  apply NoDup_app in Hnd as (_ & H1 & Hnd). apply NoDup_cons in Hnd as [H2 _].
  rewrite filter_app, filter_cons_False by auto. f_equal.
  - apply filter_id_Forall, Forall_forall. intros y Hy Hf.
    apply (H1 (f y)); [by apply list_elem_of_fmap_2|]. rewrite Hf. left.
  - apply filter_id_Forall, Forall_forall. intros y Hy Hf.
    apply H2. rewrite <- Hf. by apply list_elem_of_fmap_2.
Qed.

Lemma NoDup_fmap_NoDup {X Y} (f : X -> Y) (l : list X) :
  NoDup (f <$> l) -> NoDup l.
Proof.
  induction l as [|x l IH]; [constructor|].
  rewrite fmap_cons, !NoDup_cons. intros [Hx Hnd]. split; [|auto].
  intros Hin. apply Hx. by apply list_elem_of_fmap_2.
Qed.

(** The queue of a level is a block of the priority list. *)
Lemma resting_queue_segment b s p q :
  book_wf b -> side_book b s !! p = Some q ->
  exists pre post, resting b s = pre ++ q ++ post.
Proof.
  intros Hwf Hq. pose proof (book_wf_side b s Hwf) as [_ Hkeys _].
  assert (Hp : p ∈ best_first s (side_levels b s)).
  { apply best_first_elem, Hkeys. by rewrite Hq. }
  apply list_elem_of_split in Hp as (L1 & L2 & HL).
  unfold resting. rewrite HL, bind_app, bind_cons.
  unfold queue_at at 2. rewrite Hq. simpl. eauto.
Qed.

Lemma resting_ids_NoDup b s : index_wf b -> NoDup (order_id <$> resting b s).
Proof.
  intros [Hnd _]. unfold all_resting in Hnd. rewrite fmap_app in Hnd.
  apply NoDup_app in Hnd as (H1 & _ & H2). by destruct s.
Qed.

(** ** The claims on the order book *)

(** C3: after every completed operation of the book ([add_order] or
    [cancel]), when both best prices are defined the best bid is strictly
    below the best ask; and every resting bid is priced strictly below
    every resting ask. *)
Theorem C3_book_never_crosses (b : LimitOrderBook) :
  reachable b ->
  (forall pb pa, best_bid b = Some pb -> best_ask b = Some pa -> (pb < pa)%Qc) /\
  (forall ob oa pb pa,
     ob ∈ resting b BID -> oa ∈ resting b ASK ->
     price ob = Some pb -> price oa = Some pa -> (pb < pa)%Qc).
Proof.
  intros Hr. pose proof (reachable_wf b Hr) as Hwf.
  pose proof Hwf as [Hb Ha Hx]. split.
  - intros pb pa Hpb Hpa. apply Hx.
    + unfold best_bid in Hpb. by apply last_Some_elem_of.
    + unfold best_ask in Hpa. by apply head_Some_elem_of.
  - intros ob oa pb pa Hob Hoa Hpb Hpa.
    apply resting_order_ok in Hob as (p1 & q1 & Hq1 & _ & _ & Hp1 & _); [|done].
    apply resting_order_ok in Hoa as (p2 & q2 & Hq2 & _ & _ & Hp2 & _); [|done].
    assert (p1 = pb) as -> by congruence. assert (p2 = pa) as -> by congruence.
    apply Hx.
    + apply (levels_keys _ _ _ Hb). unfold side_book in Hq1. simpl in Hq1.
      by rewrite Hq1.
    + apply (levels_keys _ _ _ Ha). unfold side_book in Hq2. simpl in Hq2.
      by rewrite Hq2.
Qed.

(** An [add_order] of an order that passed the constructor completes on
    every book the interface produces. *)
Lemma add_order_returns (b : LimitOrderBook) (o : Order) :
  reachable b -> valid_order o -> exists r, add_order b o = Return r.
Proof.
  intros Hr Hv. destruct (add_order_spec b o (reachable_wf b Hr) Hv) as (b' & -> & _).
  eauto.
Qed.

(** C5: [cancel] returns true exactly when the id is resting; it then
    removes that one order, and the level with its last order, from the
    book and the id from the index, and a second cancel of the id returns
    false; when the id is not resting it returns false and the book is
    unchanged. *)
Theorem C5_cancel (b : LimitOrderBook) (oid : string) :
  reachable_fresh b ->
  ((cancel b oid).1 = true <-> oid ∈ order_id <$> all_resting b) /\
  ((cancel b oid).1 = true ->
     (exists l1 o l2, all_resting b = l1 ++ o :: l2 /\ order_id o = oid /\
                      all_resting (cancel b oid).2 = l1 ++ l2) /\
     open_orders (cancel b oid).2 None =
       filter (fun k => k <> oid) (open_orders b None) /\
     (forall s p, p ∈ side_levels (cancel b oid).2 s <->
                  queue_at (side_book (cancel b oid).2 s) p <> []) /\
     cancel (cancel b oid).2 oid = (false, (cancel b oid).2)) /\
  ((cancel b oid).1 = false -> (cancel b oid).2 = b).
Proof.
  intros Hr. destruct (reachable_fresh_wf b Hr) as [Hwf Hi].
  pose proof (cancel_spec b oid Hwf Hi) as Hspec.
  destruct (decide (oid ∈ order_id <$> all_resting b)) as [Hin|Hnin].
  - destruct Hspec as (b' & -> & Hwf' & Hi' & Hrest & Hidx). simpl.
    split; [done|]. split; [|done]. intros _.
    apply list_elem_of_fmap in Hin as (o & -> & Ho).
    pose proof Hi as [Hnd _].
    destruct (filter_remove_unique order_id _ o Hnd Ho) as (l1 & l2 & Hl & Hf).
    split; [|split; [|split]].
    + exists l1, o, l2. split; [done|]. split; [done|].
      unfold all_resting in *. by rewrite !Hrest, <- filter_app.
    + simpl. by rewrite Hidx, dict_pop_keys.
    + intros s p. pose proof (book_wf_side b' s Hwf') as [_ Hkeys Hqs].
      rewrite Hkeys. unfold queue_at. split.
      * intros [q Hq]. rewrite Hq. simpl. by destruct (Hqs p q Hq).
      * destruct (side_book b' s !! p); [eauto | done].
    + pose proof (cancel_spec b' (order_id o) Hwf' Hi') as Hspec'.
      rewrite decide_False in Hspec'; [done|].
      unfold all_resting. rewrite !Hrest, <- filter_app.
      intros (x & Hx & Hin)%list_elem_of_fmap.
      by apply list_elem_of_filter in Hin as [? _].
  - rewrite Hspec. simpl. split; [|split; [done|done]].
    split; [done | by intros ?].
Qed.

Local Ltac in_list :=
  repeat (rewrite elem_of_app || rewrite elem_of_cons); tauto.

Lemma resting_positive b s :
  book_wf b -> Forall (fun m => 0 < qty m) (resting b s).
Proof.
  intros Hwf. apply Forall_forall. intros m Hm.
  by apply resting_order_ok in Hm as (p & q & _ & _ & _ & _ & _ & ?).
Qed.

(** C6: a MARKET order never rests.  [add_order] completes without an
    error; the trades sum to the smaller of the order's quantity and the
    opposing depth; the order keeps the rest of its quantity but its id is
    not among the open orders, and its own side of the book is untouched.
    When the quantity exceeds the opposing depth the trades sum to that
    depth, the opposing side is left empty and the remainder is dropped. *)
Theorem C6_market_order_never_rests (b : LimitOrderBook) (o : Order) :
  reachable_fresh b -> valid_order o -> order_type o = MARKET ->
  order_id o ∉ open_orders b None ->
  exists trades b' o',
    add_order b o = Return (trades, b', o') /\
    total_qty trades = Z.min (qty o) (sum_qty (resting b (opposite (side o)))) /\
    qty o' = qty o - total_qty trades /\
    (order_id o ∉ open_orders b' None) /\
    (forall r, r ∈ all_resting b' -> order_id r <> order_id o) /\
    _book_for_side b' (side o) = _book_for_side b (side o) /\
    (sum_qty (resting b (opposite (side o))) < qty o ->
       total_qty trades = sum_qty (resting b (opposite (side o))) /\
       resting b' (opposite (side o)) = [] /\ 0 < qty o').
Proof.
  intros Hr Hv Hty Hfresh. destruct (reachable_fresh_wf b Hr) as [Hwf Hi].
  destruct (add_order_spec b o Hwf Hv) as (b' & Hadd & Hwf' & Hrest & Hown & Hidx).
  destruct (Hidx Hi Hfresh) as [Hi' Hkeys].
  rewrite bool_decide_eq_false_2 in Hown by (intros [? _]; congruence).
  destruct (fills_market o (resting b (opposite (side o))) Hty)
    as (Htot & Hleft & Hall & Hdepth).
  { apply Forall_forall. intros m Hm.
    apply resting_order_ok in Hm as (p & q & _ & _ & _ & Hp & _ & ?); [|done].
    by rewrite Hp. }
  { destruct Hv. lia. }
  eexists _, b', _. split; [exact Hadd|]. split; [done|]. split; [done|].
  assert (Hnew : order_id o ∉ open_orders b' None).
  { simpl in *. rewrite <- dict_get_is_Some in *. intros [e He].
    destruct (Hkeys _ _ He) as [He'|(_ & ? & _)]; [|congruence].
    apply Hfresh. eauto. }
  split; [done|]. split.
  { intros r Hin Hid. apply Hnew. rewrite <- Hid.
    apply index_wf_keys; [done|]. by apply list_elem_of_fmap_2. }
  split; [done|]. intros Hlt. rewrite Hrest. split; [lia|]. split; [auto|lia].
Qed.


(** C4: matching is first in, first out.  The makers of the trades of one
    [add_order] are, in order, the first orders of the priority list of
    the opposite side, in which the queue of every level is a block in queue
    order; so when [A] is ahead of [B] in the queue of a level, a trade
    against [B] comes after a trade that took the whole of [A].  And an
    order that rests joins the end of the queue of its price, behind the
    orders that arrived before it. *)
Theorem C4_fifo_within_level (b : LimitOrderBook) (o : Order)
    (trades : list Trade) (b' : LimitOrderBook) (o' : Order) :
  reachable_fresh b -> valid_order o -> add_order b o = Return (trades, b', o') ->
  let s := opposite (side o) in
  (maker_order_id <$> trades) `prefix_of` (order_id <$> resting b s) /\
  (forall p q, side_book b s !! p = Some q ->
     exists pre post, resting b s = pre ++ q ++ post) /\
  (forall p q l1 A l2 B l3 t1 tB t2,
     side_book b s !! p = Some q -> q = l1 ++ A :: l2 ++ B :: l3 ->
     trades = t1 ++ tB :: t2 -> maker_order_id tB = order_id B ->
     exists tA, tA ∈ t1 /\ maker_order_id tA = order_id A /\
                trade_qty tA = qty A /\ trade_price tA = p) /\
  (order_type o = LIMIT /\ 0 < qty o' ->
     forall p, price o = Some p ->
       queue_at (side_book b' (side o)) p =
       queue_at (side_book b (side o)) p ++ [o']).
Proof.
  intros Hr Hv Hadd s. destruct (reachable_fresh_wf b Hr) as [Hwf Hi].
  destruct (add_order_spec b o Hwf Hv) as (b2 & Hadd2 & _ & _ & Hown & _).
  rewrite Hadd in Hadd2. injection Hadd2 as Htr <- Ho'. fold s in Htr, Ho'.
  pose proof (resting_positive b s Hwf) as Hpos.
  split; [|split; [|split]].
  - destruct trades as [|t0 trades0] using rev_ind; [apply prefix_nil|].
    destruct (fills_trades_inv o _ trades0 t0 [] Hpos (eq_sym Htr))
      as (ms1 & m & ms2 & Hms & HF & Hid & _).
    rewrite Hms, !fmap_app, !fmap_cons. simpl.
    assert (maker_order_id <$> trades0 = order_id <$> ms1) as ->.
    { clear -HF. induction HF as [|t m l k [Hid _] _ IH]; [done|].
      rewrite !fmap_cons. by f_equal. }
    rewrite Hid. apply prefix_app, prefix_cons, prefix_nil.
  - intros p q Hq. by apply (resting_queue_segment b s p q).
  - intros p q l1 A l2 B l3 t1 tB t2 Hq Hql Htrades HidB.
    destruct (resting_queue_segment b s p q Hwf Hq) as (pre & post & Hseg).
    rewrite Htrades in Htr.
    destruct (fills_trades_inv o _ t1 tB t2 Hpos (eq_sym Htr))
      as (ms1 & m & ms2 & Hms & HF & Hid & _).
    pose proof (resting_ids_NoDup b s Hi) as Hnd.
    assert (HB : B ∈ resting b s).
    { rewrite Hseg, Hql. in_list. }
    assert (m = B) as ->.
    { apply (NoDup_fmap_eq order_id (resting b s)); [done| |done|congruence].
      rewrite Hms. in_list. }
    assert (Hsplit : ms1 = pre ++ l1 ++ A :: l2).
    { apply (NoDup_split_unique ms1 ms2 (pre ++ l1 ++ A :: l2) (l3 ++ post) B).
      - rewrite <- Hms. by apply NoDup_fmap_NoDup in Hnd.
      - rewrite <- Hms, Hseg, Hql. rewrite <- !app_assoc. simpl.
        by rewrite <- !app_assoc. }
    assert (HA : A ∈ ms1) by (rewrite Hsplit; in_list).
    apply list_elem_of_lookup in HA as [i Hi'].
    destruct (Forall2_lookup_r _ _ _ _ _ HF Hi') as (tA & HtA & Hid' & Hqty & Hpr).
    exists tA. split; [by eapply list_elem_of_lookup_2|]. split; [done|].
    split; [done|].
    pose proof (book_wf_side b s Hwf) as [_ _ Hqs].
    destruct (Hqs p q Hq) as [_ Hall]. rewrite Forall_forall in Hall.
    destruct (Hall A) as (_ & HpA & _); [rewrite Hql; in_list|]. congruence.
  - intros Hrest p Hp. cbv zeta in Hown. fold s in Hown. rewrite <- Ho' in Hown.
    rewrite bool_decide_eq_true_2 in Hown by done.
    destruct Hown as [_ Hqa]. by rewrite Hqa, decide_True.
Qed.

Section exact_arithmetic.

#[local] Existing Instance exact.

(** * Properties of the market maker, over exact arithmetic *)

Ltac push_Z2Qc :=
  change (Z.neg 1) with (Z.opp (Z.pos 1)) in *;
  repeat first
    [ rewrite Z2Qc_inj_add | rewrite Z2Qc_inj_sub | rewrite Z2Qc_inj_mul
    | rewrite Z2Qc_inj_opp | rewrite Z2Qc_inj_0 | rewrite Z2Qc_inj_1 ].

Ltac decide_all :=
  repeat match goal with
    | |- context [bool_decide ?P] =>
        (rewrite (bool_decide_eq_true_2 P) by lia)
        || (rewrite (bool_decide_eq_false_2 P) by lia)
    end.

Lemma Qc_of_Z_0_iff (n : Z) : Qc_of_Z n = Q2Qc 0 <-> n = 0.
Proof. rewrite <- Z2Qc_inj_0. apply Z2Qc_inj_iff. Qed.

Lemma update_position_reconciles mm s q p mm' :
  let sign := match s with BID => 1 | ASK => -1 end in
  (realized_pnl mm =
   cash mm - initial_cash mm + avg_entry_price mm * Qc_of_Z (inventory mm)
   + Qc_of_Z sign * p * Qc_of_Z q)%Qc ->
  _update_position mm sign q p = Return mm' ->
  reconciled mm'.
Proof.
  intros sign Hinv. unfold _update_position, reconciled, py_div, of_int. cbn.
  destruct (Z.lt_trichotomy (inventory mm) 0) as [Hi|[Hi|Hi]];
    destruct s; subst sign; decide_all.
  - (* short, buying: closes *)
    destruct (Z_lt_le_dec (Z.abs (inventory mm)) q) as [Hq|Hq]; decide_all.
    + intros [= <-]. cbn. rewrite Hinv.
      replace (Z.abs (inventory mm) `min` q) with (- inventory mm) by lia.
      push_Z2Qc. ring.
    + replace (Z.abs (inventory mm) `min` q) with q by lia.
      intros [= <-]. cbn. rewrite Hinv. case_bool_decide as Hz.
      * replace (inventory mm) with (- q) by lia. push_Z2Qc. ring.
      * push_Z2Qc. ring.
  - (* short, selling: extends *)
    case_bool_decide as Hz; [done|]. intros [= <-]. cbn. rewrite Hinv.
    replace (Z.abs (inventory mm)) with (- inventory mm) in * by lia.
    push_Z2Qc. rewrite Z2Qc_inj_add, Z2Qc_inj_opp in Hz. field. exact Hz.
  - intros [= <-]. cbn. rewrite Hinv, Hi. push_Z2Qc. ring.
  - intros [= <-]. cbn. rewrite Hinv, Hi. push_Z2Qc. ring.
  - (* long, buying: extends *)
    case_bool_decide as Hz; [done|]. intros [= <-]. cbn. rewrite Hinv.
    replace (Z.abs (inventory mm)) with (inventory mm) in * by lia.
    push_Z2Qc. rewrite Z2Qc_inj_add in Hz. field. exact Hz.
  - (* long, selling: closes *)
    destruct (Z_lt_le_dec (Z.abs (inventory mm)) q) as [Hq|Hq]; decide_all.
    + intros [= <-]. cbn. rewrite Hinv.
      replace (Z.abs (inventory mm) `min` q) with (inventory mm) by lia.
      push_Z2Qc. ring.
    + replace (Z.abs (inventory mm) `min` q) with q by lia.
      intros [= <-]. cbn. rewrite Hinv. case_bool_decide as Hz.
      * replace (inventory mm) with q by lia. push_Z2Qc. ring.
      * push_Z2Qc. ring.
Qed.

Lemma apply_fill_reconciles mm s p q mm' :
  reconciled mm -> _apply_fill mm s p q = Return mm' -> reconciled mm'.
Proof.
  intros Hrec. unfold _apply_fill.
  destruct (_update_position _ _ q p) as [mm1| |] eqn:Hup; [|done..].
  cbn. intros [= <-].
  apply (update_position_reconciles _ s q p mm1) in Hup; [exact Hup|].
  unfold reconciled in Hrec. unfold of_int. cbn. rewrite <- Hrec.
  destruct s; push_Z2Qc; ring.
Qed.

Lemma on_trade_reconciles mm t mm' :
  reconciled mm -> on_trade mm t = Return mm' -> reconciled mm'.
Proof.
  intros Hrec. unfold on_trade. repeat case_bool_decide.
  - by apply apply_fill_reconciles.
  - by apply apply_fill_reconciles.
  - by intros [= <-].
Qed.

Lemma on_trades_reconciles mm trades mm' :
  reconciled mm -> on_trades mm trades = Return mm' -> reconciled mm'.
Proof.
  revert mm. induction trades as [|t trades IH]; intros mm Hrec; simpl.
  - by intros [= <-].
  - destruct (on_trade mm t) as [mm1| |] eqn:Ht; [|done..]. cbn.
    apply IH. by eapply on_trade_reconciles.
Qed.

Lemma reconciled_pnl mm m :
  reconciled mm ->
  (realized_pnl mm + unrealized_pnl mm m
   = cash mm + Qc_of_Z (inventory mm) * m - initial_cash mm)%Qc.
Proof.
  unfold reconciled, unrealized_pnl, of_int. cbn. intros <-.
  destruct (Z.lt_trichotomy (inventory mm) 0) as [Hi|[Hi|Hi]]; decide_all.
  - replace (Z.abs (inventory mm)) with (- inventory mm) by lia. push_Z2Qc. ring.
  - rewrite Hi. push_Z2Qc. ring.
  - ring.
Qed.

(** A fill of a positive quantity is always booked. *)
Lemma on_trade_returns mm t :
  0 < trade_qty t -> exists mm', on_trade mm t = Return mm'.
Proof.
  intros Hq.
  assert (Hfill : forall s, exists mm',
            _apply_fill mm s (trade_price t) (trade_qty t) = Return mm').
  { intros s. unfold _apply_fill, _update_position, py_div, of_int. cbn.
    repeat case_bool_decide; cbn; eauto.
    exfalso. match goal with H : Qc_of_Z _ = _ |- _ => apply Qc_of_Z_0_iff in H end.
    lia. }
  unfold on_trade. repeat case_bool_decide; eauto.
Qed.

Lemma on_trades_returns mm trades :
  Forall (fun t => 0 < trade_qty t) trades ->
  exists mm', on_trades mm trades = Return mm'.
Proof.
  intros Hall. revert mm. induction Hall as [|t trades Ht _ IH]; intros mm; simpl.
  - eauto.
  - destruct (on_trade_returns mm t Ht) as [mm1 ->]. cbn. apply IH.
Qed.

(** C2: an agent that starts flat with no cash has, after any sequence of
    [on_trade] calls and at every mid price, realized plus unrealized P&L
    equal to its mark to market, cash + inventory × mid − initial cash, in
    exact arithmetic; and the calls do not fail on fills of positive
    quantity, the only ones the book produces. *)
Theorem C2_pnl_reconciles (cfg : MarketMakerConfig) (tick : Qc)
    (trades : list Trade) :
  (Forall (fun t => 0 < trade_qty t) trades ->
   exists mm, on_trades (new_market_maker cfg tick) trades = Return mm) /\
  (forall mm mid,
     on_trades (new_market_maker cfg tick) trades = Return mm ->
     total_pnl mm mid = mark_to_market mm mid /\
     mark_to_market mm mid
       = (cash mm + Qc_of_Z (inventory mm) * mid - initial_cash mm)%Qc /\
     total_pnl mm mid = (realized_pnl mm + unrealized_pnl mm mid)%Qc).
Proof.
  split; [apply on_trades_returns|]. intros mm mid Hrun.
  assert (Hrec : reconciled mm).
  { eapply on_trades_reconciles; [|exact Hrun]. unfold reconciled. cbn.
    rewrite Z2Qc_inj_0. ring. }
  split; [|split; reflexivity].
  unfold total_pnl, mark_to_market, of_int. cbn. by apply reconciled_pnl.
Qed.

(** ** Rounding *)

(** Goals of rational arithmetic on [Qc], sent to [Q]. *)
Ltac qc_to_q :=
  repeat match goal with
    | H : @eq Qc _ _ |- _ => apply Qc_eq_Qeq in H
    | H : ~ @eq Qc _ _ |- _ => rewrite Qc_eq_Qeq in H
    | |- @eq Qc _ _ => apply Qc_is_canon
    | |- ~ @eq Qc _ _ => rewrite Qc_eq_Qeq
    end;
  unfold dec, pow10 in *;
  unfold Qclt, Qcle, Qcdiv, Qcminus, Qcplus, Qcmult, Qcopp, Qcinv, Q2Qc,
    Qc_of_Z in *;
  cbn [this] in *;
  repeat (rewrite Qred_correct in * );
  change (/ 2)%Q with (1 # 2)%Q in *.

Lemma py_round_bounds (x : Qc) :
  (x - dec 1 2 <= Qc_of_Z (py_round x) <= x + dec 1 2)%Qc.
Proof.
  unfold py_round.
  pose proof (Qfloor_le x) as Hlo. pose proof (Qlt_floor x) as Hhi.
  rewrite inject_Z_plus in Hhi. change (inject_Z 1) with 1%Q in Hhi.
  repeat case_bool_decide; try destruct (Z.even _);
    split; qc_to_q; rewrite ?inject_Z_plus; change (inject_Z 1) with 1%Q; lra.
Qed.

Lemma py_round_Z (z : Z) : py_round (Qc_of_Z z) = z.
Proof.
  unfold py_round. cbn [this Qc_of_Z]. rewrite Qfloor_Z.
  rewrite bool_decide_eq_true_2; [done|]. qc_to_q. lra.
Qed.

Lemma pow10_10_pos : (Q2Qc 0 < pow10 10)%Qc.
Proof. by vm_compute. Qed.

Lemma two_neq_0 : Q2Qc 2 <> Q2Qc 0.
Proof. by vm_compute. Qed.

Lemma tick_on_grid_pos (tick : Qc) : tick_on_grid tick -> (Q2Qc 0 < tick)%Qc.
Proof.
  intros (n & Hn & ->). pose proof pow10_10_pos as HP.
  apply Z2Qc_inj_lt in Hn. rewrite Z2Qc_inj_0 in Hn.
  set (P := pow10 10) in *. clearbody P.
  qc_to_q. apply Qlt_shift_div_l; lra.
Qed.

(** On the grid the decimal rounding of [_round_to_tick] changes nothing. *)
Lemma round_to_tick_exact (mm : MarketMaker) (v : Qc) :
  tick_on_grid (tick_size mm) ->
  _round_to_tick mm v = Return (round_tick (tick_size mm) v).
Proof.
  intros Hg. pose proof (tick_on_grid_pos _ Hg) as Hpos.
  destruct Hg as (n & Hn & Ht).
  unfold _round_to_tick, py_div, round_tick, py_round_ndigits, of_int. cbn.
  rewrite bool_decide_eq_false_2 by (intros Hz; rewrite Hz in Hpos; by apply Qclt_not_eq in Hpos).
  cbn. f_equal. set (k := py_round (v / tick_size mm)). clearbody k. rewrite Ht.
  pose proof pow10_10_pos as HP. set (P := pow10 10) in *. clearbody P.
  assert (HP' : P <> Q2Qc 0) by (intros ->; by apply Qclt_not_eq in HP).
  replace (Qc_of_Z k * (Qc_of_Z n / P) * P)%Qc with (Qc_of_Z (k * n))
    by (rewrite Z2Qc_inj_mul; field; exact HP').
  rewrite py_round_Z, Z2Qc_inj_mul. field. exact HP'.
Qed.

Lemma round_tick_bounds (tick v : Qc) :
  (Q2Qc 0 < tick)%Qc ->
  (v - tick / Q2Qc 2 <= round_tick tick v <= v + tick / Q2Qc 2)%Qc.
Proof.
  intros Hpos. unfold round_tick.
  pose proof (py_round_bounds (v / tick)) as [Hlo Hhi].
  set (k := Qc_of_Z (py_round (v / tick))) in *. clearbody k.
  assert (Hv : (v / tick * tick = v)%Qc).
  { field. intros ->. by apply Qclt_not_eq in Hpos. }
  set (y := (v / tick)%Qc) in *. clearbody y. subst v.
  assert (Hhalf : dec 1 2 = (Q2Qc 1 / Q2Qc 2)%Qc) by (by apply Qc_is_canon).
  rewrite Hhalf in Hlo, Hhi. split.
  - replace (y * tick - tick / Q2Qc 2)%Qc with ((y - Q2Qc 1 / Q2Qc 2) * tick)%Qc
      by (field; exact two_neq_0).
    apply Qcmult_le_compat_r; [done | by apply Qclt_le_weak].
  - replace (y * tick + tick / Q2Qc 2)%Qc with ((y + Q2Qc 1 / Q2Qc 2) * tick)%Qc
      by (field; exact two_neq_0).
    apply Qcmult_le_compat_r; [done | by apply Qclt_le_weak].
Qed.

Lemma round_tick_on_tick (tick : Qc) (k : Z) :
  tick <> Q2Qc 0 -> round_tick tick (Qc_of_Z k * tick) = (Qc_of_Z k * tick)%Qc.
Proof.
  intros Hne. unfold round_tick.
  replace (Qc_of_Z k * tick / tick)%Qc with (Qc_of_Z k) by (by field).
  by rewrite py_round_Z.
Qed.






(** ** Instances of the claims on the market maker *)



Lemma C2_witness :
  Forall (fun t => 0 < trade_qty t) two_fills /\
  exists mm,
    on_trades (new_market_maker (config mm_long) (dec 1 100)) two_fills = Return mm /\
    total_pnl mm (dec 10050 100) = mark_to_market mm (dec 10050 100).
Proof.
  assert (Hpos : Forall (fun t => 0 < trade_qty t) two_fills)
    by (repeat constructor; simpl; lia).
  split; [exact Hpos|].
  destruct (C2_pnl_reconciles (config mm_long) (dec 1 100) two_fills) as [Htot Hrec].
  destruct (Htot Hpos) as [mm Hmm]. exists mm. split; [exact Hmm|].
  exact (proj1 (Hrec mm (dec 10050 100) Hmm)).
Defined.

(** ** Further properties over exact arithmetic *)

Lemma best_prices_uncrossed b pb pa :
  book_wf b -> best_bid b = Some pb -> best_ask b = Some pa -> (pb < pa)%Qc.
Proof.
  intros Hwf Hb Ha. apply (wf_uncrossed b Hwf).
  - unfold best_bid in Hb. rewrite last_lookup in Hb. by eapply list_elem_of_lookup_2.
  - unfold best_ask in Ha. destruct (_ask_prices b); [done|]. injection Ha as ->. by left.
Qed.

(** X7: on a book the interface produces, [mid_price] and [spread] are
    defined together, exactly when both sides have orders; the spread is
    then positive and the mid price lies strictly between the best bid and
    the best ask, half a spread from each. *)
Theorem X7_mid_price_and_spread (b : LimitOrderBook) :
  reachable b ->
  (mid_price b = None <-> best_bid b = None \/ best_ask b = None) /\
  (spread b = None <-> mid_price b = None) /\
  (forall m sp, mid_price b = Some m -> spread b = Some sp ->
     exists pb pa, best_bid b = Some pb /\ best_ask b = Some pa /\
       (Q2Qc 0 < sp)%Qc /\ (pb < m)%Qc /\ (m < pa)%Qc /\
       (m - pb = sp / Q2Qc 2)%Qc /\ (pa - m = sp / Q2Qc 2)%Qc).
Proof.
  intros Hr. pose proof (reachable_wf b Hr) as Hwf. unfold mid_price, spread.
  destruct (best_bid b) as [pb|] eqn:Hb, (best_ask b) as [pa|] eqn:Ha;
    (split; [|split]); try (split; intros; try tauto; discriminate || (by destruct H));
    try done.
  intros m sp [= <-] [= <-]. exists pb, pa. split; [done|]. split; [done|].
  pose proof (best_prices_uncrossed b pb pa Hwf Hb Ha) as Hlt. simpl.
  repeat split; qc_to_q; lra.
Qed.

(** ** The ledger of the agent *)

Lemma update_position_inventory mm sign q p mm' :
  sign = 1 \/ sign = -1 ->
  _update_position mm sign q p = Return mm' ->
  inventory mm' = inventory mm + sign * q /\ cash mm' = cash mm /\
  fills mm' = fills mm /\ initial_cash mm' = initial_cash mm /\
  config mm' = config mm /\ tick_size mm' = tick_size mm.
Proof.
  intros Hs. unfold _update_position, py_div.
  repeat case_bool_decide; simpl; try discriminate; intros [= <-]; simpl;
    (split; [destruct Hs; subst sign; lia|done]).
Qed.

Lemma apply_fill_ledger mm s p q mm' :
  let sign := match s with BID => 1 | ASK => -1 end in
  _apply_fill mm s p q = Return mm' ->
  inventory mm' = inventory mm + sign * q /\
  cash mm' = (cash mm - Qc_of_Z (sign * q) * p)%Qc /\
  fills mm' = fills mm ++ [{| fill_timestamp := None; fill_side := s; fill_mm_side := sign;
                              fill_price := p; fill_qty := q |}] /\
  initial_cash mm' = initial_cash mm /\ config mm' = config mm /\
  tick_size mm' = tick_size mm.
Proof.
  intros sign. unfold _apply_fill.
  destruct (_update_position _ _ _ _) as [mm1| |] eqn:E; simpl; [|done..].
  intros [= <-]. simpl.
  apply update_position_inventory in E as (Hi & Hc & Hf & Hic & Hcfg & Htk);
    [|destruct s; auto].
  simpl in *. fold sign in Hi. rewrite Hi, Hf, Hic, Hcfg, Htk, Hc.
  split; [done|]. split; [|done].
  subst sign. destruct s; simpl; unfold of_int; simpl; push_Z2Qc; ring.
Qed.

Lemma on_trade_ledger mm t mm' :
  on_trade mm t = Return mm' ->
  inventory mm' = inventory mm + mm_sign t * trade_qty t /\
  cash mm' = (cash mm - Qc_of_Z (mm_sign t * trade_qty t) * trade_price t)%Qc /\
  length (fills mm') =
    (length (fills mm) + if bool_decide (involves_mm t) then 1 else 0)%nat /\
  initial_cash mm' = initial_cash mm /\ config mm' = config mm /\
  tick_size mm' = tick_size mm.
Proof.
  unfold on_trade, mm_sign, involves_mm.
  destruct (bool_decide (taker_owner t = "MM")) eqn:Ht;
    [|destruct (bool_decide (maker_owner t = "MM")) eqn:Hm].
  - intros (Hi & Hc & Hf & ?)%apply_fill_ledger. rewrite Hi, Hc, Hf, length_app.
    apply bool_decide_eq_true in Ht. rewrite bool_decide_eq_true_2 by tauto.
    by destruct (taker_side t).
  - intros (Hi & Hc & Hf & ?)%apply_fill_ledger. rewrite Hi, Hc, Hf, length_app.
    apply bool_decide_eq_true in Hm. rewrite bool_decide_eq_true_2 by tauto.
    by destruct (taker_side t).
  - intros [= <-]. apply bool_decide_eq_false in Ht, Hm.
    rewrite bool_decide_eq_false_2 by tauto. rewrite Z.mul_0_l, Z.add_0_r, Nat.add_0_r.
    split; [done|]. split; [|done]. rewrite Z2Qc_inj_0. ring.
Qed.

(** X8: the agent keeps a true ledger.  After any sequence of [on_trade]
    calls that return, its inventory has moved by the quantity it bought net
    of the quantity it sold, its cash by what it received net of what it
    paid, at the prices of the trades, and its fill log has one entry more
    for each trade it was a party to; trades between others change nothing. *)
Theorem X8_agent_ledger (mm : MarketMaker) (trades : list Trade) (mm' : MarketMaker) :
  on_trades mm trades = Return mm' ->
  inventory mm' = inventory mm + net_position trades /\
  cash mm' = (cash mm - net_notional trades)%Qc /\
  length (fills mm') = (length (fills mm) + length (filter involves_mm trades))%nat /\
  initial_cash mm' = initial_cash mm /\ config mm' = config mm /\
  tick_size mm' = tick_size mm.
Proof.
  revert mm. induction trades as [|t trades IH]; intros mm; simpl.
  - intros [= <-]. rewrite Z.add_0_r, Nat.add_0_r. repeat split.
    change (Q2Qc 0) with 0%Qc. ring.
  - destruct (on_trade mm t) as [mm1| |] eqn:E; simpl; [|done..].
    intros (Hi & Hc & Hf & Hic & Hcfg & Htk)%IH.
    apply on_trade_ledger in E as (Hi1 & Hc1 & Hf1 & Hic1 & Hcfg1 & Htk1).
    rewrite Hi, Hi1, Hc, Hc1, Hf, Hf1, Hic, Hic1, Hcfg, Hcfg1, Htk, Htk1.
    rewrite filter_cons. split; [lia|]. split; [ring|]. split; [|done].
    destruct (decide (involves_mm t)) as [Hm|Hm].
    + rewrite bool_decide_eq_true_2 by done. simpl. lia.
    + rewrite bool_decide_eq_false_2 by done. lia.
Qed.

Lemma X8_witness :
  exists mm,
    on_trades (new_market_maker (config mm_long) (dec 1 100)) two_fills = Return mm /\
    inventory mm = -3 /\ cash mm = Q2Qc 308 /\ length (fills mm) = 2%nat.
Proof.
  destruct (on_trades (new_market_maker (config mm_long) (dec 1 100)) two_fills)
    as [mm| |] eqn:E; [|by vm_compute in E..].
  exists mm. split; [reflexivity|].
  destruct (X8_agent_ledger _ _ _ E) as (Hi & Hc & Hf & _).
  rewrite Hi, Hc, Hf. repeat split; by_compute.
Defined.

(** ** Rounding to the tick *)

(** X9: [_round_to_tick], of the agent and of the flow model alike (the
    same formula).  It raises [ZeroDivisionError] for a tick of zero.  For a
    tick that is a whole number of 1e-10 it returns the whole number of
    ticks nearest to the value: at most half a tick away, the value itself
    when that is a whole number of ticks, and so a price it returns is
    unchanged by rounding again. *)
Theorem X9_round_to_tick (mm : MarketMaker) (v : Qc) :
  (tick_size mm = Q2Qc 0 ->
     _round_to_tick mm v = Raise ZeroDivisionError /\
     flow_round_to_tick v (tick_size mm) = Raise ZeroDivisionError) /\
  (tick_on_grid (tick_size mm) ->
     exists r,
       _round_to_tick mm v = Return r /\
       flow_round_to_tick v (tick_size mm) = Return r /\
       on_tick (tick_size mm) r /\
       (v - tick_size mm / Q2Qc 2 <= r)%Qc /\ (r <= v + tick_size mm / Q2Qc 2)%Qc /\
       (on_tick (tick_size mm) v -> r = v) /\
       _round_to_tick mm r = Return r).
Proof.
  split.
  - intros Hz. unfold _round_to_tick, flow_round_to_tick, py_div.
    by rewrite bool_decide_eq_true_2.
  - intros Hg. pose proof (tick_on_grid_pos _ Hg) as Hpos.
    assert (Hne : tick_size mm <> Q2Qc 0) by (intros Hz; rewrite Hz in Hpos; qc_order).
    exists (round_tick (tick_size mm) v).
    split; [by apply round_to_tick_exact|]. split; [by apply round_to_tick_exact|].
    split; [by eexists|]. split; [apply round_tick_bounds; done|].
    split; [apply round_tick_bounds; done|]. split.
    + intros [k ->]. by apply round_tick_on_tick.
    + rewrite round_to_tick_exact by done. f_equal. by apply round_tick_on_tick.
Qed.

Lemma tick_on_grid_cent : tick_on_grid (dec 1 100).
Proof. exists 100000000. split; [lia|]. by_compute. Qed.

Lemma X9_witness :
  _round_to_tick (new_market_maker (config mm_long) (Q2Qc 0)) (Q2Qc 100)
    = Raise ZeroDivisionError /\
  tick_on_grid (tick_size mm_long) /\
  _round_to_tick mm_long (dec 100004 1000) = Return (Q2Qc 100) /\
  _round_to_tick mm_long (Q2Qc 100) = Return (Q2Qc 100).
Proof.
  split.
  { exact (proj1 (proj1 (X9_round_to_tick
                           (new_market_maker (config mm_long) (Q2Qc 0)) (Q2Qc 100))
                   eq_refl)). }
  split; [exact tick_on_grid_cent|].
  destruct (proj2 (X9_round_to_tick mm_long (dec 100004 1000)) tick_on_grid_cent)
    as (r & Hr & _ & _ & _ & _ & _ & Hfix).
  assert (r = Q2Qc 100) as ->.
  { assert (Return r = Return (Q2Qc 100)) as [= ->]; [|done].
    rewrite <- Hr. by_compute. }
  split; [by_compute|exact Hfix].
Defined.

End exact_arithmetic.

(** ** Instances of the claims on the order book *)

Lemma limit_order_valid oid s p q : 0 < q -> valid_order (limit_order oid s p q).
Proof. intros Hq. split; [done | by eauto]. Qed.

Lemma market_order_valid oid s q : 0 < q -> valid_order (market_order oid s q).
Proof. intros Hq. split; [done | done]. Qed.

Lemma book3_reachable : reachable_fresh book3.
Proof.
  eapply (fresh_add book2 (limit_order "ORD-3" BID (dec 9997 100) 20));
    [eapply (fresh_add book1 (limit_order "ORD-2" ASK (dec 10003 100) 5));
      [eapply (fresh_add empty_book (limit_order "ORD-1" ASK (dec 10003 100) 20));
        [apply fresh_empty | apply limit_order_valid; lia | by_compute
        | vm_compute; reflexivity]
      | apply limit_order_valid; lia | by_compute | vm_compute; reflexivity]
    | apply limit_order_valid; lia | by_compute | vm_compute; reflexivity].
Qed.

Lemma C3_witness :
  reachable book3 /\
  (forall pb pa, best_bid book3 = Some pb -> best_ask book3 = Some pa -> (pb < pa)%Qc).
Proof.
  split; [exact (reachable_fresh_reachable _ book3_reachable)|].
  exact (proj1 (C3_book_never_crosses book3
                  (reachable_fresh_reachable _ book3_reachable))).
Defined.

Lemma C5_witness :
  reachable_fresh book3 /\
  ((cancel book3 "ORD-2").1 = true <-> "ORD-2" ∈ order_id <$> all_resting book3).
Proof.
  split; [exact book3_reachable|].
  exact (proj1 (C5_cancel book3 "ORD-2" book3_reachable)).
Defined.

Lemma C6_witness :
  reachable_fresh book3 /\ valid_order (market_order "ORD-4" BID 30) /\
  order_type (market_order "ORD-4" BID 30) = MARKET /\
  ("ORD-4" ∉ open_orders book3 None) /\
  exists trades b' o',
    add_order book3 (market_order "ORD-4" BID 30) = Return (trades, b', o') /\
    total_qty trades = 25 /\ qty o' = 5 /\ ("ORD-4" ∉ open_orders b' None).
Proof.
  assert (Hv : valid_order (market_order "ORD-4" BID 30))
    by (apply market_order_valid; lia).
  assert (Hf : order_id (market_order "ORD-4" BID 30) ∉ open_orders book3 None)
    by by_compute.
  split; [exact book3_reachable|]. split; [exact Hv|]. split; [reflexivity|].
  split; [exact Hf|].
  destruct (C6_market_order_never_rests book3 (market_order "ORD-4" BID 30)
              book3_reachable Hv eq_refl Hf)
    as (trades & b' & o' & Hadd & Htot & Hq & Hopen & _).
  exists trades, b', o'. split; [exact Hadd|].
  split; [rewrite Htot; reflexivity|]. split; [rewrite Hq, Htot; reflexivity|].
  exact Hopen.
Defined.


Lemma C4_witness :
  reachable_fresh book3 /\ valid_order (limit_order "ORD-4" BID (dec 10005 100) 22) /\
  exists trades b' o',
    add_order book3 (limit_order "ORD-4" BID (dec 10005 100) 22)
      = Return (trades, b', o') /\
    (maker_order_id <$> trades) `prefix_of` (order_id <$> resting book3 ASK).
Proof.
  assert (Hv : valid_order (limit_order "ORD-4" BID (dec 10005 100) 22))
    by (apply limit_order_valid; lia).
  split; [exact book3_reachable|]. split; [exact Hv|].
  eexists _, _, _. split; [vm_compute; reflexivity|].
  exact (proj1 (C4_fifo_within_level book3 _ _ _ _ book3_reachable Hv
                  ltac:(vm_compute; reflexivity))).
Defined.

(** ** The ids of the factory *)

Lemma idn_inj f n m : idn f n = idn f m -> n = m.
Proof.
  unfold idn. intros H. apply (inj (String.append (prefix f))) in H.
  apply (inj (String.append "-")) in H. by apply (inj pretty) in H.
Qed.

Lemma next_id_eq f :
  next_id f = (idn f (counter f), {| prefix := prefix f; counter := counter f + 1 |}).
Proof. reflexivity. Qed.

Lemma book_inv_bump b f :
  book_inv b f -> book_inv b {| prefix := prefix f; counter := counter f + 1 |}.
Proof.
  intros [Hwf Hi Hk]. split; [done..|]. intros k Hin.
  destruct (Hk k Hin) as (n & Hn & ->). exists n. simpl. split; [lia|done].
Qed.

Lemma book_inv_fresh b f n : book_inv b f -> counter f <= n -> idn f n ∉ open_orders b None.
Proof.
  intros [_ _ Hk] Hn Hin. destruct (Hk _ Hin) as (m & Hm & Heq).
  apply idn_inj in Heq. lia.
Qed.

Lemma book_inv_empty f : book_inv empty_book f.
Proof.
  split; [apply book_wf_empty | apply index_wf_empty |].
  intros k Hin. by apply elem_of_nil in Hin.
Qed.

(** ** [add_order] and the orders that rest *)

Lemma fill_walk_rest taker ms r :
  r ∈ (fill_walk taker ms).2 ->
  exists m, m ∈ ms /\ order_id r = order_id m /\ owner r = owner m.
Proof.
  revert taker. induction ms as [|m ms IH]; intros taker; simpl.
  { by intros ?%elem_of_nil. }
  destruct (price m) as [p|]; [|by eauto].
  destruct (bool_decide (0 < qty taker) && negb (limit_reached taker p)); [|by eauto].
  destruct (bool_decide _).
  - specialize (IH (set_qty taker (qty taker - Z.min (qty taker) (qty m)))).
    destruct (fill_walk _ ms) as [[ts t] rest]. simpl in *. intros Hr.
    destruct (IH Hr) as (m' & Hm' & ?). exists m'. split; [by right|done].
  - simpl. intros [->|Hr]%elem_of_cons.
    + exists m. split; [by left|done].
    + exists r. split; [by right|done].
Qed.

Lemma add_order_resting b o ts b' o' :
  book_wf b -> valid_order o -> add_order b o = Return (ts, b', o') ->
  (exists n, o' = set_qty o n) /\
  forall r, r ∈ all_resting b' ->
    (exists r0, r0 ∈ all_resting b /\ order_id r = order_id r0 /\ owner r = owner r0) \/
    (r = o' /\ order_type o = LIMIT /\ 0 < qty o').
Proof.
  intros Hwf Hv Hadd.
  destruct (add_order_spec b o Hwf Hv) as (b2 & Hadd2 & Hwf2 & Hrest & Hown & _).
  rewrite Hadd in Hadd2. injection Hadd2 as Hts <- Ho'. rewrite <- Ho' in *.
  split; [rewrite Ho'; apply fills_taker|].
  intros r Hr. rewrite (all_resting_split b' (side o)) in Hr.
  apply elem_of_app in Hr as [Hr|Hr].
  - destruct (bool_decide _) eqn:Hd.
    + destruct Hown as [Hperm _]. rewrite Hperm in Hr.
      apply elem_of_cons in Hr as [->|Hr].
      * right. apply bool_decide_eq_true in Hd. tauto.
      * left. exists r. rewrite (all_resting_split b (side o)), elem_of_app. tauto.
    + rewrite (resting_ext _ _ _ Hown) in Hr. left. exists r.
      rewrite (all_resting_split b (side o)), elem_of_app. tauto.
  - rewrite Hrest in Hr. apply fill_walk_rest in Hr as (m & Hm & ?).
    left. exists m. rewrite (all_resting_split b (side o)), elem_of_app. tauto.
Qed.

Lemma book_inv_add b f o ts b' o' :
  book_inv b f -> valid_order o ->
  (exists n, n < counter f /\ order_id o = idn f n) ->
  order_id o ∉ open_orders b None ->
  add_order b o = Return (ts, b', o') ->
  book_inv b' f /\
  (forall k, k ∈ open_orders b' None -> k ∈ open_orders b None \/ k = order_id o).
Proof.
  intros [Hwf Hi Hk] Hv (n & Hn & Hid) Hfresh Hadd.
  destruct (add_order_spec b o Hwf Hv) as (b2 & Hadd2 & Hwf2 & _ & _ & Hidx).
  rewrite Hadd in Hadd2. injection Hadd2 as _ <- _.
  destruct (Hidx Hi Hfresh) as [Hi2 Hkeys].
  assert (Hsub : forall k, k ∈ open_orders b' None ->
                           k ∈ open_orders b None \/ k = order_id o).
  { intros k Hin. simpl in *. rewrite <- dict_get_is_Some in Hin. destruct Hin as [e He].
    destruct (Hkeys _ _ He) as [He'|[-> _]]; [left|by right].
    rewrite <- dict_get_is_Some. eauto. }
  split; [|done]. split; [done..|]. intros k Hin.
  destruct (Hsub k Hin) as [Hold| ->]; [by apply Hk|]. eauto.
Qed.

(** ** [cancel], and a book told by its resting orders *)

Lemma cancel_filter b k :
  book_wf b -> index_wf b ->
  book_wf (cancel b k).2 /\ index_wf (cancel b k).2 /\
  (forall s, resting (cancel b k).2 s = filter (fun o => order_id o <> k) (resting b s)) /\
  _order_index (cancel b k).2 = dict_pop (_order_index b) k.
Proof.
  intros Hwf Hi. pose proof (cancel_spec b k Hwf Hi) as H.
  destruct (decide (k ∈ order_id <$> all_resting b)) as [Hin|Hnin].
  - destruct H as (b' & -> & ? & ? & ? & ?). done.
  - rewrite H. simpl. split; [done|]. split; [done|]. split.
    + intros s. symmetry. apply filter_id_Forall, Forall_forall. intros o Ho Heq.
      apply Hnin. rewrite <- Heq. apply list_elem_of_fmap_2. rewrite (all_resting_split b s), elem_of_app. tauto.
    + symmetry. apply dict_pop_absent. intros Hk. by apply Hnin, index_wf_keys.
Qed.

Lemma bind_single {X Y} `{EqDecision X} (l : list X) (p : X) (g : X -> list Y) :
  NoDup l -> (forall x, x ∈ l -> x <> p -> g x = []) ->
  l ≫= g = if decide (p ∈ l) then g p else [].
Proof.
  induction 1 as [|x l Hx Hnd IH]; intros Hg; [done|].
  rewrite bind_cons, IH by (intros y Hy; apply Hg; by right).
  destruct (decide (x = p)) as [->|Hne].
  - rewrite decide_False by done. rewrite decide_True by left. apply app_nil_r.
  - rewrite (Hg x) by (done || left). simpl.
    destruct (decide (p ∈ l)).
    + by rewrite decide_True by (by right).
    + rewrite decide_False; [done|]. rewrite not_elem_of_cons. split; [congruence|done].
Qed.

Lemma queue_of_resting s book levels p :
  side_wf s book levels ->
  filter (fun o => price o = Some p) (best_first s levels ≫= queue_at book) =
  queue_at book p.
Proof.
  intros [Hs Hk Hq]. rewrite filter_bind.
  rewrite (bind_single _ p).
  - destruct (decide (p ∈ best_first s levels)) as [Hin|Hnin].
    + apply filter_id_Forall. unfold queue_at.
      destruct (book !! p) as [q|] eqn:Hp; [|done]. simpl.
      destruct (Hq _ _ Hp) as [_ Hall]. eapply Forall_impl; [exact Hall|].
      by intros o (_ & ? & _).
    + rewrite best_first_elem, Hk in Hnin. unfold queue_at.
      destruct (book !! p) as [q|] eqn:Hp; [|done]. destruct Hnin. eauto.
  - by apply best_first_NoDup.
  - intros x _ Hne. unfold queue_at. destruct (book !! x) as [q|] eqn:Hx; [|done]. simpl.
    destruct (Hq _ _ Hx) as [_ Hall]. clear Hx.
    induction Hall as [|o q (_ & Ho & _) _ IH]; [done|].
    rewrite filter_cons, decide_False; [done|]. congruence.
Qed.

Lemma side_ext s book1 levels1 book2 levels2 :
  side_wf s book1 levels1 -> side_wf s book2 levels2 ->
  best_first s levels1 ≫= queue_at book1 = best_first s levels2 ≫= queue_at book2 ->
  book1 = book2 /\ levels1 = levels2.
Proof.
  intros H1 H2 Heq.
  assert (Hq : forall p, queue_at book1 p = queue_at book2 p).
  { intros p. by rewrite <- (queue_of_resting s book1 levels1 p H1), Heq, queue_of_resting. }
  assert (Hb : book1 = book2).
  { apply map_eq. intros p. specialize (Hq p). unfold queue_at in Hq.
    destruct (book1 !! p) as [q1|] eqn:E1, (book2 !! p) as [q2|] eqn:E2;
      simpl in Hq; [congruence| | |done].
    - destruct (queues_ok _ _ _ H1 _ _ E1) as [? _]. congruence.
    - destruct (queues_ok _ _ _ H2 _ _ E2) as [? _]. congruence. }
  split; [done|]. subst book2.
  apply (StronglySorted_unique_strong Qclt).
  - intros x1 x2 _ _ Ha Hb. exfalso. qc_order.
  - apply H1.
  - apply H2.
  - apply NoDup_Permutation; [apply sorted_NoDup, H1 | apply sorted_NoDup, H2 |].
    intros p. by rewrite (levels_keys _ _ _ H1), (levels_keys _ _ _ H2).
Qed.

Lemma book_ext b1 b2 :
  book_wf b1 -> book_wf b2 ->
  (forall s, resting b1 s = resting b2 s) ->
  _order_index b1 = _order_index b2 -> b1 = b2.
Proof.
  intros [Hb1 Ha1 _] [Hb2 Ha2 _] Hr Hidx.
  destruct (side_ext BID _ _ _ _ Hb1 Hb2 (Hr BID)) as [??].
  destruct (side_ext ASK _ _ _ _ Ha1 Ha2 (Hr ASK)) as [??].
  destruct b1, b2; simpl in *. congruence.
Qed.

Lemma cancel_all_spec b l :
  book_wf b -> index_wf b ->
  book_wf (cancel_all b l) /\ index_wf (cancel_all b l) /\
  (forall s, resting (cancel_all b l) s = filter (fun o => order_id o ∉ l) (resting b s)) /\
  _order_index (cancel_all b l) = filter (fun kv => kv.1 ∉ l) (_order_index b).
Proof.
  revert b. induction l as [|k l IH]; intros b Hwf Hi.
  - simpl. split; [done|]. split; [done|]. split.
    + intros s. symmetry. apply filter_id_Forall, Forall_forall.
      intros ? _. apply not_elem_of_nil.
    + symmetry. apply filter_id_Forall, Forall_forall. intros ? _. apply not_elem_of_nil.
  - destruct (cancel_filter b k Hwf Hi) as (Hwf' & Hi' & Hr & Hidx).
    destruct (IH _ Hwf' Hi') as (? & ? & Hr2 & Hidx2).
    change (cancel_all b (k :: l)) with (cancel_all (cancel b k).2 l).
    split; [done|]. split; [done|]. split.
    + intros s. rewrite Hr2, Hr, list_filter_filter. apply list_filter_iff.
      intros o. rewrite not_elem_of_cons. tauto.
    + rewrite Hidx2, Hidx. unfold dict_pop. rewrite list_filter_filter.
      apply list_filter_iff. intros kv. rewrite not_elem_of_cons. tauto.
Qed.

Lemma cancel_all_Permutation b l1 l2 :
  book_wf b -> index_wf b -> l1 ≡ₚ l2 -> cancel_all b l1 = cancel_all b l2.
Proof.
  intros Hwf Hi Hp.
  destruct (cancel_all_spec b l1 Hwf Hi) as (? & _ & Hr1 & Hx1).
  destruct (cancel_all_spec b l2 Hwf Hi) as (? & _ & Hr2 & Hx2).
  apply book_ext; [done..| |].
  - intros s. rewrite Hr1, Hr2. apply list_filter_iff. intros o. by rewrite Hp.
  - rewrite Hx1, Hx2. apply list_filter_iff. intros o. by rewrite Hp.
Qed.

(** ** The monad of the simulator *)

Lemma bind_Return {G X Y} (m : M G X) (f : X -> M G Y) s y s' :
  (m ≫= f) s = Return (y, s') <->
  exists x s1, m s = Return (x, s1) /\ f x s1 = Return (y, s').
Proof.
  unfold mbind, M_bind. destruct (m s) as [[x s1]|e|]; split.
  - eauto.
  - by intros (? & ? & [= <- <-] & ?).
  - done.
  - by intros (? & ? & ? & _).
  - done.
  - by intros (? & ? & ? & _).
Qed.

Lemma ret_Return {G X} (x y : X) (s s' : EventDrivenSimulator G) :
  (mret x : M G X) s = Return (y, s') <-> y = x /\ s' = s.
Proof. unfold mret, M_ret. split; [by intros [= -> ->] | by intros [-> ->]]. Qed.

Lemma gets_Return {G X} (f : EventDrivenSimulator G -> X) s x s' :
  gets f s = Return (x, s') <-> x = f s /\ s' = s.
Proof. unfold gets. split; [by intros [= <- <-] | by intros [-> ->]]. Qed.

Lemma modify_Return {G} (f : EventDrivenSimulator G -> EventDrivenSimulator G) s x s' :
  modify f s = Return (x, s') <-> s' = f s.
Proof. unfold modify. destruct x. split; [by intros [= <-] | by intros ->]. Qed.

Lemma lift_Return {G X} (o : outcome X) (s : EventDrivenSimulator G) x s' :
  lift o s = Return (x, s') <-> o = Return x /\ s' = s.
Proof.
  unfold lift. destruct o; split; try done.
  - by intros [= -> ->].
  - by intros [[= ->] ->].
  - by intros [? _].
  - by intros [? _].
Qed.

Lemma draw_Return {G X} (f : G -> X * G) s x s' :
  draw f s = Return (x, s') <-> x = (f (rng s)).1 /\ s' = set_rng s (f (rng s)).2.
Proof.
  unfold draw. destruct (f (rng s)) as [a g]. simpl.
  split; [by intros [= <- <-] | by intros [-> ->]].
Qed.

Lemma draw_or_raise_Return {G X} (f : G -> outcome (X * G)) s x s' :
  draw_or_raise f s = Return (x, s') <->
  exists g, f (rng s) = Return (x, g) /\ s' = set_rng s g.
Proof.
  unfold draw_or_raise. destruct (f (rng s)) as [[a g]|e|]; split.
  - intros [= <- <-]. eauto.
  - by intros (? & [= <- <-] & ->).
  - done.
  - by intros (? & ? & _).
  - done.
  - by intros (? & ? & _).
Qed.

(** Symbolic execution of a run that returns: the hypothesis is split along
    the binds, down to the calls of other methods. *)
Ltac run_step H :=
  lazymatch type of H with
  | @mbind _ _ _ _ _ _ _ = Return _ =>
      let H1 := fresh "Hrun" in
      let H2 := fresh "Hrun" in
      apply bind_Return in H as (? & ? & H1 & H2); cbv beta in H1, H2;
      run_step H1; run_step H2
  | @mret _ _ _ _ _ = Return _ => apply ret_Return in H as [? ?]; subst
  | gets _ _ = Return _ => apply gets_Return in H as [? ?]; subst
  | modify _ _ = Return _ => apply modify_Return in H; subst
  | lift _ _ = Return _ => apply lift_Return in H as [H ?]; subst
  | draw _ _ = Return _ => apply draw_Return in H as [? ?]; subst
  | draw_or_raise _ _ = Return _ =>
      apply draw_or_raise_Return in H as (? & H & ?); subst
  | (if ?c then _ else _) _ = Return _ => destruct c eqn:?; run_step H
  | (let '(_, _) := ?p in _) _ = Return _ => destruct p eqn:?; run_step H
  | (match ?x with _ => _ end) _ = Return _ => destruct x eqn:?; run_step H
  | _ => idtac
  end.

(** ** Methods that leave the book, the factory and the agent's ids alone *)

Create HintDb framed.

Lemma framed_ret {G X} (x : X) : framed (mret x : M G X).
Proof. intros s y s' H. by apply ret_Return in H as [_ ->]. Qed.

Lemma framed_bind {G X Y} (m : M G X) (f : X -> M G Y) :
  framed m -> (forall x, framed (f x)) -> framed (m ≫= f).
Proof.
  intros Hm Hf s y s' H. apply bind_Return in H as (x & s1 & H1 & H2).
  rewrite (Hf _ _ _ _ H2). by apply (Hm _ _ _ H1).
Qed.

Lemma framed_gets {G X} (f : EventDrivenSimulator G -> X) : framed (gets f).
Proof. intros s y s' H. by apply gets_Return in H as [_ ->]. Qed.

Lemma framed_modify {G} (f : EventDrivenSimulator G -> EventDrivenSimulator G) :
  (forall s, view (f s) = view s) -> framed (modify f).
Proof. intros Hf s y s' H. apply modify_Return in H as ->. apply Hf. Qed.

Lemma framed_lift {G X} (o : outcome X) : framed (lift o : M G X).
Proof. intros s y s' H. by apply lift_Return in H as [_ ->]. Qed.

Lemma framed_draw {G X} (f : G -> X * G) : framed (draw f).
Proof. intros s y s' H. by apply draw_Return in H as [_ ->]. Qed.

Lemma framed_draw_or_raise {G X} (f : G -> outcome (X * G)) : framed (draw_or_raise f).
Proof. intros s y s' H. by apply draw_or_raise_Return in H as (? & _ & ->). Qed.

Lemma framed_for_each {G X} (l : list X) (body : X -> M G unit) :
  (forall x, framed (body x)) -> framed (for_each l body).
Proof.
  intros Hb. induction l as [|x l IH]; simpl.
  - apply framed_ret.
  - apply framed_bind; [apply Hb | by intros _].
Qed.

#[export] Hint Resolve framed_ret framed_gets framed_lift framed_draw
  framed_draw_or_raise : framed.

Ltac framed :=
  repeat first
    [ progress eauto with framed
    | apply framed_bind; [|intros ?]
    | apply framed_for_each; intros ?
    | apply framed_modify; intros ?; reflexivity
    | match goal with
      | |- framed (if ?c then _ else _) => destruct c
      | |- framed (let '(_, _) := ?p in _) => destruct p
      | |- framed (match ?x with _ => _ end) => destruct x
      end ].

Section framed_methods.
Context {A : Arith} {G : Type} {gen : Generator G}.

Lemma update_position_active mm sg q p mm' :
  _update_position mm sg q p = Return mm' ->
  active_order_ids mm' = active_order_ids mm.
Proof.
  unfold _update_position, py_div. repeat case_bool_decide; simpl; try discriminate;
    by intros [= <-].
Qed.

Lemma on_trade_active mm t mm' :
  on_trade mm t = Return mm' -> active_order_ids mm' = active_order_ids mm.
Proof.
  assert (Hfill : forall s p q, _apply_fill mm s p q = Return mm' ->
                                active_order_ids mm' = active_order_ids mm).
  { intros s p q. unfold _apply_fill.
    destruct (_update_position _ _ _ _) as [mm1| |] eqn:E; simpl; try discriminate.
    intros [= <-]. simpl. by apply update_position_active in E. }
  unfold on_trade. repeat case_bool_decide; eauto. by intros [= <-].
Qed.

Lemma framed_process_trade (t : Trade) : framed (G := G) (process_trade t).
Proof.
  intros s x s' H. unfold process_trade in H. run_step H.
  unfold view. simpl. f_equal.
  match goal with H : on_trade _ _ = _ |- _ => apply on_trade_active in H end.
  by case_bool_decide.
Qed.

Lemma framed_process_trades (ts : list Trade) : framed (G := G) (_process_trades ts).
Proof.
  unfold _process_trades. destruct ts; [apply framed_ret|].
  apply framed_bind; [by apply framed_modify|]. intros _.
  apply framed_for_each, framed_process_trade.
Qed.

Lemma framed_next_time t r : framed (next_time t r).
Proof. unfold next_time. framed. Qed.

Lemma framed_sample_side m : framed (sample_side m).
Proof. unfold sample_side, flip_trend. framed. Qed.

Lemma framed_sample_qty lo hi : framed (_sample_qty lo hi).
Proof. unfold _sample_qty. framed. Qed.

Hint Resolve framed_next_time framed_sample_side framed_sample_qty : framed.

Lemma framed_sample_limit mid tick : framed (sample_limit mid tick).
Proof. unfold sample_limit. framed. Qed.

Lemma framed_sample_market : framed sample_market.
Proof. unfold sample_market. framed. Qed.

Lemma framed_should_send_informed : framed should_send_informed.
Proof. unfold should_send_informed. framed. Qed.

Lemma framed_sample_signal : framed sample_signal.
Proof. unfold sample_signal. framed. Qed.

Hint Resolve framed_sample_signal : framed.

Lemma framed_sample_informed_market : framed sample_informed_market.
Proof. unfold sample_informed_market. framed. Qed.

Lemma framed_sample_exogenous_signal : framed sample_exogenous_signal.
Proof. unfold sample_exogenous_signal. framed. Qed.

Lemma framed_schedule t ts pl : framed (G := G) (_schedule t ts pl).
Proof. unfold _schedule. framed. Qed.

Hint Resolve framed_sample_exogenous_signal framed_schedule : framed.

Lemma framed_schedule_next : framed _schedule_next_exogenous_fundamental_move.
Proof. unfold _schedule_next_exogenous_fundamental_move. framed. Qed.

Hint Resolve framed_schedule_next : framed.

Lemma framed_schedule_initial_events : framed _schedule_initial_events.
Proof. unfold _schedule_initial_events. framed. Qed.

Lemma framed_current_mid : framed (G := G) current_mid.
Proof. unfold current_mid. framed. Qed.

Lemma framed_qty_to_force_jump sg jt : framed (G := G) (_qty_to_force_jump sg jt).
Proof. unfold _qty_to_force_jump. framed. Qed.

Lemma framed_snapshot name : framed (G := G) (_snapshot name).
Proof. unfold _snapshot. framed. Qed.

End framed_methods.

#[export] Hint Resolve framed_process_trades framed_next_time framed_sample_side
  framed_sample_qty framed_sample_limit framed_sample_market
  framed_should_send_informed framed_sample_signal framed_sample_informed_market
  framed_sample_exogenous_signal framed_schedule framed_schedule_next
  framed_schedule_initial_events framed_current_mid framed_qty_to_force_jump
  framed_snapshot : framed.

(** ** The invariant along the methods that change the book *)

Lemma view_eq {G} (s s' : EventDrivenSimulator G) :
  view s' = view s ->
  book s' = book s /\ factory s' = factory s /\
  active_order_ids (market_maker s') = active_order_ids (market_maker s).
Proof. unfold view. by intros [= -> -> ->]. Qed.

Lemma inv_view {G} n (s s' : EventDrivenSimulator G) :
  view s' = view s -> inv n s -> inv n s'.
Proof. intros (Hb & Hf & Ha)%view_eq. unfold inv. by rewrite Hb, Hf, Ha. Qed.

Lemma framed_inv {G X} n (m : M G X) : framed m -> hoare (inv n) m (fun _ => inv n).
Proof. intros Hm s x s' Hi Hrun. eapply inv_view; [by eapply Hm|done]. Qed.

Lemma pending_bump b f n o : pending b f n o -> pending b (bump f) n o.
Proof.
  intros (? & ? & ? & ?). split; [done|]. split; [done|]. split; [simpl; lia|done].
Qed.

Lemma post_init_valid o o' : Order_post_init o = Return o' -> o' = o /\ valid_order o.
Proof.
  unfold Order_post_init. repeat case_bool_decide; try discriminate.
  intros [= <-]. split; [done|]. split; [lia|].
  intros Hl. destruct (price o); [eauto|]. tauto.
Qed.

Lemma factory_limit_spec f ts sd p q ow r f' :
  factory_limit f ts sd p q ow = (r, f') ->
  f' = bump f /\
  forall o, r = Return o ->
    valid_order o /\ order_id o = idn f (counter f) /\ owner o = ow.
Proof.
  unfold factory_limit. rewrite next_id_eq. intros [= <- <-]. split; [done|].
  intros o [-> Hv]%post_init_valid. done.
Qed.

Lemma factory_market_spec f ts sd q ow r f' :
  factory_market f ts sd q ow = (r, f') ->
  f' = bump f /\
  forall o, r = Return o ->
    valid_order o /\ order_id o = idn f (counter f) /\ owner o = ow.
Proof.
  unfold factory_market. rewrite next_id_eq. intros [= <- <-]. split; [done|].
  intros o [-> Hv]%post_init_valid. done.
Qed.

(** An order from the factory is pending, and the invariant stands. *)
Lemma issue_pending b f o :
  book_inv b f -> valid_order o -> order_id o = idn f (counter f) ->
  book_inv b (bump f) /\ pending b (bump f) (counter f) o.
Proof.
  intros Hb Hv Hid. split; [by apply book_inv_bump|].
  split; [done|]. split; [done|]. split; [simpl; lia|].
  rewrite Hid. by apply book_inv_fresh.
Qed.

Section book_methods.
Context {A : Arith} {G : Type} {gen : Generator G}.
Implicit Types s : EventDrivenSimulator G.

Lemma new_limit_run ts sd p q ow s o s' n :
  new_limit ts sd p q ow s = Return (o, s') -> inv n s ->
  inv n s' /\ pending (book s') (factory s') (counter (factory s)) o /\
  factory s' = bump (factory s) /\ book s' = book s /\ owner o = ow.
Proof.
  unfold new_limit. intros H [Hb Ho]. run_step H.
  match goal with E : factory_limit _ _ _ _ _ _ = _ |- _ =>
    apply factory_limit_spec in E as [-> Hs] end.
  destruct (Hs _ eq_refl) as (Hv & Hid & Hw). unfold inv. simpl.
  destruct (issue_pending _ _ _ Hb Hv Hid). done.
Qed.

Lemma new_market_run ts sd q ow s o s' n :
  new_market ts sd q ow s = Return (o, s') -> inv n s ->
  inv n s' /\ pending (book s') (factory s') (counter (factory s)) o /\
  factory s' = bump (factory s) /\ book s' = book s /\ owner o = ow.
Proof.
  unfold new_market. intros H [Hb Ho]. run_step H.
  match goal with E : factory_market _ _ _ _ _ = _ |- _ =>
    apply factory_market_spec in E as [-> Hs] end.
  destruct (Hs _ eq_refl) as (Hv & Hid & Hw). unfold inv. simpl.
  destruct (issue_pending _ _ _ Hb Hv Hid). done.
Qed.

Lemma submit_run o s o' s' n c :
  submit o s = Return (o', s') -> inv n s -> pending (book s) (factory s) c o ->
  factory s' = factory s /\
  active_order_ids (market_maker s') = active_order_ids (market_maker s) /\
  book_inv (book s') (factory s') /\
  (exists q, o' = set_qty o q) /\
  (forall k, k ∈ open_orders (book s') None ->
     k ∈ open_orders (book s) None \/ k = order_id o) /\
  (forall r, r ∈ all_resting (book s') -> owner r = "MM" ->
     order_id r ∈ active_order_ids (market_maker s) \/ (r = o' /\ 0 < qty o')).
Proof.
  unfold submit. intros H [Hb [_ Ho]] (Hv & Hid & Hc & Hfresh). run_step H.
  match goal with E : add_order _ _ = _ |- _ => rename E into H end.
  match goal with E : _process_trades _ _ = _ |- _ =>
    apply framed_process_trades, view_eq in E as (Hb' & Hf' & Ha'); simpl in * end.
  rewrite Hb', Hf', Ha'.
  destruct (book_inv_add _ _ _ _ _ _ Hb Hv (ex_intro _ c (conj Hc Hid)) Hfresh H)
    as [Hinv Hkeys].
  destruct (add_order_resting _ _ _ _ _ (inv_wf _ _ Hb) Hv H) as [Hq Hrest].
  do 5 (split; [done|]). intros r Hr Hmm.
  destruct (Hrest r Hr) as [(r0 & Hr0 & Hid0 & Hw0)|(-> & _ & ?)]; [left|by right].
  rewrite Hid0. apply Ho; [done|congruence].
Qed.

(** An order that is not the agent's. *)
Lemma submit_other o s o' s' n c :
  submit o s = Return (o', s') -> inv n s -> pending (book s) (factory s) c o ->
  owner o <> "MM" ->
  inv n s' /\ factory s' = factory s /\
  (forall k, k ∈ open_orders (book s') None ->
     k ∈ open_orders (book s) None \/ k = order_id o).
Proof.
  intros H Hi Hp Hw. pose proof Hi as [_ [Hsz _]].
  destruct (submit_run _ _ _ _ _ _ H Hi Hp) as (Hf & Ha & Hb & [q ->] & Hk & Hr).
  split; [|done]. split; [done|]. rewrite Ha. split; [done|].
  intros r Hin Hmm. destruct (Hr r Hin Hmm) as [?|[-> _]]; [done|].
  by destruct Hw.
Qed.

End book_methods.

Lemma all_resting_filter b b' (P : Order -> Prop) `{forall o, Decision (P o)} :
  (forall s, resting b' s = filter P (resting b s)) ->
  all_resting b' = filter P (all_resting b).
Proof. intros Hr. unfold all_resting. by rewrite filter_app, !Hr. Qed.

Lemma book_inv_cancel_all b f l : book_inv b f -> book_inv (cancel_all b l) f.
Proof.
  intros [Hwf Hi Hk]. destruct (cancel_all_spec b l Hwf Hi) as (? & ? & _ & Hx).
  split; [done..|]. intros k Hin. apply Hk. simpl in *. rewrite Hx in Hin.
  apply list_elem_of_fmap in Hin as (kv & -> & Hin%list_elem_of_filter).
  apply list_elem_of_fmap_2. tauto.
Qed.

Lemma own_inv_cancel_all n b l ids :
  book_wf b -> index_wf b -> own_inv n b ids -> own_inv n (cancel_all b l) ids.
Proof.
  intros Hwf Hi [Hsz Ho]. split; [done|]. intros o Hin.
  destruct (cancel_all_spec b l Hwf Hi) as (_ & _ & Hr & _).
  rewrite (all_resting_filter b _ _ Hr) in Hin.
  apply list_elem_of_filter in Hin as [_ Hin]. by apply Ho.
Qed.

(** After the ids of the agent's set are cancelled, none of its orders rests. *)
Lemma own_inv_cancelled n b l ids :
  book_wf b -> index_wf b -> own_inv n b ids -> (forall k, k ∈ ids -> k ∈ l) ->
  own_inv 0 (cancel_all b l) ∅.
Proof.
  intros Hwf Hi [_ Ho] Hl. split; [by rewrite size_empty|]. intros o Hin Hmm.
  destruct (cancel_all_spec b l Hwf Hi) as (_ & _ & Hr & _).
  rewrite (all_resting_filter b _ _ Hr) in Hin.
  apply list_elem_of_filter in Hin as [Hnl Hin]. destruct Hnl. by apply Hl, Ho.
Qed.

Lemma cancel_all_one b k : (cancel b k).2 = cancel_all b [k].
Proof. reflexivity. Qed.

Lemma inv_cancel {G} n (s : EventDrivenSimulator G) k :
  inv n s -> inv n (set_book s (cancel (book s) k).2).
Proof.
  intros [Hb Ho]. unfold inv. simpl. rewrite cancel_all_one. split.
  - by apply book_inv_cancel_all.
  - apply own_inv_cancel_all; [apply Hb..|done].
Qed.

Lemma pending_after_submit b b' f c1 c2 o1 o2 :
  pending b f c2 o2 ->
  (forall k, k ∈ open_orders b' None -> k ∈ open_orders b None \/ k = order_id o1) ->
  order_id o1 = idn f c1 -> c1 <> c2 -> pending b' f c2 o2.
Proof.
  intros (Hv & Hid & Hc & Hfresh) Hk Hid1 Hne. split; [done|]. split; [done|].
  split; [done|]. intros Hin. destruct (Hk _ Hin) as [?|Heq]; [done|].
  rewrite Hid, Hid1 in Heq. by apply idn_inj in Heq.
Qed.

Lemma hoare_for_each {G X} (I : EventDrivenSimulator G -> Prop) (l : list X)
    (body : X -> M G unit) :
  (forall x, hoare I (body x) (fun _ => I)) -> hoare I (for_each l body) (fun _ => I).
Proof.
  intros Hb. induction l as [|x l IH]; intros s y s' Hi H; simpl in H.
  - by apply ret_Return in H as [_ ->].
  - apply bind_Return in H as (? & s1 & H1 & H2).
    eapply IH; [|exact H2]. by eapply Hb.
Qed.

(** One step of the invariant along a run that has been split into calls:
    the call of a factory method, of [submit] for an order that is not the
    agent's, or of a method that leaves the book alone. *)
Ltac inv_next :=
  match goal with
  | Hi : inv ?n _, E : new_limit _ _ _ _ _ _ = Return _ |- _ =>
      let Hi' := fresh "Hi" in
      destruct (new_limit_run _ _ _ _ _ _ _ _ n E Hi) as (Hi' & ?Hp & ?Hf & ?Hbk & ?Hw);
      clear E
  | Hi : inv ?n _, E : new_market _ _ _ _ _ = Return _ |- _ =>
      let Hi' := fresh "Hi" in
      destruct (new_market_run _ _ _ _ _ _ _ n E Hi) as (Hi' & ?Hp & ?Hf & ?Hbk & ?Hw);
      clear E
  | Hi : inv ?n _, Hp : pending _ _ ?c ?o, Hw : owner ?o = _,
    E : submit ?o _ = Return _ |- _ =>
      let Hi' := fresh "Hi" in
      let Hne := fresh "Hne" in
      assert (Hne : owner o <> "MM") by (rewrite Hw; by repeat case_bool_decide);
      destruct (submit_other _ _ _ _ n c E Hi Hp Hne) as (Hi' & ?Hf & ?Hk);
      clear E
  | Hi : inv ?n _, E : ?m ?s = Return (_, ?s') |- _ =>
      let Hi' := fresh "Hi" in
      assert (Hi' : inv n s')
        by (refine (framed_inv n m _ s _ s' Hi E); eauto with framed);
      clear E
  end.

Section handlers.
Context {A : Arith} {G : Type} {gen : Generator G}.
Implicit Types s : EventDrivenSimulator G.

Lemma seed_level_inv n level : hoare (G := G) (inv n) (seed_level level) (fun _ => inv n).
Proof.
  intros s x s' Hi H. unfold seed_level in H. run_step H.
  match goal with
  | Hbid : new_limit _ BID _ _ _ s = Return (?bid, ?s1),
    Hask : new_limit _ ASK _ _ _ ?s1 = Return (?ask, ?s2),
    Hs1 : submit ?bid ?s2 = Return (_, ?s3),
    Hs2 : submit ?ask ?s3 = Return _ |- _ =>
      destruct (new_limit_run _ _ _ _ _ _ _ _ n Hbid Hi) as (Hi1 & Hp1 & Hf1 & Hb1 & Hw1);
      destruct (new_limit_run _ _ _ _ _ _ _ _ n Hask Hi1) as (Hi2 & Hp2 & Hf2 & Hb2 & Hw2);
      apply pending_bump in Hp1; rewrite <- Hf2, <- Hb2 in Hp1;
      assert (Hne1 : owner bid <> "MM") by (by rewrite Hw1);
      destruct (submit_other _ _ _ _ n _ Hs1 Hi2 Hp1 Hne1) as (Hi3 & Hf3 & Hk3);
      assert (Hp3 : pending (book s3) (factory s3) (counter (factory s1)) ask);
      [ rewrite Hf3; eapply pending_after_submit; [exact Hp2|exact Hk3|apply Hp1|];
        rewrite Hf1; simpl; lia
      | assert (Hne2 : owner ask <> "MM") by (by rewrite Hw2);
        by destruct (submit_other _ _ _ _ n _ Hs2 Hi3 Hp3 Hne2) as (Hi4 & _) ]
  end.
Qed.

Lemma seed_book_inv n : hoare (G := G) (inv n) _seed_book (fun _ => inv n).
Proof.
  intros s x s' Hi H. unfold _seed_book in H. run_step H.
  eapply hoare_for_each; [apply seed_level_inv|exact Hi|done].
Qed.

Lemma handle_limit_arrival_inv n : hoare (inv n) _handle_limit_arrival (fun _ => inv n).
Proof.
  intros s x s' Hi H. unfold _handle_limit_arrival in H. run_step H.
  repeat inv_next. done.
Qed.

Lemma handle_market_arrival_inv n : hoare (inv n) _handle_market_arrival (fun _ => inv n).
Proof.
  intros s x s' Hi H. unfold _handle_market_arrival in H. run_step H;
    repeat inv_next; done.
Qed.

Lemma handle_cancel_arrival_inv n : hoare (inv n) _handle_cancel_arrival (fun _ => inv n).
Proof.
  intros s x s' Hi H. unfold _handle_cancel_arrival in H. run_step H; [done|].
  by apply (inv_cancel n (set_rng s _)).
Qed.

Lemma apply_immediate_inv n sg jt src :
  hoare (G := G) (inv n) (_apply_immediate_fundamental_impact sg jt src) (fun _ => inv n).
Proof.
  intros s x s' Hi H. unfold _apply_immediate_fundamental_impact in H. run_step H;
    repeat inv_next; done.
Qed.

Lemma handle_fundamental_move_inv n pl :
  hoare (inv n) (_handle_fundamental_move pl) (fun _ => inv n).
Proof.
  intros s x s' Hi H. unfold _handle_fundamental_move in H. run_step H.
  - inv_next. eapply apply_immediate_inv; [|done]. done.
  - by inv_next.
Qed.

Lemma apply_slow_inv n :
  hoare (inv n) _apply_slow_fundamental_adaptation (fun _ => inv n).
Proof.
  intros s x s' Hi H. unfold _apply_slow_fundamental_adaptation in H. run_step H;
    repeat inv_next; done.
Qed.

End handlers.

(** ** The refresh of the agent's quotes *)

Lemma make_quotes_orders {A : Arith} mm ts mid bb ba f quotes f' :
  make_quotes mm ts mid bb ba f = Return (quotes, f') ->
  exists bid ask,
    quotes = [bid; ask] /\ f' = bump (bump f) /\
    valid_order bid /\ order_id bid = idn f (counter f) /\
    valid_order ask /\ order_id ask = idn f (counter f + 1).
Proof.
  unfold make_quotes. destruct (quote_prices _ _ _ _) as [[pb pa]| |]; [|done..].
  cbn -[factory_limit].
  destruct (factory_limit f _ _ _ _ _) as [r1 f1] eqn:E1.
  apply factory_limit_spec in E1 as [-> H1].
  destruct r1 as [bid| |]; [|done..]. cbn -[factory_limit].
  destruct (factory_limit (bump f) _ _ _ _ _) as [r2 f2] eqn:E2.
  apply factory_limit_spec in E2 as [-> H2].
  destruct r2 as [ask| |]; [|done..]. simpl. intros [= <- <-].
  destruct (H1 _ eq_refl) as (? & ? & _). destruct (H2 _ eq_refl) as (? & ? & _).
  by exists bid, ask.
Qed.

Lemma for_each_cancel {G} (l : list string) (s : EventDrivenSimulator G) :
  for_each l (fun oid => modify (fun s => set_book s (cancel (book s) oid).2)) s =
  Return (tt, set_book s (cancel_all (book s) l)).
Proof.
  revert s. induction l as [|k l IH]; intros s; simpl.
  - by destruct s.
  - unfold mbind, M_bind, modify at 1. by rewrite IH.
Qed.

Lemma own_inv_le n m b ids : (n <= m)%nat -> own_inv n b ids -> own_inv m b ids.
Proof. intros Hle [Hsz Ho]. split; [lia|done]. Qed.

Section refresh.
Context {A : Arith} {G : Type} {gen : Generator G}.
Variable set_iter : gset string -> list string.
Hypothesis Henum : enumeration set_iter.
Implicit Types s : EventDrivenSimulator G.

Lemma place_quote_run o s x s' n c :
  place_quote o s = Return (x, s') -> inv n s -> pending (book s) (factory s) c o ->
  inv (S n) s' /\ factory s' = factory s /\
  (forall k, k ∈ open_orders (book s') None ->
     k ∈ open_orders (book s) None \/ k = order_id o).
Proof.
  unfold place_quote. intros H Hi Hp. pose proof Hi as [_ [Hsz _]]. run_step H;
    match goal with E : submit _ _ = _ |- _ =>
      destruct (submit_run _ _ _ _ _ _ E Hi Hp) as (Hf & Ha & Hb & [q Hq] & Hk & Hr)
    end.
  - split; [|done]. split; [done|]. simpl. rewrite Ha, Hq. simpl. split.
    + rewrite size_union_alt, size_singleton.
      assert (active_order_ids (market_maker s) ∖ {[order_id o]}
              ⊆ active_order_ids (market_maker s)) as Hsub%subseteq_size.
      { intros k0 Hk0. by apply elem_of_difference in Hk0 as [? _]. }
      lia.
    + intros r Hin Hmm. apply elem_of_union.
      destruct (Hr r Hin Hmm) as [?|[-> _]]; [by right|left].
      rewrite Hq. by apply elem_of_singleton.
  - split; [|done]. split; [done|]. rewrite Ha. split; [lia|].
    intros r Hin Hmm. destruct (Hr r Hin Hmm) as [?|[_ ?]]; [done|].
    match goal with E : bool_decide _ = false |- _ =>
      by apply bool_decide_eq_false in E end.
Qed.

Lemma handle_mm_quote_update_inv n :
  hoare (G := G) (inv n) (_handle_mm_quote_update set_iter) (fun _ => inv 2).
Proof.
  intros s x s' [Hb Ho] H. unfold _handle_mm_quote_update in H. run_step H.
  match goal with E : for_each (set_iter _) _ _ = _ |- _ =>
    rewrite for_each_cancel in E; injection E as E; subst end.
  match goal with E : make_quotes _ _ _ _ _ _ = _ |- _ =>
    apply make_quotes_orders in E as (bid & ask & -> & -> & Hv1 & Hid1 & Hv2 & Hid2) end.
  match goal with E : for_each [bid; ask] _ _ = _ |- _ =>
    cbn [for_each] in E; run_step E end.
  match goal with
  | E0 : current_mid ?a = Return (_, ?b),
    E1 : place_quote bid ?c = Return (_, ?d),
    E2 : place_quote ask ?d = Return (_, ?e) |- _ =>
      rename E0 into Hmid; rename E1 into H1; rename E2 into H2;
      set (s0' := a) in *; set (sF := c) in *;
      rename b into s1'; rename d into s3'; rename e into s4'
  end.
  assert (Hi0 : inv 0 s0').
  { split; simpl.
    - by apply book_inv_cancel_all.
    - eapply own_inv_cancelled; [apply Hb..|exact Ho|].
      intros k Hk. by rewrite (Henum _), elem_of_elements. }
  pose proof (framed_inv 0 _ framed_current_mid _ _ _ Hi0 Hmid) as [Hb1 Ho1].
  assert (HiF : inv 0 sF) by (split; [by do 2 apply book_inv_bump|done]).
  assert (Hp1 : pending (book sF) (factory sF) (counter (factory s1')) bid).
  { split; [done|]. split; [done|]. split; [simpl; lia|].
    rewrite Hid1. by apply book_inv_fresh. }
  assert (Hp2 : pending (book sF) (factory sF) (counter (factory s1') + 1) ask).
  { split; [done|]. split; [done|]. split; [simpl; lia|].
    rewrite Hid2. apply book_inv_fresh; [done|lia]. }
  destruct (place_quote_run _ _ _ _ _ _ H1 HiF Hp1) as (Hi3 & Hf3 & Hk3).
  assert (Hp3 : pending (book s3') (factory s3') (counter (factory s1') + 1) ask).
  { rewrite Hf3. eapply pending_after_submit; [exact Hp2|exact Hk3|exact Hid1|lia]. }
  by destruct (place_quote_run _ _ _ _ _ _ H2 Hi3 Hp3) as (Hi4 & _).
Qed.

End refresh.

(** ** The invariant along [run] *)

Lemma hoare_bind_inv {G X Y} (I : EventDrivenSimulator G -> Prop)
    (m : M G X) (f : X -> M G Y) :
  hoare I m (fun _ => I) -> (forall x, hoare I (f x) (fun _ => I)) ->
  hoare I (m ≫= f) (fun _ => I).
Proof.
  intros Hm Hf s y s' Hi H. apply bind_Return in H as (x & s1 & H1 & H2).
  eapply Hf; [|exact H2]. by eapply Hm.
Qed.

Create HintDb inv.

#[export] Hint Resolve seed_book_inv handle_limit_arrival_inv handle_market_arrival_inv
  handle_cancel_arrival_inv handle_fundamental_move_inv apply_slow_inv
  handle_mm_quote_update_inv : inv.

(** The invariant along a method made of methods that keep it. *)
Ltac hoare_inv :=
  repeat first
    [ progress eauto with inv
    | apply hoare_bind_inv; [|intros ?]
    | apply framed_inv; solve [framed]
    | match goal with
      | |- hoare _ (if ?c then _ else _) _ => destruct c
      | |- hoare _ (let '(_, _) := ?p in _) _ => destruct p
      | |- hoare _ (match ?x with _ => _ end) _ => destruct x
      end ].

Section run_invariant.
Context {A : Arith} {G : Type} {gen : Generator G}.
Variable set_iter : gset string -> list string.
Hypothesis Henum : enumeration set_iter.
Implicit Types s : EventDrivenSimulator G.

Lemma dispatch_inv event :
  hoare (G := G) sim_inv (dispatch set_iter event) (fun _ => sim_inv).
Proof. unfold dispatch, sim_inv. hoare_inv. Qed.

Lemma handle_event_inv event :
  hoare (G := G) sim_inv (handle_event set_iter event) (fun _ => sim_inv).
Proof.
  pose proof (dispatch_inv event). unfold handle_event, sim_inv in *. hoare_inv.
Qed.

Lemma loop_turn_inv : hoare (G := G) sim_inv (loop_turn set_iter) (fun _ => sim_inv).
Proof.
  unfold loop_turn. apply hoare_bind_inv; [apply framed_inv; framed|]. intros cfg.
  apply hoare_bind_inv; [apply framed_inv; framed|]. intros h.
  pose proof handle_event_inv. unfold sim_inv in *. hoare_inv.
Qed.

Lemma new_simulator_inv cfg : inv (G := G) 0 (new_simulator cfg).
Proof.
  split; simpl; [apply book_inv_empty|]. split; [by rewrite size_empty|].
  by intros o ?%elem_of_nil.
Qed.

Lemma start_inv cfg s : start set_iter (new_simulator cfg) = Return (tt, s) -> sim_inv s.
Proof.
  intros H. unfold start in H. run_step H.
  repeat match goal with
  | Hi : inv _ ?s0, E : _ ?s0 = Return (_, _) |- _ => revert E
  end.
  pose proof (new_simulator_inv cfg) as Hi.
  match goal with E : _seed_book _ = _ |- _ =>
    apply (seed_book_inv 0 _ _ _ Hi) in E end.
  match goal with Hi : inv 0 ?s0, E : _handle_mm_quote_update _ ?s0 = _ |- _ =>
    apply (handle_mm_quote_update_inv set_iter Henum 0 _ _ _ Hi) in E end.
  repeat inv_next. done.
Qed.

Lemma between_events_inv cfg s : between_events set_iter cfg s -> sim_inv s.
Proof.
  induction 1 as [s H|s s' _ IH H]; [by eapply start_inv|].
  by eapply loop_turn_inv.
Qed.

End run_invariant.

(** ** Two enumerations of the agent's set *)

Lemma agree_refl {G X} (I : EventDrivenSimulator G -> Prop) (m : M G X) : agree I m m.
Proof. by intros s _. Qed.

Lemma agree_bind {G X Y} (I J : EventDrivenSimulator G -> Prop)
    (m1 m2 : M G X) (f1 f2 : X -> M G Y) :
  agree I m1 m2 -> hoare I m1 (fun _ => J) -> (forall x, agree J (f1 x) (f2 x)) ->
  agree I (m1 ≫= f1) (m2 ≫= f2).
Proof.
  intros Hm Hh Hf s Hi. unfold mbind, M_bind. rewrite <- (Hm s Hi).
  destruct (m1 s) as [[x s1]| |] eqn:E; [|done..]. apply Hf. by eapply Hh.
Qed.

Lemma agree_bind_inv {G X Y} (I : EventDrivenSimulator G -> Prop)
    (m1 m2 : M G X) (f1 f2 : X -> M G Y) :
  agree I m1 m2 -> hoare I m1 (fun _ => I) -> (forall x, agree I (f1 x) (f2 x)) ->
  agree I (m1 ≫= f1) (m2 ≫= f2).
Proof. apply agree_bind. Qed.

Lemma bind_gets {G X Y} (f : EventDrivenSimulator G -> X) (k : X -> M G Y) s :
  (gets f ≫= k) s = k (f s) s.
Proof. reflexivity. Qed.

Lemma bind_congr {G X Y} (m1 m2 : M G X) (k : X -> M G Y) s :
  m1 s = m2 s -> (m1 ≫= k) s = (m2 ≫= k) s.
Proof. unfold mbind, M_bind. by intros ->. Qed.

(** Two methods built alike from methods that agree. *)
Ltac agree :=
  repeat first
    [ apply agree_refl
    | progress eauto with agree
    | apply agree_bind_inv; [|solve [hoare_inv]|intros ?]
    | match goal with
      | |- agree _ (if ?c then _ else _) _ => destruct c
      | |- agree _ (let '(_, _) := ?p in _) _ => destruct p
      | |- agree _ (match ?x with _ => _ end) _ => destruct x
      end ].

Create HintDb agree.

Section two_enumerations.
Context {A : Arith} {G : Type} {gen : Generator G}.
Variables iter1 iter2 : gset string -> list string.
Hypothesis Henum1 : enumeration iter1.
Hypothesis Henum2 : enumeration iter2.
Implicit Types s : EventDrivenSimulator G.

Lemma handle_mm_quote_update_agree n :
  agree (G := G) (inv n) (_handle_mm_quote_update iter1) (_handle_mm_quote_update iter2).
Proof.
  intros s [[Hwf Hi _] _]. unfold _handle_mm_quote_update.
  rewrite !bind_gets. apply bind_congr. rewrite !for_each_cancel.
  by rewrite (cancel_all_Permutation (book s) (iter1 _) (iter2 _) Hwf Hi)
    by (by rewrite (Henum1 _), (Henum2 _)).
Qed.

Hint Resolve handle_mm_quote_update_agree : agree.

Lemma dispatch_agree event :
  agree (G := G) sim_inv (dispatch iter1 event) (dispatch iter2 event).
Proof. unfold dispatch, sim_inv. agree. Qed.

Lemma handle_event_agree event :
  agree (G := G) sim_inv (handle_event iter1 event) (handle_event iter2 event).
Proof.
  pose proof (dispatch_agree event). pose proof (dispatch_inv iter1 Henum1 event).
  unfold handle_event, sim_inv in *. agree.
Qed.

Lemma loop_turn_agree : agree (G := G) sim_inv (loop_turn iter1) (loop_turn iter2).
Proof.
  pose proof handle_event_agree. pose proof (handle_event_inv iter1 Henum1).
  unfold loop_turn, sim_inv in *. agree.
Qed.

Lemma run_loop_agree fuel : agree (G := G) sim_inv (run_loop iter1 fuel) (run_loop iter2 fuel).
Proof.
  induction fuel as [|fuel IH]; simpl;
    (apply agree_bind_inv; [apply loop_turn_agree|by apply loop_turn_inv|]);
    intros [[]|]; try apply agree_refl. done.
Qed.

Lemma start_agree : agree (G := G) (inv 0) (start iter1) (start iter2).
Proof.
  unfold start. apply (agree_bind _ (inv 0)); [apply agree_refl|apply seed_book_inv|].
  intros _. apply (agree_bind _ (inv 2));
    [apply handle_mm_quote_update_agree|by apply handle_mm_quote_update_inv|].
  intros _. apply agree_refl.
Qed.

Lemma start_inv_hoare : hoare (G := G) (inv 0) (start iter1) (fun _ => sim_inv).
Proof.
  intros s x s' Hi H. unfold start in H. run_step H.
  match goal with E : _seed_book _ = _ |- _ =>
    apply (seed_book_inv 0 _ _ _ Hi) in E end.
  match goal with Hi : inv 0 ?s0, E : _handle_mm_quote_update _ ?s0 = _ |- _ =>
    apply (handle_mm_quote_update_inv iter1 Henum1 0 _ _ _ Hi) in E end.
  repeat inv_next. done.
Qed.

Lemma run_from_agree fuel :
  agree (G := G) (inv 0) (run_from iter1 fuel) (run_from iter2 fuel).
Proof.
  unfold run_from. apply (agree_bind _ sim_inv);
    [apply start_agree|apply start_inv_hoare|]. intros _. apply run_loop_agree.
Qed.

Lemma run_agree cfg fuel : run iter1 cfg fuel = run iter2 cfg fuel.
Proof.
  unfold run. by rewrite (run_from_agree fuel _ (new_simulator_inv cfg)).
Qed.

End two_enumerations.

(** * The seeded book *)

(** C1 fails as stated.  [_seed_book] with the default configuration (three
    levels of 20 a side, base price 100, tick 0.01) leaves the best bid at
    99.99 and the best ask at 100.01, the levels next to the base price,
    and a spread of 0.02: 99.97, 100.03 and 0.06 are the outermost levels
    and their distance.  In binary64 the best prices are likewise the
    doubles nearest to 99.99 and 100.01. *)
Lemma C1_counterexample :
  (exists s : EventDrivenSimulator (list Qc),
     _seed_book (A := exact) (new_simulator (gen := stepping) (default_config (A := exact)))
       = Return (tt, s) /\
     best_bid (book s) = Some (dec 9999 100) /\
     best_bid (book s) <> Some (dec 9997 100) /\
     best_ask (book s) = Some (dec 10001 100) /\
     best_ask (book s) <> Some (dec 10003 100) /\
     spread (A := exact) (book s) = Some (dec 2 100) /\
     spread (A := exact) (book s) <> Some (dec 6 100)) /\
  (exists s : EventDrivenSimulator (list Qc),
     _seed_book (A := Binary64.binary64)
       (new_simulator (gen := stepping) (default_config (A := Binary64.binary64)))
       = Return (tt, s) /\
     best_bid (book s) = Some (fl (Arith := Binary64.binary64) (dec 9999 100)) /\
     best_bid (book s) <> Some (fl (Arith := Binary64.binary64) (dec 9997 100)) /\
     best_ask (book s) = Some (fl (Arith := Binary64.binary64) (dec 10001 100)) /\
     best_ask (book s) <> Some (fl (Arith := Binary64.binary64) (dec 10003 100)) /\
     spread (A := Binary64.binary64) (book s)
       <> Some (fl (Arith := Binary64.binary64) (dec 6 100))).
Proof.
  split.
  - exists (seeded_exact (gen := stepping)).
    split; [vm_compute; reflexivity|]. repeat split; by_compute.
  - exists (seeded_binary64 (gen := stepping)).
    split; [vm_compute; reflexivity|]. repeat split; by_compute.
Qed.

(** C1, amended: seeding the default configuration returns, and leaves the
    bid levels 99.97, 99.98, 99.99 and the ask levels 100.01, 100.02, 100.03
    with 20 units at the best ones, so that the best bid is 99.99, the best
    ask 100.01 and the mid price 100; the spread is 0.02 in exact arithmetic.
    In binary64 the best prices are the doubles nearest to 99.99 and 100.01,
    the mid price is 100, and the spread, the difference of two doubles, is
    within 2e-14 of 0.02 without being the double nearest to 0.02. *)
Theorem C1_seed_scenario {G : Type} {gen : Generator G} :
  (exists s : EventDrivenSimulator G,
     _seed_book (A := exact) (new_simulator (default_config (A := exact))) = Return (tt, s) /\
     _bid_prices (book s) = [dec 9997 100; dec 9998 100; dec 9999 100] /\
     _ask_prices (book s) = [dec 10001 100; dec 10002 100; dec 10003 100] /\
     top_depth (book s) = Return (20, 20) /\
     best_bid (book s) = Some (dec 9999 100) /\
     best_ask (book s) = Some (dec 10001 100) /\
     spread (A := exact) (book s) = Some (dec 2 100) /\
     mid_price (A := exact) (book s) = Some (Q2Qc 100)) /\
  (exists (s : EventDrivenSimulator G) (sp : Qc),
     _seed_book (A := Binary64.binary64)
       (new_simulator (default_config (A := Binary64.binary64))) = Return (tt, s) /\
     top_depth (book s) = Return (20, 20) /\
     best_bid (book s) = Some (fl (Arith := Binary64.binary64) (dec 9999 100)) /\
     best_ask (book s) = Some (fl (Arith := Binary64.binary64) (dec 10001 100)) /\
     mid_price (A := Binary64.binary64) (book s) = Some (Q2Qc 100) /\
     spread (A := Binary64.binary64) (book s) = Some sp /\
     (py_abs (sp - dec 2 100) < dec 2 100000000000000)%Qc /\
     sp <> fl (Arith := Binary64.binary64) (dec 2 100)).
Proof.
  split.
  - exists seeded_exact. split; [vm_compute; reflexivity|]. repeat split; by_compute.
  - exists seeded_binary64, (Q2Qc (703687441777 # 35184372088832)).
    split; [vm_compute; reflexivity|]. repeat split; by_compute.
Qed.

(** * The agent's set of active ids *)

(** C8 fails as stated.  With a refresh of the quotes every second event,
    the first event of this run is a market buy of four units; it takes the
    unit seeded at 100.01 and the whole of the agent's ask quote [ORD-8]
    behind it.  Between this event and the next the set still holds
    [ORD-8], which no longer rests in the book. *)
Lemma C8_counterexample :
  exists s : EventDrivenSimulator (list Qc),
    between_events (A := exact) (gen := buy_four) elements every_second_config s /\
    "ORD-8" ∈ active_order_ids (market_maker s) /\
    ("ORD-8" ∉ open_orders (book s) None) /\
    ("ORD-8" ∉ order_id <$> all_resting (book s)) /\
    exists t, t ∈ trades s /\ maker_order_id t = "ORD-8" /\ maker_owner t = "MM" /\
              trade_qty t = quote_qty (cfg_market_maker every_second_config).
Proof.
  exists buy_four_first. split.
  - apply (after_event _ _ buy_four_start); [apply after_start|]; vm_compute; reflexivity.
  - split; [by_compute|]. split; [by_compute|]. split; [by_compute|].
    destruct (trades buy_four_first !! 1%nat) as [t|] eqn:Ht; [|by vm_compute in Ht].
    exists t. split; [by eapply list_elem_of_lookup_2|].
    vm_compute in Ht. injection Ht as <-. repeat split; by_compute.
Qed.

(** C8, amended: at every point between two events of a run, the agent's
    set holds at most two ids, and among them the id of every order of the
    agent that rests in the book.  (The id of a quote that was filled whole
    stays in the set until the next refresh, where its cancellation fails
    without effect.) *)
Theorem C8_active_ids_cover_resting_quotes {A : Arith} {G : Type} {gen : Generator G}
    (set_iter : gset string -> list string) (cfg : SimulatorConfig)
    (s : EventDrivenSimulator G) :
  enumeration set_iter -> between_events set_iter cfg s ->
  (size (active_order_ids (market_maker s)) <= 2)%nat /\
  (forall o, o ∈ all_resting (book s) -> owner o = "MM" ->
     order_id o ∈ active_order_ids (market_maker s)) /\
  (forall oid, oid ∈ active_order_ids (market_maker s) ->
     oid ∉ open_orders (book s) None -> cancel (book s) oid = (false, book s)).
Proof.
  intros Henum Hs. destruct (between_events_inv set_iter Henum cfg s Hs) as [Hb [Hsz Ho]].
  split; [done|]. split; [done|]. intros oid _ Hn.
  pose proof (cancel_spec (book s) oid (inv_wf _ _ Hb) (inv_index _ _ Hb)) as Hc.
  rewrite decide_False in Hc; [done|]. by rewrite <- index_wf_keys by apply Hb.
Qed.

Lemma enumeration_elements : enumeration elements.
Proof. by intros X. Qed.

Lemma enumeration_reverse : enumeration (reverse ∘ elements).
Proof. intros X. apply reverse_Permutation. Qed.

Lemma C8_witness :
  exists s : EventDrivenSimulator (list Qc),
    between_events (A := exact) (gen := buy_four) elements every_second_config s /\
    active_order_ids (market_maker s) = {["ORD-7"; "ORD-8"]} /\
    open_orders (book s) (Some "MM") = ["ORD-7"] /\
    (size (active_order_ids (market_maker s)) <= 2)%nat /\
    (forall o, o ∈ all_resting (book s) -> owner o = "MM" ->
       order_id o ∈ active_order_ids (market_maker s)) /\
    (forall oid, oid ∈ active_order_ids (market_maker s) ->
       oid ∉ open_orders (book s) None -> cancel (book s) oid = (false, book s)).
Proof.
  assert (Hs : between_events (A := exact) (gen := buy_four) elements
                 every_second_config buy_four_first).
  { apply (after_event _ _ buy_four_start); [apply after_start|]; vm_compute; reflexivity. }
  exists buy_four_first. split; [exact Hs|]. split; [by_compute|]. split; [by_compute|].
  exact (C8_active_ids_cover_resting_quotes (A := exact) (gen := buy_four)
           elements every_second_config buy_four_first enumeration_elements Hs).
Defined.

(** * Determinism *)

(** C9: [run] is a function of the configuration.  The generator is seeded
    from it, the heap breaks ties of time by sequence number, and the one
    thing the configuration does not fix, the order in which Python
    enumerates the agent's set of ids (it follows the hashes of the
    strings, salted per process), does not show: two runs that enumerate
    the set in different orders do the same with the same fuel, both return
    the same snapshots, trades, fill log and configuration, or both raise
    the same exception. *)
Theorem C9_run_deterministic {A : Arith} {G : Type} {gen : Generator G}
    (iter1 iter2 : gset string -> list string) (cfg : SimulatorConfig) (fuel : nat) :
  enumeration iter1 -> enumeration iter2 ->
  run iter1 cfg fuel = run iter2 cfg fuel /\
  forall r, run iter1 cfg fuel = Return r ->
    exists r', run iter2 cfg fuel = Return r' /\
      out_snapshots r' = out_snapshots r /\ out_trades r' = out_trades r /\
      out_mm_fills r' = out_mm_fills r.
Proof.
  intros H1 H2. pose proof (run_agree iter1 iter2 H1 H2 cfg fuel) as Heq.
  split; [done|]. intros r Hr. exists r. by rewrite <- Heq.
Qed.

Lemma C9_witness :
  (exists r, run (A := exact) (gen := stepping) elements short_config 20 = Return r /\
             length (out_snapshots r) = 10%nat /\ length (out_trades r) = 5%nat /\
             length (out_mm_fills r) = 3%nat) /\
  elements ({["ORD-7"; "ORD-8"]} : gset string)
    <> (reverse ∘ elements) ({["ORD-7"; "ORD-8"]} : gset string) /\
  run (A := exact) (gen := stepping) elements short_config 20 =
  run (A := exact) (gen := stepping) (reverse ∘ elements) short_config 20.
Proof.
  split; [|split].
  - exists short_result. split; [vm_compute; reflexivity|]. repeat split; by_compute.
  - by_compute.
  - apply (C9_run_deterministic (A := exact) (gen := stepping));
      [apply enumeration_elements | apply enumeration_reverse].
Defined.

(** * Further properties of the order book *)

Lemma sum_qty_app q1 q2 : sum_qty (q1 ++ q2) = sum_qty q1 + sum_qty q2.
Proof. induction q1 as [|o q1 IH]; simpl; [done|]. rewrite IH. lia. Qed.


Lemma sum_qty_nonneg q : Forall (fun m => 0 < qty m) q -> 0 <= sum_qty q.
Proof. induction 1 as [|o q Ho _ IH]; simpl; lia. Qed.

Lemma sum_qty_pos q : Forall (fun m => 0 < qty m) q -> q <> [] -> 0 < sum_qty q.
Proof.
  intros Hq Hne. destruct Hq as [|o q Ho Hq]; [done|].
  simpl. pose proof (sum_qty_nonneg q Hq). lia.
Qed.


(** A walk without trades leaves the taker and the makers as they were. *)
Lemma fill_walk_no_trade taker ms :
  (fill_walk taker ms).1.1 = [] -> fill_walk taker ms = ([], taker, ms).
Proof.
  destruct ms as [|m ms]; simpl; [done|].
  destruct (price m) as [p|]; [|done].
  destruct (bool_decide (0 < qty taker) && negb (limit_reached taker p)); [|done].
  case_bool_decide; [|done]. by destruct (fill_walk _ ms) as [[ts t] r].
Qed.



(** The test of the outer loop of [_match], as a bound on the price. *)
Lemma limit_reached_false taker p lim :
  order_type taker = LIMIT -> price taker = Some lim ->
  limit_reached taker p = false ->
  match side taker with BID => (p <= lim)%Qc | ASK => (lim <= p)%Qc end.
Proof.
  unfold limit_reached. intros -> ->. destruct (side taker);
    intros Hd%bool_decide_eq_false; qc_order.
Qed.

Lemma Forall2_full_fill_lookup l ms i t :
  Forall2 full_fill l ms -> l !! i = Some t ->
  exists m, ms !! i = Some m /\ price m = Some (trade_price t).
Proof.
  intros HF Hi. destruct (Forall2_lookup_l _ _ _ _ _ HF Hi) as (m & Hm & _ & _ & Hp).
  eauto.
Qed.

Lemma fill_walk_timestamps taker ms :
  Forall (fun t => trade_timestamp t = timestamp taker) (fill_walk taker ms).1.1.
Proof.
  revert taker. induction ms as [|m ms IH]; intros taker; simpl; [done|].
  destruct (price m) as [p|]; [|done].
  destruct (bool_decide (0 < qty taker) && negb (limit_reached taker p)); [|done].
  case_bool_decide.
  - specialize (IH (set_qty taker (qty taker - Z.min (qty taker) (qty m)))).
    destruct (fill_walk _ ms) as [[ts t] r]. simpl in *. by constructor.
  - simpl. by repeat constructor.
Qed.

(** X2: the trades of one [add_order] come in price priority and within the
    limit.  A later trade is never at a better price for the taker than an
    earlier one (a buyer walks up the asks, a seller down the bids), every
    trade of a limit order is at its limit price or better, and every trade
    carries the id, the side, the owner and the timestamp of the taker. *)
Theorem X2_trades_in_price_priority (b : LimitOrderBook) (o : Order)
    (trades : list Trade) (b' : LimitOrderBook) (o' : Order) :
  reachable b -> valid_order o -> add_order b o = Return (trades, b', o') ->
  (forall i j ti tj, (i <= j)%nat -> trades !! i = Some ti -> trades !! j = Some tj ->
     match side o with
     | BID => (trade_price ti <= trade_price tj)%Qc
     | ASK => (trade_price tj <= trade_price ti)%Qc
     end) /\
  (forall t lim, t ∈ trades -> order_type o = LIMIT -> price o = Some lim ->
     match side o with
     | BID => (trade_price t <= lim)%Qc
     | ASK => (lim <= trade_price t)%Qc
     end) /\
  (forall t, t ∈ trades ->
     taker_order_id t = order_id o /\ taker_side t = side o /\
     taker_owner t = owner o /\ trade_timestamp t = timestamp o).
Proof.
  intros Hr Hv Hadd. pose proof (reachable_wf b Hr) as Hwf.
  destruct (add_order_spec b o Hwf Hv) as (b2 & Hadd2 & _).
  rewrite Hadd in Hadd2. injection Hadd2 as Htr _ _.
  pose proof (resting_positive b (opposite (side o)) Hwf) as Hpos.
  assert (Hsplit : forall j tj, trades !! j = Some tj ->
            exists l1 l2, trades = l1 ++ tj :: l2 /\ length l1 = j).
  { intros j tj Hj. exists (take j trades), (drop (S j) trades).
    split; [by rewrite take_drop_middle|].
    apply length_take_le. apply lookup_lt_Some in Hj. lia. }
  split; [|split].
  - intros i j ti tj Hij Hi Hj.
    destruct (decide (i = j)) as [->|Hne].
    { rewrite Hi in Hj. injection Hj as ->. destruct (side o); apply Qcle_refl. }
    destruct (Hsplit j tj Hj) as (l1 & l2 & Heq & Hlen).
    destruct (fills_trades_inv o _ l1 tj l2 Hpos (eq_trans (eq_sym Htr) Heq))
      as (ms1 & m & ms2 & Hms & HF & _ & Hp & _).
    assert (Hi1 : l1 !! i = Some ti).
    { rewrite Heq, lookup_app_l in Hi by lia. done. }
    destruct (Forall2_full_fill_lookup _ _ _ _ HF Hi1) as (mi & Hmi & Hpi).
    pose proof (resting_sorted b (opposite (side o)) Hwf) as Hs.
    rewrite Hms in Hs. apply StronglySorted_app in Hs as (Hall & _ & _).
    destruct (Hall mi m) as (p1 & p2 & Hp1 & Hp2 & Hnw);
      [by eapply list_elem_of_lookup_2 | by left|].
    rewrite Hpi in Hp1. rewrite Hp in Hp2. injection Hp1 as <-. injection Hp2 as <-.
    unfold no_worse in Hnw. by destruct (side o).
  - intros t lim Ht Hty Hlim. apply list_elem_of_lookup in Ht as [j Hj].
    destruct (Hsplit j t Hj) as (l1 & l2 & Heq & _).
    destruct (fills_trades_inv o _ l1 t l2 Hpos (eq_trans (eq_sym Htr) Heq))
      as (_ & _ & _ & _ & _ & _ & _ & Hl & _).
    by apply limit_reached_false.
  - intros t Ht. apply list_elem_of_lookup in Ht as [j Hj].
    destruct (Hsplit j t Hj) as (l1 & l2 & Heq & _).
    destruct (fills_trades_inv o _ l1 t l2 Hpos (eq_trans (eq_sym Htr) Heq))
      as (_ & _ & _ & _ & _ & _ & _ & _ & _ & _ & _ & ? & ? & ? & _).
    split; [done|]. split; [done|]. split; [done|].
    pose proof (fill_walk_timestamps o (resting b (opposite (side o)))) as Hts.
    rewrite Forall_forall in Hts. apply Hts. rewrite <- Htr. by eapply list_elem_of_lookup_2.
Qed.

Lemma X2_witness :
  reachable book3 /\ valid_order (limit_order "ORD-4" BID (dec 10005 100) 30) /\
  exists trades b' o' t1 t2,
    add_order book3 (limit_order "ORD-4" BID (dec 10005 100) 30)
      = Return (trades, b', o') /\
    trades = [t1; t2] /\
    (trade_price t1 <= trade_price t2)%Qc /\ (trade_price t2 <= dec 10005 100)%Qc.
Proof.
  assert (Hv : valid_order (limit_order "ORD-4" BID (dec 10005 100) 30))
    by (apply limit_order_valid; lia).
  pose proof (reachable_fresh_reachable _ book3_reachable) as Hr.
  split; [exact Hr|]. split; [exact Hv|].
  destruct (add_order book3 (limit_order "ORD-4" BID (dec 10005 100) 30))
    as [[[trades b'] o']| |] eqn:Hadd; [|by vm_compute in Hadd..].
  destruct (X2_trades_in_price_priority book3 _ trades b' o' Hr Hv Hadd)
    as (Hord & Hlim & _).
  assert (Htr : exists t1 t2, trades = [t1; t2]).
  { vm_compute in Hadd. injection Hadd as <- _ _. by eexists _, _. }
  destruct Htr as (t1 & t2 & ->). exists [t1; t2], b', o', t1, t2.
  split; [reflexivity|]. split; [reflexivity|]. split.
  - exact (Hord 0%nat 1%nat t1 t2 (le_S _ _ (le_n _)) eq_refl eq_refl).
  - apply (Hlim t2 (dec 10005 100)); [|reflexivity..].
    apply elem_of_cons. right. apply elem_of_cons. by left.
Defined.

(** ** A passive order and its cancellation *)

Lemma dict_pop_set_fresh {K V} `{EqDecision K} (d : list (K * V)) k v :
  k ∉ d.*1 -> dict_pop (dict_set d k v) k = d.
Proof.
  intros Hk. rewrite dict_set_keys_fresh by done. unfold dict_pop.
  rewrite filter_app, filter_cons, decide_False by (simpl; tauto).
  rewrite filter_nil, app_nil_r. by apply dict_pop_absent.
Qed.

Lemma side_ext_queues s book1 levels1 book2 levels2 :
  side_wf s book1 levels1 -> side_wf s book2 levels2 ->
  (forall p, queue_at book1 p = queue_at book2 p) ->
  book1 = book2 /\ levels1 = levels2.
Proof.
  intros H1 H2 Hq.
  assert (Hb : book1 = book2).
  { apply map_eq. intros p. specialize (Hq p). unfold queue_at in Hq.
    destruct (book1 !! p) as [q1|] eqn:E1, (book2 !! p) as [q2|] eqn:E2;
      simpl in Hq; [congruence| | |done].
    - destruct (queues_ok _ _ _ H1 _ _ E1) as [? _]. congruence.
    - destruct (queues_ok _ _ _ H2 _ _ E2) as [? _]. congruence. }
  split; [done|]. subst book2.
  apply (StronglySorted_unique_strong Qclt).
  - intros x1 x2 _ _ Ha Hb. exfalso. qc_order.
  - apply H1.
  - apply H2.
  - apply NoDup_Permutation; [apply sorted_NoDup, H1 | apply sorted_NoDup, H2 |].
    intros p. by rewrite (levels_keys _ _ _ H1), (levels_keys _ _ _ H2).
Qed.

Lemma book_ext_queues b1 b2 :
  book_wf b1 -> book_wf b2 ->
  (forall s p, queue_at (side_book b1 s) p = queue_at (side_book b2 s) p) ->
  _order_index b1 = _order_index b2 -> b1 = b2.
Proof.
  intros [Hb1 Ha1 _] [Hb2 Ha2 _] Hq Hidx.
  destruct (side_ext_queues BID _ _ _ _ Hb1 Hb2 (Hq BID)) as [??].
  destruct (side_ext_queues ASK _ _ _ _ Ha1 Ha2 (Hq ASK)) as [??].
  destruct b1, b2; simpl in *. congruence.
Qed.

Lemma queue_of_resting_book b s p :
  book_wf b -> filter (fun o => price o = Some p) (resting b s) = queue_at (side_book b s) p.
Proof. intros Hwf. apply queue_of_resting, book_wf_side, Hwf. Qed.

Lemma queue_at_elem b s p o :
  book_wf b -> o ∈ queue_at (side_book b s) p -> o ∈ all_resting b.
Proof.
  intros Hwf Ho. rewrite <- queue_of_resting_book in Ho by done.
  apply list_elem_of_filter in Ho as [_ Ho].
  rewrite (all_resting_split b s), elem_of_app. tauto.
Qed.

(** A limit order that is not marketable is beyond every opposite level. *)
Lemma not_marketable_levels b o p :
  book_wf b -> order_type o = LIMIT -> price o = Some p -> _is_marketable b o = false ->
  forall x, x ∈ side_levels b (opposite (side o)) ->
    match side o with BID => (p < x)%Qc | ASK => (x < p)%Qc end.
Proof.
  intros [Hb Ha _] Hty Hp Hm x Hx. unfold _is_marketable in Hm. rewrite Hty, Hp in Hm.
  unfold side_levels in Hx. destruct (side o); simpl in Hx.
  - unfold best_ask in Hm. destruct (head (_ask_prices b)) as [ba|] eqn:Hh.
    + apply bool_decide_eq_false in Hm.
      pose proof (sorted_head_min _ _ _ (levels_sorted _ _ _ Ha) Hh Hx). qc_order.
    + apply head_None in Hh. rewrite Hh in Hx. by apply elem_of_nil in Hx.
  - unfold best_bid in Hm. destruct (last (_bid_prices b)) as [bb|] eqn:Hl.
    + destruct (best_ask b); apply bool_decide_eq_false in Hm;
        pose proof (sorted_last_max _ _ _ (levels_sorted _ _ _ Hb) Hl Hx); qc_order.
    + apply last_None in Hl. rewrite Hl in Hx. by apply elem_of_nil in Hx.
Qed.

Lemma add_order_passive b o :
  order_type o = LIMIT -> 0 < qty o -> _is_marketable b o = false ->
  add_order b o = (b2 ← _add_resting b o; Return ([], b2, o)).
Proof.
  intros Hty Hq Hm. unfold add_order. rewrite Hm.
  rewrite bool_decide_eq_false_2 by (rewrite Hty; discriminate). simpl.
  by rewrite bool_decide_eq_true_2 by done.
Qed.

(** X3: a limit order that is not marketable when it arrives trades nothing
    and rests whole, and cancelling it gives back the book as it was before
    the order: levels, queues and index. *)
Theorem X3_passive_order_round_trip (b : LimitOrderBook) (o : Order) :
  reachable_fresh b -> valid_order o -> order_type o = LIMIT ->
  order_id o ∉ open_orders b None -> _is_marketable b o = false ->
  exists b',
    add_order b o = Return ([], b', o) /\
    order_id o ∈ open_orders b' None /\
    cancel b' (order_id o) = (true, b).
Proof.
  intros Hr Hv Hty Hfresh Hm. destruct (reachable_fresh_wf b Hr) as [Hwf Hi].
  destruct Hv as [Hq Hpr]. destruct (Hpr Hty) as [p Hp].
  destruct (add_resting_spec b o p Hwf Hp Hty Hq
              (not_marketable_levels b o p Hwf Hty Hp Hm))
    as (b' & Hadd & Hwf' & Hopp & Hqueue & Hperm & Hidx).
  exists b'. rewrite (add_order_passive b o Hty Hq Hm), Hadd. split; [done|].
  assert (Hall : all_resting b' ≡ₚ o :: all_resting b).
  { rewrite (all_resting_split b' (side o)), (all_resting_split b (side o)), Hperm.
    by rewrite (resting_ext _ _ _ Hopp). }
  pose proof (index_wf_add b b' o p Hi Hp Hfresh Hall Hidx) as Hi'.
  assert (Hin : order_id o ∈ open_orders b' None).
  { apply index_wf_keys; [done|]. rewrite Hall, fmap_cons. by left. }
  split; [done|].
  destruct (cancel_filter b' (order_id o) Hwf' Hi') as (Hwf2 & _ & Hrest & Hidx2).
  pose proof (cancel_spec b' (order_id o) Hwf' Hi') as Hc.
  rewrite decide_True in Hc by (by apply index_wf_keys).
  destruct Hc as (b2 & Hc & _). rewrite Hc in *. simpl in *. f_equal.
  apply book_ext_queues; [done..| |].
  - intros s x. rewrite <- !queue_of_resting_book by done.
    rewrite Hrest, list_filter_filter.
    transitivity (filter (fun m => order_id m <> order_id o)
                    (filter (fun m => price m = Some x) (resting b' s))).
    { rewrite list_filter_filter. apply list_filter_iff. intros m. tauto. }
    rewrite !queue_of_resting_book by done.
    assert (Hold : filter (fun m => order_id m <> order_id o) (queue_at (side_book b s) x)
                   = queue_at (side_book b s) x).
    { apply filter_id_Forall, Forall_forall. intros m Hmq Heq. apply Hfresh.
      rewrite <- Heq. apply index_wf_keys; [done|].
      apply list_elem_of_fmap_2. by eapply queue_at_elem. }
    destruct (decide (s = side o)) as [->|Hs].
    + rewrite Hqueue. destruct (decide (x = p)) as [->|Hx]; [|done].
      rewrite filter_app, Hold, filter_cons, decide_False by tauto.
      by rewrite filter_nil, app_nil_r.
    + assert (s = opposite (side o)) as -> by (destruct s, (side o); done).
      unfold side_book. by rewrite Hopp.
  - rewrite Hidx2, Hidx. by apply dict_pop_set_fresh.
Qed.

Lemma X3_witness :
  reachable_fresh book3 /\
  cancel (book_after (add_order book3 (limit_order "ORD-4" BID (dec 9998 100) 7))) "ORD-4"
    = (true, book3).
Proof.
  split; [exact book3_reachable|].
  destruct (X3_passive_order_round_trip book3 (limit_order "ORD-4" BID (dec 9998 100) 7)
              book3_reachable
              (limit_order_valid "ORD-4" BID (dec 9998 100) 7 eq_refl) eq_refl)
    as (b' & Hadd & _ & Hc); [by_compute|reflexivity|].
  by rewrite Hadd.
Defined.

(** ** Reading the book *)

Lemma best_price_level b s p :
  book_wf b -> best_price b s = Some p ->
  exists q, side_book b s !! p = Some q /\ q <> [] /\ Forall (order_ok s p) q /\
            filter (fun o => price o = Some p) (resting b s) = q.
Proof.
  intros Hwf Hb. destruct (resting_best b s p Hwf Hb) as (q & tail & Hq & Hne & Hok & _).
  exists q. split; [done|]. split; [done|]. split; [done|].
  rewrite queue_of_resting_book by done. unfold queue_at. by rewrite Hq.
Qed.

Lemma top_depth_wf (b : LimitOrderBook) :
  book_wf b ->
  exists bid_qty ask_qty,
    top_depth b = Return (bid_qty, ask_qty) /\
    (best_bid b = None -> bid_qty = 0) /\
    (best_ask b = None -> ask_qty = 0) /\
    (forall p, best_bid b = Some p ->
       0 < bid_qty /\
       bid_qty = sum_qty (filter (fun o => price o = Some p) (resting b BID))) /\
    (forall p, best_ask b = Some p ->
       0 < ask_qty /\
       ask_qty = sum_qty (filter (fun o => price o = Some p) (resting b ASK))).
Proof.
  intros Hwf. unfold top_depth.
  assert (Hside : forall s, exists n,
            match best_price b s with
            | None => Return 0
            | Some p => match side_book b s !! p with
                        | Some queue => Return (sum_qty queue)
                        | None => Raise KeyError
                        end
            end = Return n /\
            (best_price b s = None -> n = 0) /\
            (forall p, best_price b s = Some p ->
               0 < n /\ n = sum_qty (filter (fun o => price o = Some p) (resting b s)))).
  { intros s. destruct (best_price b s) as [p|] eqn:Hb.
    - destruct (best_price_level b s p Hwf Hb) as (q & Hq & Hne & Hok & Hf).
      rewrite Hq. exists (sum_qty q). split; [done|]. split; [done|].
      intros ? [= <-]. rewrite Hf. split; [|done]. apply sum_qty_pos; [|done].
      eapply Forall_impl; [exact Hok|]. by intros o (_ & _ & _ & ?).
    - exists 0. by repeat split. }
  destruct (Hside BID) as (bq & Hbq & Hb0 & Hb1).
  destruct (Hside ASK) as (aq & Haq & Ha0 & Ha1).
  exists bq, aq. unfold best_price, side_book in Hbq, Haq. simpl in Hbq, Haq.
  rewrite Hbq. simpl. rewrite Haq. simpl. done.
Qed.



Lemma list_find_unique {X} (P : X -> Prop) `{forall x, Decision (P x)} (l : list X) (x : X) :
  x ∈ l -> P x -> (forall y, y ∈ l -> P y -> y = x) ->
  exists i, list_find P l = Some (i, x).
Proof.
  intros Hx HP Hu. destruct (list_find_elem_of P l x Hx HP) as [[i y] Hf].
  exists i. rewrite Hf. apply list_find_Some in Hf as (Hy%list_elem_of_lookup_2 & HPy & _).
  by rewrite (Hu y Hy HPy).
Qed.

(** X5: [order_qty] gives the quantity a resting order has left, which is
    positive, and [None] for an id that is not resting. *)
Theorem X5_order_qty (b : LimitOrderBook) (oid : string) :
  reachable_fresh b ->
  (oid ∉ open_orders b None -> order_qty b oid = None) /\
  (forall o, o ∈ all_resting b -> order_id o = oid ->
     order_qty b oid = Some (qty o) /\ 0 < qty o).
Proof.
  intros Hr. destruct (reachable_fresh_wf b Hr) as [Hwf Hi]. split.
  - intros Hn. unfold order_qty. simpl in Hn. apply dict_get_None in Hn. by rewrite Hn.
  - intros o Ho Hid. pose proof (all_resting_side b o Hwf Ho) as Hs.
    destruct (resting_order_ok b (side o) o Hwf Hs) as (p & q & Hq & Hoq & _ & Hp & _ & Hpos).
    split; [|done].
    assert (Hg : dict_get (_order_index b) oid = Some (side o, p, owner o)).
    { apply (index_resting b Hi). exists o. split; [done|].
      unfold index_entry. by rewrite Hp, Hid. }
    unfold order_qty. rewrite Hg. simpl. unfold side_book in Hq. rewrite Hq. simpl.
    destruct (list_find_unique (fun o0 => order_id o0 = oid) q o Hoq Hid) as [i ->]; [|done].
    intros y Hy Hyid. apply (NoDup_fmap_eq order_id (all_resting b));
      [apply Hi| |done|congruence].
    eapply elem_of_sublist; [exact Hy|]. by eapply queue_sublist_all_resting.
Qed.

Lemma X5_witness :
  reachable_fresh book3 /\ order_qty book3 "ORD-2" = Some 5 /\
  order_qty book3 "ORD-9" = None.
Proof.
  split; [exact book3_reachable|].
  destruct (X5_order_qty book3 "ORD-9" book3_reachable) as [Hnone _].
  split; [|apply Hnone; by_compute].
  destruct (X5_order_qty book3 "ORD-2" book3_reachable) as [_ Hsome].
  assert (Hin : limit_order "ORD-2" ASK (dec 10003 100) 5 ∈ all_resting book3).
  { apply list_elem_of_lookup. exists 2%nat. vm_compute. reflexivity. }
  exact (proj1 (Hsome (limit_order "ORD-2" ASK (dec 10003 100) 5) Hin eq_refl)).
Defined.

(** ** The index *)

Lemma match_queue_index_sublist taker p q idx t' q' idx' trs :
  match_queue taker p q idx = (t', q', idx', trs) -> idx' `sublist_of` idx.
Proof.
  revert taker idx t' q' idx' trs. induction q as [|m q IH];
    intros taker idx t' q' idx' trs; cbn [match_queue].
  { by intros [= _ _ <- _]. }
  case_bool_decide; [|by intros [= _ _ <- _]].
  case_bool_decide; [|by intros [= _ _ <- _]].
  destruct (match_queue _ p q _) as [[[t2 q2] idx2] trs2] eqn:E.
  intros [= _ _ <- _]. etrans; [by eapply IH|]. apply sublist_filter.
Qed.

Lemma remove_price_level_index b s p :
  _order_index (_remove_price_level b s p) = _order_index b.
Proof. unfold _remove_price_level. by destruct s. Qed.

Lemma match_level_index_sublist b taker p q b2 t' trs :
  match_level b taker p q = (b2, t', trs) ->
  _order_index b2 `sublist_of` _order_index b.
Proof.
  unfold match_level. destruct (_book_for_side b _) as [mb lv].
  destruct (match_queue taker p q _) as [[[t2 q2] idx2] trs2] eqn:E.
  apply match_queue_index_sublist in E. intros [= <- _ _].
  destruct q2; [rewrite remove_price_level_index|]; by destruct (opposite (side taker)).
Qed.

Lemma match_loop_index_sublist fuel b taker b' t' trs :
  match_loop fuel b taker = Return (b', t', trs) ->
  _order_index b' `sublist_of` _order_index b.
Proof.
  revert b taker b' t' trs. induction fuel as [|fuel IH]; intros b taker b' t' trs;
    rewrite match_loop_unfold.
  - repeat case_match; try discriminate; by intros [= <- _ _].
  - case_bool_decide; [|by intros [= <- _ _]].
    destruct (best_price b _) as [p|]; [|by intros [= <- _ _]].
    destruct (limit_reached taker p); [by intros [= <- _ _]|].
    destruct (side_book b _ !! p) as [q|]; [|done].
    destruct (match_level b taker p q) as [[b2 t2] trs2] eqn:E.
    apply match_level_index_sublist in E.
    destruct (match_loop fuel b2 t2) as [[[b3 t3] trs3]| |] eqn:E2; [|done..].
    simpl. intros [= <- _ _]. etrans; [by eapply IH|done].
Qed.

Lemma dict_set_keys_NoDup {K V} `{EqDecision K} (d : list (K * V)) k v :
  NoDup d.*1 -> NoDup (dict_set d k v).*1.
Proof.
  intros Hnd. destruct (decide (k ∈ d.*1)) as [Hin|Hnin].
  - assert ((dict_set d k v).*1 = d.*1) as ->; [|done].
    clear Hnd. induction d as [|[k0 v0] d IH]; simpl in *; [by apply elem_of_nil in Hin|].
    case_decide; simpl; [done|]. f_equal. apply IH.
    apply elem_of_cons in Hin as [Heq|Hin]; [by destruct H|done].
  - rewrite dict_set_keys_fresh, fmap_app by done. simpl.
    apply NoDup_app. split; [done|]. split; [|apply NoDup_singleton].
    intros x Hx ->%list_elem_of_singleton. done.
Qed.

Lemma sublist_keys_NoDup {K V} (d d' : list (K * V)) :
  d' `sublist_of` d -> NoDup d.*1 -> NoDup d'.*1.
Proof. intros Hs Hnd. eapply sublist_NoDup; [exact Hnd|]. by apply fmap_sublist. Qed.

Lemma add_order_keys_NoDup b o trades b' o' :
  add_order b o = Return (trades, b', o') ->
  NoDup (open_orders b None) -> NoDup (open_orders b' None).
Proof.
  unfold add_order. simpl. intros H Hnd.
  destruct (if bool_decide (order_type o = MARKET) || _is_marketable b o
            then _match b o else Return (b, o, [])) as [[[b1 o1] trs]| |] eqn:E;
    [|done..].
  assert (Hs : _order_index b1 `sublist_of` _order_index b).
  { destruct (bool_decide (order_type o = MARKET) || _is_marketable b o);
      [by eapply match_loop_index_sublist|by injection E as <- _ _]. }
  simpl in H. case_bool_decide.
  - unfold _add_resting in H. destruct (price o1) as [p|]; [|done].
    destruct (_book_for_side b1 (side o1)) as [bk lv].
    destruct (bk !! p); simpl in H; injection H as _ <- _;
      rewrite order_index_set; by apply dict_set_keys_NoDup, (sublist_keys_NoDup _ _ Hs).
  - injection H as _ <- _. by apply (sublist_keys_NoDup _ _ Hs).
Qed.

Lemma cancel_index_sublist b oid :
  _order_index (cancel b oid).2 `sublist_of` _order_index b.
Proof.
  unfold cancel. destruct (dict_get _ oid) as [[[s p] w]|]; [|done].
  destruct (_book_for_side b s) as [bk lv].
  destruct (bk !! p) as [q|]; [|apply sublist_filter].
  destruct (remove_first oid q) as [q'|]; [|apply sublist_filter]. simpl.
  destruct q'; [rewrite remove_price_level_index|]; destruct s; apply sublist_filter.
Qed.

Lemma reachable_keys_NoDup b : reachable b -> NoDup (open_orders b None).
Proof.
  induction 1 as [|b o trades b' o' _ IH _ Hadd|b oid r b' _ IH Hc].
  - apply NoDup_nil_2.
  - by eapply add_order_keys_NoDup.
  - replace b' with (cancel b oid).2 by by rewrite Hc.
    by apply (sublist_keys_NoDup _ _ (cancel_index_sublist b oid)).
Qed.

(** X6: [open_orders] lists every resting order once.  Without an owner it
    gives the ids of the resting orders, none twice; with an owner it gives,
    in the same order, those of the orders of that owner. *)
Theorem X6_open_orders (b : LimitOrderBook) :
  reachable_fresh b ->
  NoDup (open_orders b None) /\
  (forall oid, oid ∈ open_orders b None <-> oid ∈ order_id <$> all_resting b) /\
  (forall w, open_orders b (Some w) `sublist_of` open_orders b None) /\
  (forall w oid, oid ∈ open_orders b (Some w) <->
     exists o, o ∈ all_resting b /\ order_id o = oid /\ owner o = w).
Proof.
  intros Hr. destruct (reachable_fresh_wf b Hr) as [Hwf Hi].
  pose proof (reachable_keys_NoDup b (reachable_fresh_reachable b Hr)) as Hnd.
  split; [done|]. split; [intros oid; by apply index_wf_keys|]. split.
  { intros w. simpl. apply fmap_sublist, sublist_filter. }
  intros w oid. simpl. split.
  - intros (kv & -> & [Hw Hin]%list_elem_of_filter)%list_elem_of_fmap.
    destruct kv as [k [[s p] w']]. simpl in *.
    assert (Hg : dict_get (_order_index b) k = Some (s, p, w')).
    { destruct (dict_get (_order_index b) k) as [e|] eqn:Hg.
      - apply dict_get_Some_elem in Hg. f_equal.
        eapply (NoDup_fmap_eq fst (_order_index b) (k, e) (k, (s, p, w'))) in Hnd;
          [by injection Hnd|done..].
      - apply dict_get_None in Hg. destruct Hg. by apply (list_elem_of_fmap_2 fst) in Hin. }
    apply (index_resting b Hi) in Hg as (o & Ho & Heq). exists o.
    unfold index_entry in Heq. injection Heq as <- _ _ <-. done.
  - intros (o & Ho & <- & <-).
    assert (Hg : exists p, dict_get (_order_index b) (order_id o) = Some (side o, p, owner o)).
    { eexists. apply (index_resting b Hi). exists o. split; [done|]. reflexivity. }
    destruct Hg as [p Hg%dict_get_Some_elem].
    apply list_elem_of_fmap. exists (order_id o, (side o, p, owner o)). split; [done|].
    by apply list_elem_of_filter.
Qed.

Lemma X6_witness :
  reachable_fresh book3 /\ open_orders book3 (Some "FLOW") = ["ORD-1"; "ORD-2"; "ORD-3"] /\
  open_orders book3 (Some "MM") = [] /\ NoDup (open_orders book3 None).
Proof.
  split; [exact book3_reachable|]. split; [by_compute|]. split; [by_compute|].
  exact (proj1 (X6_open_orders book3 book3_reachable)).
Defined.

Lemma X7_witness :
  reachable book3 /\
  mid_price (A := exact) book3 = Some (Q2Qc 100) /\
  spread (A := exact) book3 = Some (dec 6 100) /\
  (Q2Qc 100 - dec 9997 100 = dec 6 100 / Q2Qc 2)%Qc.
Proof.
  pose proof (reachable_fresh_reachable _ book3_reachable) as Hr.
  assert (Hm : mid_price (A := exact) book3 = Some (Q2Qc 100)) by by_compute.
  assert (Hs : spread (A := exact) book3 = Some (dec 6 100)) by by_compute.
  split; [exact Hr|]. split; [exact Hm|]. split; [exact Hs|].
  destruct (proj2 (proj2 (X7_mid_price_and_spread book3 Hr)) _ _ Hm Hs)
    as (pb & pa & Hb & _ & _ & _ & _ & Heq & _).
  assert (pb = dec 9997 100) as <-; [|exact Heq].
  assert (Some pb = Some (dec 9997 100)) as [= ->]; [|done].
  rewrite <- Hb. by_compute.
Defined.

(** * Further properties of the factory and of the agent's quotes *)

Lemma issued_lookup f n i :
  (i < n)%nat -> issued f n !! i = Some (idn f (counter f + Z.of_nat i)).
Proof.
  revert f i. induction n as [|n IH]; intros f i Hi; [lia|].
  destruct i as [|i]; simpl.
  - by rewrite Z.add_0_r.
  - rewrite IH by lia. simpl. f_equal. unfold idn. simpl. do 3 f_equal. lia.
Qed.

Lemma issued_length f n : length (issued f n) = n.
Proof. revert f. induction n as [|n IH]; intros f; simpl; [done|]. by rewrite IH. Qed.

(** X11: the ids of a factory are never repeated: the ids of its next [n]
    orders are pairwise different, whatever its prefix and its counter.  An
    order the constructor rejects (a quantity that is not positive) still
    takes an id: the factory moves on to the next one. *)
Theorem X11_factory_ids (f : OrderFactory) (n : nat) :
  NoDup (issued f n) /\ length (issued f n) = n /\
  (forall ts s p q ow, q <= 0 ->
     factory_limit f ts s p q ow = (Raise ValueError, (next_id f).2) /\
     factory_market f ts s q ow = (Raise ValueError, (next_id f).2)) /\
  (forall ts s p q ow, 0 < q ->
     exists o1 o2,
       factory_limit f ts s p q ow = (Return o1, (next_id f).2) /\
       factory_market f ts s q ow = (Return o2, (next_id f).2) /\
       order_id o1 = (next_id f).1 /\ order_id o2 = (next_id f).1 /\
       qty o1 = q /\ qty o2 = q /\ price o1 = Some p /\ price o2 = None).
Proof.
  split; [|split; [apply issued_length|split]].
  - apply NoDup_alt. intros i j x Hi Hj.
    pose proof (lookup_lt_Some _ _ _ Hi) as Hli. pose proof (lookup_lt_Some _ _ _ Hj) as Hlj.
    rewrite issued_length in Hli, Hlj.
    rewrite issued_lookup in Hi, Hj by done. rewrite <- Hj in Hi. injection Hi as Hi.
    apply idn_inj in Hi. lia.
  - intros ts s p q ow Hq. unfold factory_limit, factory_market, Order_post_init. simpl.
    by rewrite bool_decide_eq_true_2 by done.
  - intros ts s p q ow Hq. unfold factory_limit, factory_market, Order_post_init. simpl.
    rewrite bool_decide_eq_false_2 by lia.
    rewrite ?bool_decide_eq_false_2 by (intros [? ?]; discriminate).
    eexists _, _. by repeat split.
Qed.

Lemma X11_witness :
  issued {| prefix := "ORD"; counter := 1 |} 3 = ["ORD-1"; "ORD-2"; "ORD-3"] /\
  NoDup (issued {| prefix := "ORD"; counter := 1 |} 3) /\
  factory_market {| prefix := "ORD"; counter := 1 |} (Q2Qc 0) BID 0 "FLOW"
    = (Raise ValueError, {| prefix := "ORD"; counter := 2 |}).
Proof.
  split; [reflexivity|].
  destruct (X11_factory_ids {| prefix := "ORD"; counter := 1 |} 3) as (Hnd & _ & Hbad & _).
  split; [exact Hnd|].
  exact (proj2 (Hbad (Q2Qc 0) BID (Q2Qc 0) 0 "FLOW" (Z.le_refl 0))).
Defined.






(** * Further properties of the simulator *)

(** ** Invariants of one part of the state *)

Lemma hoare_ret {G X} (I : EventDrivenSimulator G -> Prop) (x : X) :
  hoare I (mret x : M G X) (fun _ => I).
Proof. intros s y s' Hi H. by apply ret_Return in H as [_ ->]. Qed.

Lemma hoare_gets {G X} (I : EventDrivenSimulator G -> Prop)
    (f : EventDrivenSimulator G -> X) :
  hoare I (gets f) (fun _ => I).
Proof. intros s y s' Hi H. by apply gets_Return in H as [_ ->]. Qed.

Lemma hoare_lift {G X} (I : EventDrivenSimulator G -> Prop) (o : outcome X) :
  hoare I (lift o : M G X) (fun _ => I).
Proof. intros s y s' Hi H. by apply lift_Return in H as [_ ->]. Qed.

Lemma hoare_modify {G} (I : EventDrivenSimulator G -> Prop)
    (f : EventDrivenSimulator G -> EventDrivenSimulator G) :
  (forall s, I s -> I (f s)) -> hoare I (modify f) (fun _ => I).
Proof. intros Hf s y s' Hi H. apply modify_Return in H as ->. by apply Hf. Qed.

Lemma hoare_draw {G X} (I : EventDrivenSimulator G -> Prop) (f : G -> X * G) :
  (forall s g, I s -> I (set_rng s g)) -> hoare I (draw f) (fun _ => I).
Proof. intros Hf s y s' Hi H. apply draw_Return in H as [_ ->]. by apply Hf. Qed.

Lemma hoare_draw_or_raise {G X} (I : EventDrivenSimulator G -> Prop)
    (f : G -> outcome (X * G)) :
  (forall s g, I s -> I (set_rng s g)) -> hoare I (draw_or_raise f) (fun _ => I).
Proof.
  intros Hf s y s' Hi H. apply draw_or_raise_Return in H as (g & _ & ->). by apply Hf.
Qed.

Lemma hoare_conj {G X} (I1 I2 J1 J2 : EventDrivenSimulator G -> Prop) (m : M G X) :
  hoare I1 m (fun _ => J1) -> hoare I2 m (fun _ => J2) ->
  hoare (fun s => I1 s /\ I2 s) m (fun _ s => J1 s /\ J2 s).
Proof. intros H1 H2 s x s' [Ha Hb] H. split; [by eapply H1|by eapply H2]. Qed.

(** The head of an application. *)
Ltac head_of t :=
  lazymatch t with
  | ?f _ => head_of f
  | _ => t
  end.

(** An invariant that reads fields the method changes in the places [base]
    knows, and nowhere else: the method is unfolded down to the reads and
    the assignments, and an assignment elsewhere leaves the invariant as it
    is. *)
Ltac hoare_fields base :=
  repeat first
    [ base
    | apply hoare_bind_inv; [|intros ?]
    | apply hoare_for_each; intros ?
    | apply hoare_ret
    | apply hoare_gets
    | apply hoare_lift
    | apply hoare_draw; intros ? ? ?; assumption
    | apply hoare_draw_or_raise; intros ? ? ?; assumption
    | apply hoare_modify; intros ? ?; assumption
    | match goal with
      | |- hoare _ (if ?c then _ else _) _ => destruct c
      | |- hoare _ (let '(_, _) := ?p in _) _ => destruct p
      | |- hoare _ (match ?x with _ => _ end) _ => destruct x
      end
    | progress cbv zeta
    | match goal with
      | |- hoare _ ?m _ => let h := head_of m in progress unfold h
      end ].

(** ** The fill log and the trade log *)

Section fill_log.
Context {A : Arith} {G : Type} {gen : Generator G}.
Implicit Types s : EventDrivenSimulator G.

Lemma update_position_fills mm sg q p mm' :
  _update_position mm sg q p = Return mm' -> fills mm' = fills mm.
Proof.
  unfold _update_position, py_div. repeat case_bool_decide; simpl; try discriminate;
    by intros [= <-].
Qed.

Lemma on_trade_fills mm t mm' :
  on_trade mm t = Return mm' ->
  fills mm' = fills mm ++
    (if bool_decide (involves_mm t)
     then [{| fill_timestamp := None; fill_side := fill_side (fill_of_trade t);
              fill_mm_side := fill_mm_side (fill_of_trade t);
              fill_price := trade_price t; fill_qty := trade_qty t |}]
     else []).
Proof.
  assert (Hfill : forall sd, _apply_fill mm sd (trade_price t) (trade_qty t) = Return mm' ->
            fills mm' = fills mm ++
              [{| fill_timestamp := None; fill_side := sd;
                  fill_mm_side := match sd with BID => 1 | ASK => -1 end;
                  fill_price := trade_price t; fill_qty := trade_qty t |}]).
  { intros sd. unfold _apply_fill.
    destruct (_update_position _ _ _ _) as [mm1| |] eqn:E; simpl; [|done..].
    intros [= <-]. simpl. by rewrite (update_position_fills _ _ _ _ _ E). }
  unfold on_trade, involves_mm, fill_of_trade.
  destruct (bool_decide (taker_owner t = "MM")) eqn:Ht;
    [|destruct (bool_decide (maker_owner t = "MM")) eqn:Hm].
  - apply bool_decide_eq_true in Ht. rewrite bool_decide_eq_true_2 by tauto.
    intros H%Hfill. rewrite H. simpl. by destruct (taker_side t).
  - apply bool_decide_eq_true in Hm. rewrite bool_decide_eq_true_2 by tauto.
    intros H%Hfill. rewrite H. simpl. by destruct (taker_side t).
  - apply bool_decide_eq_false in Ht, Hm. rewrite bool_decide_eq_false_2 by tauto.
    intros [= <-]. by rewrite app_nil_r.
Qed.

Lemma process_trade_run t s x s' :
  process_trade t s = Return (x, s') ->
  trades s' = trades s /\
  fills (market_maker s') =
    fills (market_maker s) ++ (fill_of_trade <$> filter involves_mm [t]).
Proof.
  intros H. unfold process_trade in H. run_step H. simpl. split; [done|].
  match goal with E : on_trade _ _ = _ |- _ => apply on_trade_fills in E as Hf end.
  rewrite filter_cons, filter_nil. destruct (decide (involves_mm t)) as [Hm|Hm].
  - rewrite bool_decide_eq_true_2 in Hf by done.
    rewrite bool_decide_eq_true_2 by (rewrite Hf, length_app; simpl; lia).
    unfold stamp_last_fill. simpl. rewrite Hf, length_app. simpl.
    replace (pred (length (fills (market_maker s)) + 1)) with
      (length (fills (market_maker s)) + 0)%nat by lia.
    by rewrite alter_app_r.
  - rewrite bool_decide_eq_false_2 in Hf by done. rewrite app_nil_r in Hf.
    rewrite bool_decide_eq_false_2 by (rewrite Hf; lia). by rewrite Hf, app_nil_r.
Qed.

Lemma for_each_process_trade ts s x s' :
  for_each ts process_trade s = Return (x, s') ->
  trades s' = trades s /\
  fills (market_maker s') =
    fills (market_maker s) ++ (fill_of_trade <$> filter involves_mm ts).
Proof.
  revert s. induction ts as [|t ts IH]; intros s H; simpl in H.
  - apply ret_Return in H as [_ ->]. by rewrite app_nil_r.
  - apply bind_Return in H as (? & s1 & H1 & H2).
    apply process_trade_run in H1 as [Ht1 Hf1]. apply IH in H2 as [Ht2 Hf2].
    rewrite Ht2, Ht1, Hf2, Hf1. split; [done|].
    rewrite <- app_assoc, <- fmap_app, <- filter_app. done.
Qed.

Lemma process_trades_logged ts :
  hoare (G := G) fills_logged (_process_trades ts) (fun _ => fills_logged).
Proof.
  intros s x s' Hl H. unfold _process_trades in H. destruct ts as [|t ts].
  { by apply ret_Return in H as [_ ->]. }
  apply bind_Return in H as (? & s1 & H1 & H2). apply modify_Return in H1 as ->.
  apply for_each_process_trade in H2 as [Ht Hf]. unfold fills_logged in *.
  rewrite Hf, Ht. simpl. by rewrite Hl, filter_app, fmap_app.
Qed.

Variable set_iter : gset string -> list string.

Ltac logged := hoare_fields ltac:(apply process_trades_logged).

Lemma start_logged : hoare (G := G) fills_logged (start set_iter) (fun _ => fills_logged).
Proof. logged. Qed.

Lemma loop_turn_logged :
  hoare (G := G) fills_logged (loop_turn set_iter) (fun _ => fills_logged).
Proof. logged. Qed.

Lemma run_loop_logged fuel :
  hoare (G := G) fills_logged (run_loop set_iter fuel) (fun _ => fills_logged).
Proof.
  induction fuel as [|fuel IH]; simpl;
    (apply hoare_bind_inv; [apply loop_turn_logged|]); intros [[]|];
    try apply hoare_ret; [|done].
  by intros s x s' _ H.
Qed.

End fill_log.

Lemma hoare_bind {G X Y} (P Q : EventDrivenSimulator G -> Prop)
    (R : Y -> EventDrivenSimulator G -> Prop) (m : M G X) (f : X -> M G Y) :
  hoare P m (fun _ => Q) -> (forall x, hoare Q (f x) R) -> hoare P (m ≫= f) R.
Proof.
  intros Hm Hf s y s' Hp H. apply bind_Return in H as (x & s1 & H1 & H2).
  eapply Hf; [|exact H2]. by eapply Hm.
Qed.

Lemma hoare_modify_to {G} (P Q : EventDrivenSimulator G -> Prop)
    (f : EventDrivenSimulator G -> EventDrivenSimulator G) :
  (forall s, P s -> Q (f s)) -> hoare P (modify f) (fun _ => Q).
Proof. intros Hf s y s' Hi H. apply modify_Return in H as ->. by apply Hf. Qed.

(** X12: the fill log a run returns is the list of the agent's trades in
    the trade log it returns, in the same order: one fill for each trade the
    agent was a party to, with the timestamp, the price and the quantity of
    the trade and the side of the agent in it.  In particular every fill
    carries a timestamp. *)
Theorem X12_fill_log_is_the_agents_trades {A : Arith} {G : Type} {gen : Generator G}
    (set_iter : gset string -> list string) (cfg : SimulatorConfig) (fuel : nat)
    (r : RunResult) :
  run set_iter cfg fuel = Return r ->
  out_mm_fills r = fill_of_trade <$> filter involves_mm (out_trades r) /\
  length (out_mm_fills r) = length (filter involves_mm (out_trades r)) /\
  Forall (fun f => is_Some (fill_timestamp f)) (out_mm_fills r).
Proof.
  unfold run, run_from. intros H.
  destruct ((start set_iter ≫= fun _ => run_loop set_iter fuel) (new_simulator cfg))
    as [[[] s]| |] eqn:E; [|done..].
  simpl in H. injection H as <-.
  assert (Hl : fills_logged s).
  { assert (Hh : hoare (G := G) fills_logged
                    (start set_iter ≫= fun _ => run_loop set_iter fuel)
                    (fun _ => fills_logged)).
    { apply hoare_bind_inv; [apply start_logged | intros _; apply run_loop_logged]. }
    eapply Hh; [|exact E]. reflexivity. }
  unfold fills_logged in Hl. simpl. rewrite Hl. split; [done|].
  split; [by rewrite length_fmap|]. apply Forall_fmap, Forall_forall. by eexists.
Qed.

Lemma X12_witness :
  run (A := exact) (gen := stepping) elements short_config 20 = Return short_result /\
  length (out_mm_fills short_result) = 3%nat /\
  out_mm_fills short_result
    = fill_of_trade <$> filter involves_mm (out_trades short_result).
Proof.
  assert (Hr : run (A := exact) (gen := stepping) elements short_config 20
               = Return short_result) by (vm_compute; reflexivity).
  split; [exact Hr|]. split; [by_compute|].
  exact (proj1 (X12_fill_log_is_the_agents_trades (A := exact) (gen := stepping)
                  elements short_config 20 short_result Hr)).
Defined.

(** ** The snapshots of a run *)

Section snapshots.
Context {A : Arith} {G : Type} {gen : Generator G}.
Variable set_iter : gset string -> list string.
Implicit Types s : EventDrivenSimulator G.

(** What [_snapshot] appends. *)
Lemma snapshot_run name s x s' :
  _snapshot name s = Return (x, s') ->
  exists sn,
    snapshots s' = snapshots s ++ [sn] /\
    sim_config s' = sim_config s /\ _event_count s' = _event_count s /\
    _last_mm_refresh_event s' = _last_mm_refresh_event s /\
    view s' = view s /\
    snap_event_type sn = name /\ event_idx sn = _event_count s /\
    events_since_mm_refresh sn = _event_count s - _last_mm_refresh_event s /\
    snap_best_bid sn = best_bid (book s) /\ snap_best_ask sn = best_ask (book s) /\
    snap_spread sn = spread (book s) /\
    top_depth (book s) = Return (top_bid_depth sn, top_ask_depth sn).
Proof.
  intros H. unfold _snapshot in H. run_step H.
  all: eexists; simpl; repeat split; done.
Qed.

Lemma hoare_seq {X Y} (P : EventDrivenSimulator G -> Prop)
    (R : Y -> EventDrivenSimulator G -> Prop) (m : M G X) (f : X -> M G Y) :
  hoare P m (fun _ => P) -> (forall x, hoare P (f x) R) -> hoare P (m ≫= f) R.
Proof. apply hoare_bind. Qed.

Lemma hoare_bind_gets {X Y} (P : EventDrivenSimulator G -> Prop)
    (f : EventDrivenSimulator G -> X) (k : X -> M G Y)
    (Q : Y -> EventDrivenSimulator G -> Prop) :
  (forall x, hoare (fun s => P s /\ f s = x) (k x) Q) -> hoare P (gets f ≫= k) Q.
Proof.
  intros Hk s y s' Hp H. apply bind_Return in H as (x & s1 & H1 & H2).
  apply gets_Return in H1 as [-> ->]. by eapply Hk.
Qed.

Lemma hoare_gets_config {Y} (cfg : SimulatorConfig)
    (P : EventDrivenSimulator G -> Prop) (f : SimulatorConfig -> M G Y)
    (Q : Y -> EventDrivenSimulator G -> Prop) :
  (forall s, P s -> sim_config s = cfg) -> hoare P (f cfg) Q ->
  hoare P (gets sim_config ≫= f) Q.
Proof.
  intros Hc Hf. apply hoare_bind_gets. intros c s y s' [Hp <-].
  rewrite (Hc _ Hp). by apply Hf.
Qed.

Lemma hoare_weaken {X} (P P' : EventDrivenSimulator G -> Prop) (m : M G X)
    (Q Q' : X -> EventDrivenSimulator G -> Prop) :
  hoare P m Q -> (forall s, P' s -> P s) -> (forall x s, Q x s -> Q' x s) ->
  hoare P' m Q'.
Proof. intros Hm Hp Hq s x s' Hi H. eapply Hq, Hm; [by apply Hp|done]. Qed.

(** A refresh of the quotes leaves the configuration, the number of events
    and the snapshots as they are, and notes the event. *)
Lemma refresh_counter (F : SimulatorConfig -> Z -> list Snapshot -> Prop) :
  hoare (G := G) (fun s => F (sim_config s) (_event_count s) (snapshots s))
    (_handle_mm_quote_update set_iter)
    (fun _ s => F (sim_config s) (_event_count s) (snapshots s) /\
                _last_mm_refresh_event s = _event_count s).
Proof.
  unfold _handle_mm_quote_update.
  repeat (apply hoare_seq; [solve [hoare_fields fail]|intros ?];
          try match goal with
              | |- hoare _ (let '(_, _) := ?p in _) _ => destruct p
              end).
  apply hoare_modify_to. intros s Hs. by split.
Qed.

Lemma mod_succ (c k : Z) : 0 < k -> c mod k <> 0 -> (c - 1) mod k + 1 = c mod k.
Proof.
  intros Hk Hc. pose proof (Z.mod_pos_bound (c - 1) k Hk) as Hb.
  pose proof (Z.div_mod (c - 1) k ltac:(lia)) as Hd.
  destruct (decide ((c - 1) mod k + 1 = k)) as [He|He].
  - exfalso. apply Hc. replace c with (((c - 1) / k + 1) * k) by lia.
    apply Z.mod_mul. lia.
  - apply (Z.mod_unique c k ((c - 1) / k)); lia.
Qed.

Section counting.
Variable cfg : SimulatorConfig.

Lemma snapshot_counted name :
  hoare (G := G) (fun s => counted cfg 0 s /\ refresh_settled (mm_update_every_k_events cfg) s) (_snapshot name)
    (fun _ s => counted cfg 1 s /\ refresh_settled (mm_update_every_k_events cfg) s).
Proof.
  intros s x s' [Hc [Hle Hk]] H.
  apply snapshot_run in H as (sn & Hsn & Hcfg & Hcnt & Hlast & _ & _ & Hidx & Hev & _).
  destruct Hc as (Hcf & Hnum & Hlen & Hpos & Hhead & Hall).
  split; [|by unfold refresh_settled; rewrite Hcnt, Hlast].
  unfold counted, counted_at. rewrite Hsn, Hcfg, Hcnt. split; [done|].
  split; [|split; [|split; [|split]]].
  - unfold numbered in *. rewrite length_app, seq_app, !fmap_app, Hnum. simpl.
    do 2 f_equal. lia.
  - rewrite length_app. simpl. lia.
  - lia.
  - destruct (snapshots s); simpl in *; [lia|done].
  - apply Forall_app. split; [done|]. constructor; [|constructor].
    split; [lia|]. intros Hk'. rewrite Hev, Hidx. by apply Hk.
Qed.

Lemma dispatch_counted event :
  hoare (G := G) (fun s => counted cfg 0 s /\ refresh_due (mm_update_every_k_events cfg) s)
    (dispatch set_iter event) (fun _ s => counted cfg 0 s /\ refresh_due (mm_update_every_k_events cfg) s).
Proof.
  unfold dispatch. apply hoare_gets_config with (cfg := cfg); [by intros s [[? _] _]|].
  apply hoare_seq; [apply hoare_gets|intros ts].
  destruct (event_type event); try solve [hoare_fields fail].
  case_bool_decide as Hk; [|apply hoare_ret].
  eapply hoare_bind; [|intros _; solve [hoare_fields fail]].
  eapply hoare_weaken; [apply (refresh_counter (counted_at cfg 0))| |].
  - by intros s [Hc _].
  - intros _ s [Hc Hl]. split; [done|]. split; [lia|]. intros ?. lia.
Qed.

Lemma handle_event_counted event :
  hoare (G := G) (fun s => counted cfg 1 s /\ refresh_settled (mm_update_every_k_events cfg) s)
    (handle_event set_iter event) (fun _ s => counted cfg 1 s /\ refresh_settled (mm_update_every_k_events cfg) s).
Proof.
  unfold handle_event.
  apply hoare_gets_config with (cfg := cfg); [by intros s [[? _] _]|].
  eapply hoare_bind with (Q := fun s => counted cfg 0 s /\ refresh_due (mm_update_every_k_events cfg) s).
  { apply hoare_modify_to. intros s [(Hcf & Hnum & Hlen & Hpos & Hhead & Hall) [Hle Hk]].
    split.
    - unfold counted, counted_at. simpl. repeat split; try done; lia.
    - split; simpl; [lia|]. intros Hk'.
      replace (_event_count s + 1 - 1) with (_event_count s) by lia.
      specialize (Hk Hk'). lia. }
  intros _. eapply hoare_bind; [apply dispatch_counted|]. intros refreshed.
  eapply hoare_bind with (Q := fun s => counted cfg 0 s /\ refresh_settled (mm_update_every_k_events cfg) s).
  { case_bool_decide as Hk.
    - cbv zeta. rewrite Z.max_r by lia. apply hoare_bind_gets. intros n.
      case_bool_decide as Hn.
      + eapply hoare_bind; [|intros _; apply hoare_ret].
        eapply hoare_weaken;
          [apply (refresh_counter (fun c m sn => counted_at cfg 0 c m sn /\ m mod mm_update_every_k_events cfg = 0))
          | |].
        * intros s [[Hc _] He]. split; [done|]. by rewrite He.
        * intros _ s [[Hc Hm] Hl]. split; [done|]. split; [lia|]. intros _.
          rewrite Hl, Hm. lia.
      + eapply hoare_weaken; [apply hoare_ret| |by intros ? s Hs; exact Hs].
        intros s [[Hc [Hle Hd]] He]. split; [done|]. split; [done|]. intros _.
        rewrite Hd by done. apply mod_succ; [done|]. by rewrite He.
    - eapply hoare_weaken; [apply hoare_ret| |by intros ? s Hs; exact Hs].
      intros s [Hc [Hle Hd]]. split; [done|]. split; [done|]. by intros ?. }
  intros refreshed'. apply hoare_seq; [solve [hoare_fields fail]|]. intros adapted.
  cbv zeta. apply snapshot_counted.
Qed.

Lemma start_counted :
  hoare (G := G)
    (fun s => uncounted_at cfg (sim_config s) (_event_count s) (snapshots s))
    (start set_iter) (fun _ s => counted cfg 1 s /\ refresh_settled (mm_update_every_k_events cfg) s).
Proof.
  unfold start. apply hoare_seq; [solve [hoare_fields fail]|intros _].
  eapply hoare_bind.
  { apply (refresh_counter (uncounted_at cfg)). }
  intros _. apply hoare_seq; [solve [hoare_fields fail]|intros _].
  intros s x s' [(Hcf & Hn & Hsn) Hl] H.
  apply snapshot_run in H as (sn & Hsn' & Hcfg & Hcnt & Hlast & _ & Hname & Hidx & Hev & _).
  rewrite Hsn in Hsn'. simpl in Hsn'.
  split.
  - unfold counted, counted_at. rewrite Hsn', Hcfg, Hcnt, Hn. split; [done|].
    split; [by unfold numbered; simpl; rewrite Hidx, Hn|].
    split; [done|]. split; [done|]. split; [by intros ? [= <-]|].
    constructor; [|constructor]. unfold refresh_counted. rewrite Hev, Hidx, Hl, Hn.
    split; [lia|]. intros ?. by rewrite Z.mod_0_l by lia.
  - unfold refresh_settled. rewrite Hcnt, Hlast, Hl, Hn.
    split; [lia|]. intros ?. by rewrite Z.mod_0_l by lia.
Qed.

Lemma loop_turn_counted :
  hoare (G := G) (fun s => counted cfg 1 s /\ refresh_settled (mm_update_every_k_events cfg) s)
    (loop_turn set_iter) (fun _ s => counted cfg 1 s /\ refresh_settled (mm_update_every_k_events cfg) s).
Proof. hoare_fields ltac:(apply handle_event_counted). Qed.

Lemma run_loop_counted fuel :
  hoare (G := G) (fun s => counted cfg 1 s /\ refresh_settled (mm_update_every_k_events cfg) s)
    (run_loop set_iter fuel) (fun _ s => counted cfg 1 s /\ refresh_settled (mm_update_every_k_events cfg) s).
Proof.
  induction fuel as [|fuel IH]; simpl;
    (apply hoare_bind_inv; [apply loop_turn_counted|]); intros [[]|];
    try apply hoare_ret; [|done].
  by intros s x s' _ H.
Qed.

End counting.
Section soundness.
Hypothesis Henum : enumeration set_iter.

Lemma snapshot_sound_inv name :
  hoare (G := G) (fun s => sim_inv s /\ snapshots_sound s) (_snapshot name)
    (fun _ s => sim_inv s /\ snapshots_sound s).
Proof.
  intros s x s' [Hi Hs] H.
  apply snapshot_run in H
    as (sn & Hsn & _ & _ & _ & Hv & _ & _ & _ & Hbb & Hba & Hsp & Htd).
  split; [by eapply inv_view|].
  unfold snapshots_sound. rewrite Hsn. apply Forall_app. split; [done|].
  constructor; [|constructor].
  assert (Hwf : book_wf (book s)) by apply Hi.
  destruct (top_depth_wf _ Hwf) as (bq & aq & Ht & Hb0 & Ha0 & Hb1 & Ha1).
  rewrite Ht in Htd. injection Htd as -> ->.
  unfold snapshot_sound. rewrite Hbb, Hba, Hsp.
  split; [intros pb pa; by apply best_prices_uncrossed|].
  split; [done|]. split; [intros [p Hp]; by apply (Hb1 p)|].
  split; [done|]. split; [intros [p Hp]; by apply (Ha1 p)|].
  unfold spread. rewrite !is_Some_alt.
  destruct (best_bid (book s)), (best_ask (book s)); tauto.
Qed.

Ltac sound_step :=
  apply hoare_conj; [unfold sim_inv in *; hoare_inv | hoare_fields fail].

Lemma handle_event_sound event :
  hoare (G := G) (fun s => sim_inv s /\ snapshots_sound s)
    (handle_event set_iter event) (fun _ s => sim_inv s /\ snapshots_sound s).
Proof.
  pose proof (dispatch_inv set_iter Henum event) as Hd.
  unfold handle_event.
  do 5 (apply hoare_seq; [solve [sound_step]|intros ?]).
  cbv zeta. apply snapshot_sound_inv.
Qed.

Lemma loop_turn_sound :
  hoare (G := G) (fun s => sim_inv s /\ snapshots_sound s)
    (loop_turn set_iter) (fun _ s => sim_inv s /\ snapshots_sound s).
Proof. hoare_fields ltac:(apply handle_event_sound). Qed.

Lemma run_loop_sound fuel :
  hoare (G := G) (fun s => sim_inv s /\ snapshots_sound s)
    (run_loop set_iter fuel) (fun _ s => sim_inv s /\ snapshots_sound s).
Proof.
  induction fuel as [|fuel IH]; simpl;
    (apply hoare_bind_inv; [apply loop_turn_sound|]); intros [[]|];
    try apply hoare_ret; [|done].
  by intros s x s' _ H.
Qed.

Lemma start_sound :
  hoare (G := G) (fun s => inv 0 s /\ snapshots_sound s)
    (start set_iter) (fun _ s => sim_inv s /\ snapshots_sound s).
Proof.
  unfold start.
  eapply hoare_bind;
    [apply hoare_conj; [apply (seed_book_inv 0)|solve [hoare_fields fail]]|intros _].
  eapply hoare_bind;
    [apply hoare_conj;
       [apply (handle_mm_quote_update_inv set_iter Henum 0)|solve [hoare_fields fail]]
    |intros _].
  apply hoare_seq;
    [apply hoare_conj;
       [apply (framed_inv 2), framed_schedule_initial_events|solve [hoare_fields fail]]
    |intros _].
  apply snapshot_sound_inv.
Qed.

End soundness.
End snapshots.

(** X13: the snapshots a run returns are numbered from 0 in [event_idx], one
    for each event handled after the first one, which is the ["INIT"]
    snapshot.  The counter [events_since_mm_refresh] of a snapshot is never
    negative, and with a refresh of the quotes every [k > 0] events it is
    the number of the event modulo [k]. *)
Theorem X13_snapshots_numbered {A : Arith} {G : Type} {gen : Generator G}
    (set_iter : gset string -> list string) (cfg : SimulatorConfig) (fuel : nat)
    (r : RunResult) :
  run set_iter cfg fuel = Return r ->
  out_config r = cfg /\
  event_idx <$> out_snapshots r = Z.of_nat <$> seq 0 (length (out_snapshots r)) /\
  (exists first rest,
     out_snapshots r = first :: rest /\ snap_event_type first = "INIT") /\
  Forall (fun sn =>
            0 <= events_since_mm_refresh sn /\
            (0 < mm_update_every_k_events cfg ->
             events_since_mm_refresh sn
             = event_idx sn mod mm_update_every_k_events cfg))
    (out_snapshots r).
Proof.
  unfold run, run_from. intros H.
  destruct ((start set_iter ≫= fun _ => run_loop set_iter fuel) (new_simulator cfg))
    as [[[] s]| |] eqn:E; [|done..].
  simpl in H. injection H as <-.
  assert (Hc : counted cfg 1 s /\ refresh_settled (mm_update_every_k_events cfg) s).
  { eapply (hoare_bind _ _ _ _ _ (start_counted set_iter cfg)
              (fun _ => run_loop_counted set_iter cfg fuel)); [|exact E].
    by repeat split. }
  destruct Hc as [(Hcf & Hnum & Hlen & Hpos & Hhead & Hall) _]. simpl.
  split; [done|]. split; [done|]. split; [|done].
  destruct (snapshots s) as [|first rest]; simpl in *; [lia|].
  exists first, rest. split; [done|]. by apply Hhead.
Qed.

Lemma X13_witness :
  run (A := exact) (gen := stepping) elements every_third_config 20
    = Return every_third_result /\
  events_since_mm_refresh <$> out_snapshots every_third_result
    = [0; 1; 2; 0; 1; 2; 0; 1; 2; 0] /\
  event_idx <$> out_snapshots every_third_result
    = Z.of_nat <$> seq 0 (length (out_snapshots every_third_result)).
Proof.
  assert (Hr : run (A := exact) (gen := stepping) elements every_third_config 20
               = Return every_third_result) by (vm_compute; reflexivity).
  split; [exact Hr|]. split; [vm_compute; reflexivity|].
  exact (proj1 (proj2 (X13_snapshots_numbered (A := exact) (gen := stepping)
                         elements every_third_config 20 every_third_result Hr))).
Defined.

(** X14: every snapshot a run returns was taken of a sound book.  Its best
    bid is below its best ask when it has both; the depth at the top of a
    side is positive when the side has orders and zero when it has none; and
    it has a spread exactly when it has both best prices. *)
Theorem X14_snapshots_sound {A : Arith} {G : Type} {gen : Generator G}
    (set_iter : gset string -> list string) (cfg : SimulatorConfig) (fuel : nat)
    (r : RunResult) :
  enumeration set_iter ->
  run set_iter cfg fuel = Return r ->
  Forall (fun sn =>
            (forall pb pa, snap_best_bid sn = Some pb -> snap_best_ask sn = Some pa ->
                           (pb < pa)%Qc) /\
            (snap_best_bid sn = None -> top_bid_depth sn = 0) /\
            (is_Some (snap_best_bid sn) -> 0 < top_bid_depth sn) /\
            (snap_best_ask sn = None -> top_ask_depth sn = 0) /\
            (is_Some (snap_best_ask sn) -> 0 < top_ask_depth sn) /\
            (is_Some (snap_spread sn)
             <-> is_Some (snap_best_bid sn) /\ is_Some (snap_best_ask sn)))
    (out_snapshots r).
Proof.
  unfold run, run_from. intros Henum H.
  destruct ((start set_iter ≫= fun _ => run_loop set_iter fuel) (new_simulator cfg))
    as [[[] s]| |] eqn:E; [|done..].
  simpl in H. injection H as <-.
  assert (Hs : sim_inv s /\ snapshots_sound s).
  { eapply (hoare_bind _ _ _ _ _ (start_sound set_iter Henum)
              (fun _ => run_loop_sound set_iter Henum fuel)); [|exact E].
    split; [apply new_simulator_inv|constructor]. }
  exact (proj2 Hs).
Qed.

Lemma X14_witness :
  enumeration (elements : gset string -> list string) /\
  run (A := exact) (gen := stepping) elements short_config 20 = Return short_result /\
  length (out_snapshots short_result) = 10%nat /\
  Forall snapshot_sound (out_snapshots short_result).
Proof.
  assert (Hr : run (A := exact) (gen := stepping) elements short_config 20
               = Return short_result) by (vm_compute; reflexivity).
  split; [exact enumeration_elements|]. split; [exact Hr|]. split; [reflexivity|].
  exact (X14_snapshots_sound (A := exact) (gen := stepping) elements short_config 20
           short_result enumeration_elements Hr).
Defined.

(** ** The ledger of the agent along a run *)

Lemma net_position_app (l1 l2 : list Trade) :
  net_position (l1 ++ l2) = net_position l1 + net_position l2.
Proof. induction l1 as [|t l1 IH]; simpl; [done|]. rewrite IH. lia. Qed.

Lemma net_notional_app (l1 l2 : list Trade) :
  net_notional (l1 ++ l2) = (net_notional l1 + net_notional l2)%Qc.
Proof.
  induction l1 as [|t l1 IH]; simpl.
  - change (Q2Qc 0) with 0%Qc. ring.
  - rewrite IH. ring.
Qed.

Section run_ledger.
Context {G : Type} {gen : Generator G}.
Variable set_iter : gset string -> list string.
Implicit Types s : EventDrivenSimulator G.

#[local] Existing Instance exact.

Lemma process_trade_ledger t s x s' :
  process_trade t s = Return (x, s') ->
  trades s' = trades s /\
  inventory (market_maker s') = inventory (market_maker s) + net_position [t] /\
  cash (market_maker s') = (cash (market_maker s) - net_notional [t])%Qc.
Proof.
  intros H. unfold process_trade in H. run_step H.
  match goal with E : on_trade _ _ = _ |- _ =>
    apply on_trade_ledger in E as (Hi & Hc & _) end.
  assert (Hn : net_notional [t]
               = (Qc_of_Z (mm_sign t * trade_qty t) * trade_price t)%Qc).
  { simpl. change (Q2Qc 0) with 0%Qc. ring. }
  rewrite Hn. cbn [net_position foldr]. rewrite Z.add_0_r. split; [done|].
  by case_bool_decide.
Qed.

Lemma for_each_process_trade_ledger ts s x s' :
  for_each ts process_trade s = Return (x, s') ->
  trades s' = trades s /\
  inventory (market_maker s') = inventory (market_maker s) + net_position ts /\
  cash (market_maker s') = (cash (market_maker s) - net_notional ts)%Qc.
Proof.
  revert s. induction ts as [|t ts IH]; intros s H; simpl in H.
  - apply ret_Return in H as [_ ->]. simpl. split; [done|]. split; [lia|].
    change (Q2Qc 0) with 0%Qc. ring.
  - apply bind_Return in H as (? & s1 & H1 & H2).
    apply process_trade_ledger in H1 as (Ht1 & Hi1 & Hc1).
    apply IH in H2 as (Ht2 & Hi2 & Hc2).
    rewrite Ht2, Ht1, Hi2, Hi1, Hc2, Hc1. split; [done|].
    change (t :: ts) with ([t] ++ ts). rewrite net_position_app, net_notional_app.
    split; [lia|ring].
Qed.

Lemma process_trades_ledger ts :
  hoare (G := G) ledger (_process_trades ts) (fun _ => ledger).
Proof.
  intros s x s' [Hi Hc] H. unfold _process_trades in H. destruct ts as [|t ts].
  { by apply ret_Return in H as [_ ->]. }
  apply bind_Return in H as (? & s1 & H1 & H2). apply modify_Return in H1 as ->.
  apply for_each_process_trade_ledger in H2 as (Ht & Hi' & Hc'). unfold ledger.
  remember (t :: ts) as l eqn:El. clear El.
  rewrite Ht, Hi', Hc'. simpl. rewrite Hi, Hc, net_position_app, net_notional_app.
  split; [done|ring].
Qed.

Lemma snapshot_recorded name :
  hoare (G := G) ledger (_snapshot name) (fun _ s => ledger s /\ recorded s).
Proof.
  intros s x s' Hl H. unfold _snapshot in H. run_step H.
  all: split; [exact Hl|]; intros sn; unfold recorded; simpl; rewrite last_snoc;
    by intros [= <-].
Qed.

Ltac ledger_step := hoare_fields ltac:(apply process_trades_ledger).

Lemma handle_event_ledger event :
  hoare (G := G) (fun s => ledger s /\ recorded s) (handle_event set_iter event)
    (fun _ s => ledger s /\ recorded s).
Proof.
  eapply hoare_weaken with (P := ledger);
    [|by intros s [? _]|by intros ? s Hs; exact Hs].
  unfold handle_event. do 5 (apply hoare_seq; [solve [ledger_step]|intros ?]).
  cbv zeta. apply snapshot_recorded.
Qed.

Lemma loop_turn_ledger :
  hoare (G := G) (fun s => ledger s /\ recorded s) (loop_turn set_iter)
    (fun _ s => ledger s /\ recorded s).
Proof. hoare_fields ltac:(apply handle_event_ledger). Qed.

Lemma run_loop_ledger fuel :
  hoare (G := G) (fun s => ledger s /\ recorded s) (run_loop set_iter fuel)
    (fun _ s => ledger s /\ recorded s).
Proof.
  induction fuel as [|fuel IH]; simpl;
    (apply hoare_bind_inv; [apply loop_turn_ledger|]); intros [[]|];
    try apply hoare_ret; [|done].
  by intros s x s' _ H.
Qed.

Lemma start_ledger :
  hoare (G := G) ledger (start set_iter) (fun _ s => ledger s /\ recorded s).
Proof.
  unfold start. do 3 (apply hoare_seq; [solve [ledger_step]|intros ?]).
  apply snapshot_recorded.
Qed.

End run_ledger.

(** X15: in exact arithmetic, the last snapshot of a run reconciles with
    its trade log: the inventory it records is the quantity the agent has
    bought net of the quantity it has sold over the trades of the log, and
    the cash it records is what the agent has received net of what it has
    paid in them. *)
Theorem X15_last_snapshot_reconciles {G : Type} {gen : Generator G}
    (set_iter : gset string -> list string) (cfg : SimulatorConfig) (fuel : nat)
    (r : RunResult) (sn : Snapshot) :
  run (A := exact) set_iter cfg fuel = Return r ->
  last (out_snapshots r) = Some sn ->
  mm_inventory sn = net_position (out_trades r) /\
  mm_cash sn = (- net_notional (out_trades r))%Qc.
Proof.
  unfold run, run_from. intros H Hsn.
  destruct ((start (A := exact) set_iter ≫= fun _ => run_loop set_iter fuel)
              (new_simulator cfg)) as [[[] s]| |] eqn:E; [|done..].
  simpl in H. injection H as <-. simpl in *.
  assert (Hs : ledger s /\ recorded s).
  { eapply (hoare_bind _ _ _ _ _ (start_ledger set_iter)
              (fun _ => run_loop_ledger set_iter fuel)); [|exact E].
    split; simpl; [done|]. change (Q2Qc 0) with 0%Qc. ring. }
  destruct Hs as [[Hi Hc] Hr]. destruct (Hr sn Hsn) as [-> ->]. done.
Qed.

Lemma X15_witness :
  exists sn,
    run (A := exact) (gen := stepping) elements short_config 20 = Return short_result /\
    last (out_snapshots short_result) = Some sn /\
    mm_inventory sn = net_position (out_trades short_result) /\
    mm_cash sn = (- net_notional (out_trades short_result))%Qc /\
    mm_inventory sn = 1.
Proof.
  assert (Hr : run (A := exact) (gen := stepping) elements short_config 20
               = Return short_result) by (vm_compute; reflexivity).
  eexists. split; [exact Hr|]. split; [vm_compute; reflexivity|].
  split; [|split; [|vm_compute; reflexivity]].
  - apply (X15_last_snapshot_reconciles (gen := stepping) elements short_config 20
             short_result _ Hr). vm_compute; reflexivity.
  - apply (X15_last_snapshot_reconciles (gen := stepping) elements short_config 20
             short_result _ Hr). vm_compute; reflexivity.
Defined.

(** ** No lookup of a price level misses *)

Lemma outcome_bind_nke {X Y} (o : outcome X) (f : X -> outcome Y) :
  o <> Raise KeyError -> (forall x, f x <> Raise KeyError) ->
  (o ≫= f) <> Raise KeyError.
Proof.
  intros Ho Hf. destruct o as [x|e|]; cbv [mbind outcome_bind]; [apply Hf| |done].
  intros [= ->]. by apply Ho.
Qed.

Section book_lookups.
Context {A : Arith}.

Lemma match_returns b o : book_wf b -> exists r, _match b o = Return r /\ book_wf r.1.1.
Proof.
  intros Hwf. unfold _match.
  destruct (match_loop_spec (S (length (side_levels b (opposite (side o))))) b o Hwf)
    as (b1 & Hr & Hwf1 & _); [lia|].
  unfold side_levels in Hr. rewrite Hr. eauto.
Qed.

Lemma add_resting_nke b o : _add_resting b o <> Raise KeyError.
Proof.
  unfold _add_resting. destruct (price o); [|done].
  destruct (_book_for_side b (side o)) as [book levels].
  by destruct (book !! q).
Qed.

Lemma add_order_nke b o : book_wf b -> add_order b o <> Raise KeyError.
Proof.
  intros Hwf. unfold add_order. apply outcome_bind_nke.
  - destruct (_ || _); [|done].
    by destruct (match_returns b o Hwf) as (r & -> & _).
  - intros [[b1 o1] ts]. case_bool_decide; [|done].
    apply outcome_bind_nke; [apply add_resting_nke|done].
Qed.

Lemma add_order_wf b o ts b' o' :
  book_wf b -> add_order b o = Return (ts, b', o') -> book_wf b'.
Proof.
  intros Hwf H. destruct (decide (0 < qty o)) as [Hq|Hq].
  - destruct (decide (order_type o = LIMIT /\ price o = None)) as [[Ht Hp]|Hv].
    + exfalso. unfold add_order in H.
      rewrite bool_decide_eq_false_2 in H by (by rewrite Ht).
      unfold _is_marketable in H. rewrite Ht, Hp in H.
      assert (Hm : match side o, best_ask b, best_bid b, @None Qc with
                   | BID, Some ba, _, Some p => bool_decide (ba <= p)%Qc
                   | BID, _, _, _ => false
                   | ASK, _, Some bb, Some p => bool_decide (p <= bb)%Qc
                   | ASK, _, _, _ => false
                   end = false).
      { by destruct (side o), (best_ask b), (best_bid b). }
      rewrite Hm in H. simpl in H.
      rewrite bool_decide_eq_true_2 in H by done. unfold _add_resting in H.
      by rewrite Hp in H.
    + assert (Hvalid : valid_order o).
      { split; [done|]. intros Ht. destruct (price o); [by eexists|]. by destruct Hv. }
      destruct (add_order_spec b o Hwf Hvalid) as (b2 & Hr & Hwf2 & _).
      rewrite Hr in H. by injection H as _ <- _.
  - unfold add_order in H.
    assert (Hm : (if bool_decide (order_type o = MARKET) || _is_marketable b o
                  then _match b o else Return (b, o, [])) = Return (b, o, [])).
    { destruct (_ || _); [|done]. unfold _match. rewrite match_loop_unfold.
      by rewrite bool_decide_eq_false_2. }
    rewrite Hm in H. simpl in H.
    rewrite bool_decide_eq_false_2 in H by tauto. by injection H as _ <- _.
Qed.

Lemma depth_while_nke test (levels : gmap Qc (list Order)) prices acc :
  (forall p, p ∈ prices -> is_Some (levels !! p)) ->
  depth_while test levels prices acc <> Raise KeyError.
Proof.
  revert acc. induction prices as [|p prices IH]; intros acc Hk; simpl; [done|].
  destruct (test p); [|done].
  destruct (Hk p) as [q ->]; [left|]. apply IH. intros ? ?. apply Hk. by right.
Qed.

Lemma py_div_nke x y : py_div x y <> Raise KeyError.
Proof. unfold py_div. by case_bool_decide. Qed.

Lemma Order_post_init_nke o : Order_post_init o <> Raise KeyError.
Proof. unfold Order_post_init. by repeat case_bool_decide. Qed.

Lemma update_position_nke mm sg q p : _update_position mm sg q p <> Raise KeyError.
Proof.
  unfold _update_position. repeat case_bool_decide; try done.
  apply outcome_bind_nke; [apply py_div_nke|done].
Qed.

Lemma on_trade_nke mm t : on_trade mm t <> Raise KeyError.
Proof.
  unfold on_trade, _apply_fill.
  repeat case_bool_decide; try done;
    (apply outcome_bind_nke; [apply update_position_nke|done]).
Qed.

Lemma flow_round_to_tick_nke v tick : flow_round_to_tick v tick <> Raise KeyError.
Proof. unfold flow_round_to_tick. apply outcome_bind_nke; [apply py_div_nke|done]. Qed.

Lemma round_to_tick_nke mm v : _round_to_tick mm v <> Raise KeyError.
Proof. unfold _round_to_tick. apply outcome_bind_nke; [apply py_div_nke|done]. Qed.

Lemma quote_prices_nke mm mid bb ba : quote_prices mm mid bb ba <> Raise KeyError.
Proof.
  unfold quote_prices, clamped_prices. cbv zeta.
  repeat first
    [ apply round_to_tick_nke
    | apply outcome_bind_nke; [|intros ?]
    | match goal with
      | |- (match ?x with _ => _ end) <> _ => destruct x
      | |- (if ?c then _ else _) <> _ => destruct c
      end
    | done ].
Qed.

Lemma make_quotes_nke mm ts mid bb ba f :
  make_quotes mm ts mid bb ba f <> Raise KeyError.
Proof.
  unfold make_quotes, factory_limit, next_id.
  apply outcome_bind_nke; [apply quote_prices_nke|]. intros [pb pa].
  apply outcome_bind_nke; [apply Order_post_init_nke|]. intros o1.
  apply outcome_bind_nke; [apply Order_post_init_nke|]. done.
Qed.

Lemma factory_limit_nke f ts s p q ow : (factory_limit f ts s p q ow).1 <> Raise KeyError.
Proof. apply Order_post_init_nke. Qed.

Lemma factory_market_nke f ts s q ow : (factory_market f ts s q ow).1 <> Raise KeyError.
Proof. apply Order_post_init_nke. Qed.

End book_lookups.

Section engine_lookups.
Context {A : Arith} {G : Type} {gen : Generator G}.
Variable set_iter : gset string -> list string.
Hypothesis Hgen : forall lo hi (g : G), integers lo hi g <> Raise KeyError.
Implicit Types s : EventDrivenSimulator G.

(** The book stays well formed. *)
Lemma submit_wf o : hoare (G := G) wf_state (submit o) (fun _ => wf_state).
Proof.
  intros s x s' Hwf H. unfold submit in H. run_step H.
  match goal with E : add_order _ _ = _ |- _ => apply add_order_wf in E; [|done] end.
  match goal with E : _process_trades _ _ = _ |- _ =>
    apply framed_process_trades, view_eq in E as (Hb & _) end.
  unfold wf_state. by rewrite Hb.
Qed.

Lemma cancel_wf oid :
  hoare (G := G) wf_state (modify (fun s => set_book s (cancel (book s) oid).2))
    (fun _ => wf_state).
Proof. apply hoare_modify. intros s Hs. by apply cancel_book_wf. Qed.

Ltac wf_step := hoare_fields ltac:(first [apply submit_wf | apply cancel_wf]).

(** The rules of [no_key_error]. *)
Lemma nke_ret {X} (P : EventDrivenSimulator G -> Prop) (x : X) :
  no_key_error P (mret x : M G X).
Proof. by intros s _. Qed.

Lemma nke_gets {X} (P : EventDrivenSimulator G -> Prop) (f : EventDrivenSimulator G -> X) :
  no_key_error P (gets f).
Proof. by intros s _. Qed.

Lemma nke_modify (P : EventDrivenSimulator G -> Prop)
    (f : EventDrivenSimulator G -> EventDrivenSimulator G) :
  no_key_error P (modify f).
Proof. by intros s _. Qed.

Lemma nke_draw {X} (P : EventDrivenSimulator G -> Prop) (f : G -> X * G) :
  no_key_error P (draw f).
Proof. intros s _. unfold draw. by destruct (f (rng s)). Qed.

Lemma nke_draw_or_raise {X} (P : EventDrivenSimulator G -> Prop)
    (f : G -> outcome (X * G)) :
  (forall g, f g <> Raise KeyError) -> no_key_error P (draw_or_raise f).
Proof.
  intros Hf s _. unfold draw_or_raise. specialize (Hf (rng s)).
  destruct (f (rng s)) as [[x g]|e|]; [done| |done]. intros [= ->]. by apply Hf.
Qed.

Lemma nke_lift {X} (P : EventDrivenSimulator G -> Prop) (o : outcome X) :
  o <> Raise KeyError -> no_key_error P (lift o : M G X).
Proof.
  intros Ho s _. unfold lift. destruct o as [x|e|]; [done| |done].
  intros [= ->]. by apply Ho.
Qed.

Lemma nke_bind {X Y} (P Q : EventDrivenSimulator G -> Prop) (m : M G X)
    (f : X -> M G Y) :
  no_key_error P m -> hoare P m (fun _ => Q) -> (forall x, no_key_error Q (f x)) ->
  no_key_error P (m ≫= f).
Proof.
  intros Hm Hh Hf s Hp. specialize (Hm s Hp). cbv [mbind M_bind].
  destruct (m s) as [[x s1]|e|] eqn:E; [|by intros [= ->]|done].
  apply Hf. by eapply Hh.
Qed.

Lemma nke_bind_inv {X Y} (I : EventDrivenSimulator G -> Prop) (m : M G X)
    (f : X -> M G Y) :
  no_key_error I m -> hoare I m (fun _ => I) -> (forall x, no_key_error I (f x)) ->
  no_key_error I (m ≫= f).
Proof. apply nke_bind. Qed.

Lemma nke_bind_any {X Y} (m : M G X) (f : X -> M G Y) :
  no_key_error (fun _ => True) m -> (forall x, no_key_error (fun _ => True) (f x)) ->
  no_key_error (fun _ => True) (m ≫= f).
Proof. intros Hm Hf. eapply nke_bind; [exact Hm| |exact Hf]. by intros s x s' _ _. Qed.

Lemma nke_bind_gets {X Y} (P : EventDrivenSimulator G -> Prop)
    (f : EventDrivenSimulator G -> X) (k : X -> M G Y) :
  (forall x, no_key_error (fun s => P s /\ f s = x) (k x)) ->
  no_key_error P (gets f ≫= k).
Proof. intros Hk s Hp. cbv [mbind M_bind gets]. by apply Hk. Qed.

Lemma nke_pure {X} (phi : Prop) (P : EventDrivenSimulator G -> Prop) (m : M G X) :
  (forall s, P s -> phi) -> (phi -> no_key_error (fun _ => True) m) ->
  no_key_error P m.
Proof. intros Hp Hm s Hs. by apply (Hm (Hp s Hs)). Qed.

Lemma nke_any {X} (P : EventDrivenSimulator G -> Prop) (m : M G X) :
  no_key_error (fun _ => True) m -> no_key_error P m.
Proof. intros Hm s _. by apply Hm. Qed.

Lemma nke_for_each {X} (I : EventDrivenSimulator G -> Prop) (l : list X)
    (body : X -> M G unit) :
  (forall x, no_key_error I (body x)) -> (forall x, hoare I (body x) (fun _ => I)) ->
  no_key_error I (for_each l body).
Proof.
  intros Hb Hh. induction l as [|x l IH]; simpl; [apply nke_ret|].
  apply nke_bind_inv; [apply Hb|apply Hh|]. by intros _.
Qed.

Lemma nke_for_each_any {X} (l : list X) (body : X -> M G unit) :
  (forall x, no_key_error (fun _ => True) (body x)) ->
  no_key_error (fun _ => True) (for_each l body).
Proof. intros Hb. apply nke_for_each; [done|]. by intros x s y s' _ _. Qed.

Lemma new_limit_nke (P : EventDrivenSimulator G -> Prop) ts sd p q ow :
  no_key_error P (new_limit ts sd p q ow).
Proof.
  intros s _. unfold new_limit. cbv [mbind M_bind gets modify].
  pose proof (factory_limit_nke (factory s) ts sd p q ow) as Hr.
  destruct (factory_limit (factory s) ts sd p q ow) as [r f']. simpl in *.
  unfold lift. destruct r as [x|e|]; [done| |done]. intros [= ->]. by apply Hr.
Qed.

Lemma new_market_nke (P : EventDrivenSimulator G -> Prop) ts sd q ow :
  no_key_error P (new_market ts sd q ow).
Proof.
  intros s _. unfold new_market. cbv [mbind M_bind gets modify].
  pose proof (factory_market_nke (factory s) ts sd q ow) as Hr.
  destruct (factory_market (factory s) ts sd q ow) as [r f']. simpl in *.
  unfold lift. destruct r as [x|e|]; [done| |done]. intros [= ->]. by apply Hr.
Qed.

(** A method is unfolded down to its reads, its assignments, its draws and
    its calls, where [base] knows no more. *)
Ltac nke_fields base :=
  repeat first
    [ base
    | apply new_limit_nke
    | apply new_market_nke
    | apply nke_ret
    | apply nke_gets
    | apply nke_modify
    | apply nke_draw
    | apply nke_draw_or_raise; intros ?; apply Hgen
    | apply nke_lift;
      first [ apply on_trade_nke | apply flow_round_to_tick_nke | apply make_quotes_nke
            | apply py_div_nke ]
    | apply nke_bind_any; [|intros ?]
    | apply nke_for_each_any; intros ?
    | apply nke_bind_inv; [|solve [wf_step]|intros ?]
    | apply nke_for_each; [intros ?|intros ?; solve [wf_step]]
    | match goal with
      | |- no_key_error _ (if ?c then _ else _) => destruct c
      | |- no_key_error _ (let '(_, _) := ?p in _) => destruct p
      | |- no_key_error _ (match ?x with _ => _ end) => destruct x
      end
    | progress cbv zeta
    | match goal with
      | |- no_key_error _ ?m => let h := head_of m in progress unfold h
      end ].

Lemma process_trades_nke ts :
  no_key_error (G := G) (fun _ => True) (_process_trades ts).
Proof. nke_fields fail. Qed.

Lemma submit_nke o : no_key_error (G := G) wf_state (submit o).
Proof.
  unfold submit. apply nke_bind_gets. intros b.
  apply nke_pure with (phi := book_wf b); [by intros s [Hs <-]|]. intros Hwf.
  apply nke_bind_any; [by apply nke_lift, add_order_nke|]. intros [[ts b'] o'].
  nke_fields ltac:(apply process_trades_nke).
Qed.

Lemma snapshot_nke name : no_key_error (G := G) wf_state (_snapshot name).
Proof.
  unfold _snapshot. apply nke_bind_gets. intros b.
  apply nke_pure with (phi := book_wf b); [by intros s [Hs <-]|]. intros Hwf.
  assert (Ht : top_depth b <> Raise KeyError).
  { by destruct (top_depth_wf b Hwf) as (bq & aq & -> & _). }
  nke_fields ltac:(by apply nke_lift).
Qed.

Lemma qty_to_force_jump_nke sg jt :
  no_key_error (G := G) wf_state (_qty_to_force_jump sg jt).
Proof.
  unfold _qty_to_force_jump. apply nke_bind_inv; [apply nke_gets|apply hoare_gets|].
  intros cfg. apply nke_bind_gets. intros b.
  apply nke_pure with (phi := book_wf b); [by intros s [Hs <-]|]. intros Hwf.
  cbv zeta. case_bool_decide.
  - destruct (best_ask b); [|apply nke_ret]. apply nke_lift, depth_while_nke.
    intros p Hp. by apply (levels_keys _ _ _ (wf_asks b Hwf)).
  - destruct (best_bid b); [|apply nke_ret]. apply nke_lift, depth_while_nke.
    intros p Hp. rewrite elem_of_reverse in Hp. by apply (levels_keys _ _ _ (wf_bids b Hwf)).
Qed.

Ltac safe :=
  nke_fields ltac:(first [ apply submit_nke | apply snapshot_nke
                         | apply qty_to_force_jump_nke
                         | apply nke_any, process_trades_nke ]).

Lemma start_nke : no_key_error (G := G) wf_state (start set_iter).
Proof. safe. Qed.

Lemma loop_turn_nke : no_key_error (G := G) wf_state (loop_turn set_iter).
Proof. safe. Qed.

End engine_lookups.

Lemma script_integers_nke (script : Z -> list Qc) (lo hi : Z) (g : list Qc) :
  integers (Generator := script_generator script) lo hi g <> Raise KeyError.
Proof. simpl. unfold script_integers. by repeat case_match. Qed.

(** X16: a run raises no [KeyError], whatever the configuration, the draws
    and the order in which the sets are enumerated, provided the generator
    raises none: every lookup of a price level in the dict of its side
    finds it, in matching, in the depth at the top of the book and in the
    depth up to a target price. *)
Theorem X16_run_raises_no_key_error {A : Arith} {G : Type} {gen : Generator G}
    (set_iter : gset string -> list string) (cfg : SimulatorConfig) (fuel : nat) :
  (forall lo hi (g : G), integers lo hi g <> Raise KeyError) ->
  run set_iter cfg fuel <> Raise KeyError.
Proof.
  intros Hgen.
  assert (Hloop : forall n, no_key_error (G := G) wf_state (run_loop set_iter n)).
  { assert (Hwf : hoare (G := G) wf_state (loop_turn set_iter) (fun _ => wf_state)).
    { hoare_fields ltac:(first [apply submit_wf | apply cancel_wf]). }
    induction n as [|n IH]; simpl;
      (apply nke_bind_inv; [by apply loop_turn_nke|exact Hwf|]); intros [[]|];
      try apply nke_ret; [by intros s _|exact IH]. }
  assert (Hrun : no_key_error (G := G) wf_state (run_from set_iter fuel)).
  { unfold run_from. apply nke_bind_inv; [by apply start_nke| |by intros _].
    hoare_fields ltac:(first [apply submit_wf | apply cancel_wf]). }
  specialize (Hrun (new_simulator cfg) book_wf_empty). unfold run.
  destruct (run_from set_iter fuel (new_simulator cfg)) as [[[] s]|e|]; [done| |done].
  intros [= ->]. done.
Qed.

Lemma X16_witness :
  (forall lo hi (g : list Qc),
     integers (Generator := stepping) lo hi g <> Raise KeyError) /\
  run (A := exact) (gen := stepping) elements short_config 20 <> Raise KeyError.
Proof.
  split; [apply script_integers_nke|].
  apply (X16_run_raises_no_key_error (A := exact) (gen := stepping) elements
           short_config 20).
  apply script_integers_nke.
Defined.

(** ** The trades of a run *)

Section trade_log.
Context {A : Arith} {G : Type} {gen : Generator G}.
Variable set_iter : gset string -> list string.
Implicit Types s : EventDrivenSimulator G.

Lemma add_order_trades_positive b o ts b' o' :
  book_wf b -> add_order b o = Return (ts, b', o') ->
  Forall (fun t => 0 < trade_qty t) ts.
Proof.
  intros Hwf H. unfold add_order in H.
  assert (Hm : exists b1 o1 ts1,
            (if bool_decide (order_type o = MARKET) || _is_marketable b o
             then _match b o else Return (b, o, [])) = Return (b1, o1, ts1) /\
            Forall (fun t => 0 < trade_qty t) ts1).
  { destruct (_ || _); [|by exists b, o, []].
    destruct (match_loop_spec (S (length (side_levels b (opposite (side o))))) b o Hwf)
      as (b1 & Hr & _); [lia|].
    unfold _match. unfold side_levels in Hr. rewrite Hr. do 3 eexists. split; [done|].
    apply Forall_forall. intros t Ht.
    apply list_elem_of_split in Ht as (l1 & l2 & Ht).
    destruct (fills_trades_inv o _ l1 t l2 (resting_positive b _ Hwf) Ht)
      as (_ & _ & _ & _ & _ & _ & _ & _ & Hq & _). lia. }
  destruct Hm as (b1 & o1 & ts1 & Hm & Hpos). rewrite Hm in H. simpl in H.
  clear Hm. case_bool_decide.
  - destruct (_add_resting b1 o1) as [b2|e|]; cbv [mbind outcome_bind] in H.
    all: try discriminate H.
    injection H as <- _ _. exact Hpos.
  - injection H as <- _ _. exact Hpos.
Qed.

Lemma process_trades_appends ts s x s' :
  _process_trades ts s = Return (x, s') ->
  trades s' = trades s ++ ts /\ book s' = book s.
Proof.
  intros H. pose proof (framed_process_trades ts _ _ _ H) as (Hb & _)%view_eq.
  split; [|done]. unfold _process_trades in H. destruct ts as [|t ts].
  { apply ret_Return in H as [_ ->]. by rewrite app_nil_r. }
  apply bind_Return in H as (? & s1 & H1 & H2). apply modify_Return in H1 as ->.
  by apply for_each_process_trade in H2 as [-> _].
Qed.

Lemma submit_trades_positive o :
  hoare (G := G) (fun s => wf_state s /\ trades_positive s) (submit o)
    (fun _ s => wf_state s /\ trades_positive s).
Proof.
  intros s x s' [Hwf Ht] H. split; [by eapply submit_wf|].
  unfold submit in H. run_step H.
  match goal with E : add_order _ _ = _ |- _ =>
    apply add_order_trades_positive in E; [|done] end.
  match goal with E : _process_trades _ _ = _ |- _ =>
    apply process_trades_appends in E as [Hts _] end.
  unfold trades_positive. rewrite Hts. simpl. by apply Forall_app.
Qed.

Lemma cancel_trades_positive oid :
  hoare (G := G) (fun s => wf_state s /\ trades_positive s)
    (modify (fun s => set_book s (cancel (book s) oid).2))
    (fun _ s => wf_state s /\ trades_positive s).
Proof.
  apply hoare_modify. intros s [Hs Ht]. split; [|done]. by apply cancel_book_wf.
Qed.

Ltac trades_step :=
  hoare_fields ltac:(first [apply submit_trades_positive | apply cancel_trades_positive]).

Lemma start_trades_positive :
  hoare (G := G) (fun s => wf_state s /\ trades_positive s) (start set_iter)
    (fun _ s => wf_state s /\ trades_positive s).
Proof. trades_step. Qed.

Lemma loop_turn_trades_positive :
  hoare (G := G) (fun s => wf_state s /\ trades_positive s) (loop_turn set_iter)
    (fun _ s => wf_state s /\ trades_positive s).
Proof. trades_step. Qed.

Lemma run_loop_trades_positive fuel :
  hoare (G := G) (fun s => wf_state s /\ trades_positive s) (run_loop set_iter fuel)
    (fun _ s => wf_state s /\ trades_positive s).
Proof.
  induction fuel as [|fuel IH]; simpl;
    (apply hoare_bind_inv; [apply loop_turn_trades_positive|]); intros [[]|];
    try apply hoare_ret; [|done].
  by intros s x s' _ H.
Qed.

End trade_log.

(** X17: every trade in the trade log of a run has a positive quantity, and
    so has every fill in its fill log. *)
Theorem X17_trades_have_positive_quantity {A : Arith} {G : Type} {gen : Generator G}
    (set_iter : gset string -> list string) (cfg : SimulatorConfig) (fuel : nat)
    (r : RunResult) :
  run set_iter cfg fuel = Return r ->
  Forall (fun t => 0 < trade_qty t) (out_trades r) /\
  Forall (fun f => 0 < fill_qty f) (out_mm_fills r).
Proof.
  unfold run, run_from. intros H.
  destruct ((start set_iter ≫= fun _ => run_loop set_iter fuel) (new_simulator cfg))
    as [[[] s]| |] eqn:E; [|done..].
  simpl in H. injection H as <-. simpl.
  assert (Ht : wf_state s /\ trades_positive s).
  { eapply (hoare_bind _ _ _ _ _ (start_trades_positive set_iter)
              (fun _ => run_loop_trades_positive set_iter fuel)); [|exact E].
    split; [apply book_wf_empty|constructor]. }
  assert (Hl : fills_logged s).
  { eapply (hoare_bind _ _ _ _ _ (start_logged set_iter)
              (fun _ => run_loop_logged set_iter fuel)); [|exact E]. reflexivity. }
  destruct Ht as [_ Ht]. split; [exact Ht|]. rewrite Hl.
  apply Forall_fmap, Forall_forall. intros t [_ Hin]%list_elem_of_filter.
  unfold trades_positive in Ht. rewrite Forall_forall in Ht. by apply Ht.
Qed.

Lemma X17_witness :
  run (A := exact) (gen := stepping) elements short_config 20 = Return short_result /\
  length (out_trades short_result) = 5%nat /\
  Forall (fun t => 0 < trade_qty t) (out_trades short_result).
Proof.
  assert (Hr : run (A := exact) (gen := stepping) elements short_config 20
               = Return short_result) by (vm_compute; reflexivity).
  split; [exact Hr|]. split; [reflexivity|].
  exact (proj1 (X17_trades_have_positive_quantity (A := exact) (gen := stepping)
                  elements short_config 20 short_result Hr)).
Defined.

(** ** Time goes forward *)

Lemma Qcle_plus_nonneg (x y : Qc) : (Q2Qc 0 <= y)%Qc -> (x <= x + y)%Qc.
Proof.
  intros Hy. rewrite <- (Qcplus_0_r x) at 1. apply Qcplus_le_compat; [apply Qcle_refl|done].
Qed.

Lemma Qcdiv_one_nonneg (r : Qc) : ~ (r <= Q2Qc 0)%Qc -> (Q2Qc 0 <= Q2Qc 1 / r)%Qc.
Proof.
  intros Hr. apply Qcnot_le_lt in Hr.
  unfold Qcle, Qclt, Qcdiv, Qcmult, Qcinv, Q2Qc in *. cbn [this] in *.
  rewrite !Qred_correct in *. rewrite Qmult_1_l.
  apply Qlt_le_weak, Qinv_lt_0_compat. done.
Qed.

Lemma py_max_nonneg (d : Qc) : (Q2Qc 0 <= py_max (Q2Qc 0) d)%Qc.
Proof. unfold py_max. case_bool_decide; [by apply Qclt_le_weak|apply Qcle_refl]. Qed.

Lemma heappush_elem (h : list Event) (e x : Event) :
  x ∈ heappush h e <-> x = e \/ x ∈ h.
Proof.
  induction h as [|e' h IH]; simpl.
  - rewrite list_elem_of_singleton, elem_of_nil. tauto.
  - destruct (Event_lt e e'); rewrite !elem_of_cons; [tauto|]. rewrite IH. tauto.
Qed.

Lemma heappush_sorted (h : list Event) (e : Event) :
  StronglySorted (fun e1 e2 => (ev_timestamp e1 <= ev_timestamp e2)%Qc) h ->
  StronglySorted (fun e1 e2 => (ev_timestamp e1 <= ev_timestamp e2)%Qc) (heappush h e).
Proof.
  induction 1 as [|e' h Hs IH Hall]; simpl; [repeat constructor|].
  destruct (Event_lt e e') eqn:Hlt.
  - assert (Hle : (ev_timestamp e <= ev_timestamp e')%Qc).
    { unfold Event_lt in Hlt. apply orb_true_iff in Hlt as [Hlt|Hlt].
      - apply bool_decide_eq_true in Hlt. by apply Qclt_le_weak.
      - apply andb_true_iff in Hlt as [Heq%bool_decide_eq_true _]. rewrite Heq.
        apply Qcle_refl. }
    constructor; [by constructor|]. constructor; [done|].
    eapply Forall_impl; [exact Hall|]. simpl. intros x Hx. by eapply Qcle_trans.
  - constructor; [done|]. apply Forall_forall. intros x [->|Hx]%heappush_elem.
    + unfold Event_lt in Hlt. apply orb_false_iff in Hlt as [Hlt%bool_decide_eq_false _].
      by apply Qcnot_lt_le.
    + rewrite Forall_forall in Hall. by apply Hall.
Qed.

Section time_order.
Context {G : Type} {gen : Generator G}.
Variable set_iter : gset string -> list string.
Hypothesis Hexp : forall scale (g : G),
  (Q2Qc 0 <= scale)%Qc -> (Q2Qc 0 <= (exponential scale g).1)%Qc.
Implicit Types s : EventDrivenSimulator G.

#[local] Existing Instance exact.

Lemma hoare_bind_dep {X Y} (P : EventDrivenSimulator G -> Prop)
    (Q : X -> EventDrivenSimulator G -> Prop) (R : Y -> EventDrivenSimulator G -> Prop)
    (m : M G X) (f : X -> M G Y) :
  hoare P m Q -> (forall x, hoare (Q x) (f x) R) -> hoare P (m ≫= f) R.
Proof.
  intros Hm Hf s y s' Hp H. apply bind_Return in H as (x & s1 & H1 & H2).
  eapply Hf; [|exact H2]. by eapply Hm.
Qed.

Lemma hoare_assume {X} (phi : Prop) (P : EventDrivenSimulator G -> Prop) (m : M G X)
    (Q : X -> EventDrivenSimulator G -> Prop) :
  (forall s, P s -> phi) -> (phi -> hoare P m Q) -> hoare P m Q.
Proof. intros Hp Hm s x s' Hs. by apply (Hm (Hp s Hs)). Qed.

Lemma hoare_gets_now {Y} (t0 : Qc) (f : Qc -> M G Y)
    (Q : Y -> EventDrivenSimulator G -> Prop) :
  hoare (time_ordered t0) (f t0) Q -> hoare (time_ordered t0) (gets now ≫= f) Q.
Proof.
  intros Hf. apply hoare_bind_gets. intros t s y s' [Hs <-].
  rewrite (proj1 Hs). by apply Hf.
Qed.

(** A time drawn from now on is not before now. *)
Lemma next_time_later (t0 t rate : Qc) :
  hoare (G := G) (time_ordered t0) (next_time t rate)
    (fun r s => time_ordered t0 s /\ forall v, r = Some v -> (t <= v)%Qc).
Proof.
  intros s r s' Hs H. unfold next_time in H. case_bool_decide as Hr.
  - apply ret_Return in H as [-> ->]. by split.
  - run_step H. split; [exact Hs|]. intros v [= <-].
    apply Qcle_plus_nonneg, Hexp. by apply Qcdiv_one_nonneg.
Qed.

Lemma schedule_ordered (t0 : Qc) ty (r : option Qc) pl :
  (forall v, r = Some v -> (t0 <= v)%Qc) ->
  hoare (G := G) (time_ordered t0) (_schedule ty r pl) (fun _ => time_ordered t0).
Proof.
  intros Hr. unfold _schedule. destruct r as [v|]; [|apply hoare_ret].
  apply hoare_modify. intros s (Hn & Hw & Hs & Hf & Hrest). unfold time_ordered. simpl.
  split; [done|]. split; [done|]. split; [by apply heappush_sorted|].
  split; [|done]. apply Forall_forall. intros x [->|Hx]%heappush_elem.
  - simpl. by apply Hr.
  - rewrite Forall_forall in Hf. by apply Hf.
Qed.

Lemma snapshot_ordered (t0 : Qc) name :
  hoare (G := G) (time_ordered t0) (_snapshot name) (fun _ => time_ordered t0).
Proof.
  intros s x s' (Hn & Hw & Hs & Hf & Hss & Hp & Hb) H. unfold _snapshot in H.
  assert (Hlast : forall sn, snap_timestamp sn = now s ->
            StronglySorted (fun a b => (snap_timestamp a <= snap_timestamp b)%Qc)
              (snapshots s ++ [sn]) /\
            Forall (fun sn => (snap_timestamp sn <= t0)%Qc) (snapshots s ++ [sn]) /\
            Forall (fun sn => within (sim_config s) (snap_timestamp sn))
              (snapshots s ++ [sn])).
  { intros sn Hsn. split; [|split].
    - apply StronglySorted_app_2; [|done|repeat constructor].
      intros a b Ha ->%list_elem_of_singleton. rewrite Hsn, Hn.
      rewrite Forall_forall in Hp. by apply Hp.
    - apply Forall_app. split; [done|]. constructor; [|constructor].
      rewrite Hsn, Hn. apply Qcle_refl.
    - apply Forall_app. split; [done|]. constructor; [|constructor].
      by rewrite Hsn, Hn. }
  revert Hlast. run_step H; intros Hlast.
  all: unfold time_ordered; simpl; do 4 (split; [done|]); by apply Hlast.
Qed.

Lemma hoare_drop {X} (P : EventDrivenSimulator G -> Prop) (phi : Prop) (m : M G X)
    (Q : X -> EventDrivenSimulator G -> Prop) :
  (phi -> hoare P m Q) -> hoare (fun s => P s /\ phi) m Q.
Proof. intros Hm s x s' [Hp Hphi]. by apply Hm. Qed.

(** A method that schedules events from now on and takes snapshots now. *)
Ltac timed :=
  hoare_fields ltac:(first
    [ apply hoare_gets_now
    | apply snapshot_ordered
    | apply schedule_ordered;
      first [ assumption
            | intros ? [= <-]; apply Qcle_plus_nonneg, py_max_nonneg ]
    | match goal with
      | |- hoare (time_ordered ?t) (next_time ?t' ?rate ≫= _) _ =>
          eapply hoare_bind_dep; [apply (next_time_later t t' rate)|];
          let r := fresh "r" in
          intros r;
          apply (hoare_drop (time_ordered t) (forall v, r = Some v -> (t' <= v)%Qc));
          intros ?
      end ]).

Lemma start_timed :
  hoare (G := G) (time_ordered (Q2Qc 0)) (start set_iter)
    (fun _ => time_ordered (Q2Qc 0)).
Proof. timed. Qed.

Lemma handle_event_timed event :
  hoare (G := G)
    (fun s => in_time s /\ (now s <= ev_timestamp event)%Qc /\
              Forall (fun e => (ev_timestamp event <= ev_timestamp e)%Qc) (_events s) /\
              (ev_timestamp event <= end_time (sim_config s))%Qc)
    (handle_event set_iter event) (fun _ => in_time).
Proof.
  unfold handle_event. apply hoare_seq; [apply hoare_gets|]. intros cfg.
  eapply hoare_bind with (Q := time_ordered (ev_timestamp event)).
  { apply hoare_modify_to.
    intros s ((_ & _ & Hs & _ & Hss & Hp & Hb) & Hle & Hall & Hend).
    unfold time_ordered. simpl. split; [done|]. split; [by right|].
    split; [done|]. split; [done|]. split; [done|]. split; [|done].
    eapply Forall_impl; [exact Hp|]. simpl. intros sn Hsn. by eapply Qcle_trans. }
  intros _. eapply hoare_weaken with (P := time_ordered (ev_timestamp event))
    (Q := fun _ => time_ordered (ev_timestamp event)); [|done|].
  - timed.
  - intros _ s Hs. unfold in_time. by rewrite (proj1 Hs).
Qed.

Lemma loop_turn_timed :
  hoare (G := G) in_time (loop_turn set_iter) (fun _ => in_time).
Proof.
  intros s x s' Hs H.
  assert (Hpop : forall e l, heappop (_events s) = Some (e, l) ->
            in_time (set_events s l) /\ (now s <= ev_timestamp e)%Qc /\
            Forall (fun e' => (ev_timestamp e <= ev_timestamp e')%Qc) l).
  { intros e l He. destruct Hs as (Hn & Hw & Hs & Hf & Hrest).
    unfold heappop in He. destruct (_events s) as [|e0 h] eqn:Eh; [done|].
    injection He as -> ->. apply StronglySorted_inv in Hs as [Hs Hall].
    apply Forall_cons in Hf as [He Hf]. split; [|done].
    destruct Hrest as (Hss & Hp & Hb).
    unfold in_time, time_ordered. simpl. done. }
  unfold loop_turn in H. run_step H; [exact (proj1 (Hpop _ _ eq_refl))| |done].
  destruct (Hpop _ _ eq_refl) as (Hi & Hle & Hall).
  match goal with E : handle_event _ _ _ = _ |- _ =>
    eapply handle_event_timed in E; [done|] end.
  split; [done|]. split; [done|]. split; [done|]. simpl.
  match goal with E : bool_decide _ = false |- _ => apply bool_decide_eq_false in E end.
  by apply Qcnot_lt_le.
Qed.

Lemma run_loop_timed fuel :
  hoare (G := G) in_time (run_loop set_iter fuel) (fun _ => in_time).
Proof.
  induction fuel as [|fuel IH]; simpl;
    (apply hoare_bind_inv; [apply loop_turn_timed|]); intros [[]|];
    try apply hoare_ret; [|done].
  by intros s x s' _ H.
Qed.

End time_order.

Lemma nth_draw_nonneg (n : nat) : (Q2Qc 0 <= nth_draw n)%Qc.
Proof.
  unfold nth_draw, dec. pose proof (Z.mod_pos_bound (Z.of_nat n * 37 + 11) 100).
  unfold Qcle, Q2Qc. cbn [this]. rewrite !Qred_correct. unfold Qle. simpl. lia.
Qed.

Lemma endless_exponential (scale : Qc) (n : nat) :
  (Q2Qc 0 <= scale)%Qc ->
  (Q2Qc 0 <= (exponential (Generator := endless) scale n).1)%Qc.
Proof.
  intros Hs. simpl. pose proof (nth_draw_nonneg n) as Hn.
  unfold Qcle, Qcmult, Q2Qc in *. cbn [this] in *. rewrite !Qred_correct in *.
  by apply Qmult_le_0_compat.
Qed.

(** X18: time goes forward.  In exact arithmetic and with a generator whose
    exponential draws are not negative, the snapshots a run returns are in
    the order of their timestamps, and none but those of time 0 was taken
    after the horizon [end_time] of the configuration. *)
Theorem X18_snapshots_in_time_order {G : Type} {gen : Generator G}
    (set_iter : gset string -> list string) (cfg : SimulatorConfig) (fuel : nat)
    (r : RunResult) :
  (forall scale (g : G),
     (Q2Qc 0 <= scale)%Qc -> (Q2Qc 0 <= (exponential scale g).1)%Qc) ->
  run (A := exact) set_iter cfg fuel = Return r ->
  StronglySorted (fun a b => (snap_timestamp a <= snap_timestamp b)%Qc)
    (out_snapshots r) /\
  Forall (fun sn => snap_timestamp sn = Q2Qc 0 \/ (snap_timestamp sn <= end_time cfg)%Qc)
    (out_snapshots r).
Proof.
  unfold run, run_from. intros Hexp H.
  destruct ((start (A := exact) set_iter ≫= fun _ => run_loop set_iter fuel)
              (new_simulator cfg)) as [[[] s]| |] eqn:E; [|done..].
  simpl in H. injection H as <-. simpl.
  assert (Hc : sim_config s = cfg).
  { assert (Hcfg : counted cfg 1 s /\ refresh_settled (mm_update_every_k_events cfg) s).
    { eapply (hoare_bind _ _ _ _ _ (start_counted set_iter cfg)
                (fun _ => run_loop_counted set_iter cfg fuel)); [|exact E].
      by repeat split. }
    apply Hcfg. }
  assert (Ht : in_time s).
  { assert (Hstart : hoare (G := G) (time_ordered (Q2Qc 0)) (start (A := exact) set_iter)
                         (fun _ => in_time)).
    { intros s0 x s1 Hs0 H0. apply (start_timed set_iter Hexp) in H0; [|done].
      unfold in_time. by rewrite (proj1 H0). }
    eapply (hoare_bind _ _ _ _ _ Hstart
              (fun _ => run_loop_timed set_iter Hexp fuel)); [|exact E].
    unfold time_ordered. simpl. split; [done|]. split; [by left|].
    repeat split; constructor. }
  destruct Ht as (_ & _ & _ & _ & Hss & _ & Hb). rewrite Hc in Hb. done.
Qed.

Lemma X18_witness :
  (forall scale (n : nat),
     (Q2Qc 0 <= scale)%Qc ->
     (Q2Qc 0 <= (exponential (Generator := endless) scale n).1)%Qc) /\
  run (A := exact) (gen := endless) elements short_config 20 = Return endless_result /\
  length (out_snapshots endless_result) = 10%nat /\
  StronglySorted (fun a b => (snap_timestamp a <= snap_timestamp b)%Qc)
    (out_snapshots endless_result).
Proof.
  assert (Hr : run (A := exact) (gen := endless) elements short_config 20
               = Return endless_result) by (vm_compute; reflexivity).
  split; [exact endless_exponential|]. split; [exact Hr|]. split; [reflexivity|].
  exact (proj1 (X18_snapshots_in_time_order (gen := endless) elements short_config 20
                  endless_result endless_exponential Hr)).
Defined.
